(** * Stack blur (jni/stackblur/stackblur.cpp): shallow embedding and properties

    The C++ source blurs a one-byte-per-sample raster in place, in two
    passes ([step] 1 along rows, [step] 2 along columns).  The embedding
    below follows the source statement by statement:

    - [unsigned int] values are [Z] with the wrap-around [u32] written at
      every operation; [unsigned long] is [L] bits wide (32 on the ILP32
      ABIs, 64 on the LP64 ones; a parameter here) and wraps in [assign];
      offsets from [src] are pointer arithmetic and do not wrap;
    - the pixel buffer and the local array [stack] are lists of [Z] held
      in a [machine]; pointers into them are offsets; an access outside
      the object is [Fault]: undefined behaviour in C, after which the
      embedding follows the program no further.  What the program
      computes is stated on the runs that return [Ok]; a [Fault] means
      that the code makes such an access, not that a real run stops;
    - the three accumulators and the scaled product are [unsigned long];
      every assignment to one of them goes through [assign], which stores
      the wrapped value and records the exact one in a ghost [trace]. *)

From Stdlib Require Import ZArith Lia List Bool.
From stdpp Require Import base numbers list.

Local Open Scope Z_scope.

(** ** Machine integers *)

Definition u32 (z : Z) : Z := z mod 2 ^ 32.
Definition u8 (z : Z) : Z := z mod 2 ^ 8.

(** [clamp(a,min,max)]: the macro of the source, on values already
    converted to a common unsigned type. *)
Definition clamp (a min max : Z) : Z :=
  if a <? min then min else if a >? max then max else a.

(** ** Scaling tables *)

Definition stackblur_mul : list Z :=
  [ 512;512;456;512;328;456;335;512;405;328;271;456;388;335;292;512;
    454;405;364;328;298;271;496;456;420;388;360;335;312;292;273;512;
    482;454;428;405;383;364;345;328;312;298;284;271;259;496;475;456;
    437;420;404;388;374;360;347;335;323;312;302;292;282;273;265;512;
    497;482;468;454;441;428;417;405;394;383;373;364;354;345;337;328;
    320;312;305;298;291;284;278;271;265;259;507;496;485;475;465;456;
    446;437;428;420;412;404;396;388;381;374;367;360;354;347;341;335;
    329;323;318;312;307;302;297;292;287;282;278;273;269;265;261;512;
    505;497;489;482;475;468;461;454;447;441;435;428;422;417;411;405;
    399;394;389;383;378;373;368;364;359;354;350;345;341;337;332;328;
    324;320;316;312;309;305;301;298;294;291;287;284;281;278;274;271;
    268;265;262;259;257;507;501;496;491;485;480;475;470;465;460;456;
    451;446;442;437;433;428;424;420;416;412;408;404;400;396;392;388;
    385;381;377;374;370;367;363;360;357;354;350;347;344;341;338;335;
    332;329;326;323;320;318;315;312;310;307;304;302;299;297;294;292;
    289;287;285;282;280;278;275;273;271;269;267;265;263;261;259 ].

Definition stackblur_shr : list Z :=
  [ 9; 11; 12; 13; 13; 14; 14; 15; 15; 15; 15; 16; 16; 16; 16; 17;
    17; 17; 17; 17; 17; 17; 18; 18; 18; 18; 18; 18; 18; 18; 18; 19;
    19; 19; 19; 19; 19; 19; 19; 19; 19; 19; 19; 19; 19; 20; 20; 20;
    20; 20; 20; 20; 20; 20; 20; 20; 20; 20; 20; 20; 20; 20; 20; 21;
    21; 21; 21; 21; 21; 21; 21; 21; 21; 21; 21; 21; 21; 21; 21; 21;
    21; 21; 21; 21; 21; 21; 21; 21; 21; 21; 22; 22; 22; 22; 22; 22;
    22; 22; 22; 22; 22; 22; 22; 22; 22; 22; 22; 22; 22; 22; 22; 22;
    22; 22; 22; 22; 22; 22; 22; 22; 22; 22; 22; 22; 22; 22; 22; 23;
    23; 23; 23; 23; 23; 23; 23; 23; 23; 23; 23; 23; 23; 23; 23; 23;
    23; 23; 23; 23; 23; 23; 23; 23; 23; 23; 23; 23; 23; 23; 23; 23;
    23; 23; 23; 23; 23; 23; 23; 23; 23; 23; 23; 23; 23; 23; 23; 23;
    23; 23; 23; 23; 23; 24; 24; 24; 24; 24; 24; 24; 24; 24; 24; 24;
    24; 24; 24; 24; 24; 24; 24; 24; 24; 24; 24; 24; 24; 24; 24; 24;
    24; 24; 24; 24; 24; 24; 24; 24; 24; 24; 24; 24; 24; 24; 24; 24;
    24; 24; 24; 24; 24; 24; 24; 24; 24; 24; 24; 24; 24; 24; 24; 24;
    24; 24; 24; 24; 24; 24; 24; 24; 24; 24; 24; 24; 24; 24; 24 ].

(** ** Machine state, faults and the monad *)

(** Which [unsigned long] quantity an [assign] wrote. *)
Inductive acc := ASum | ASumIn | ASumOut | AProd.

Record machine := Machine {
  pix : list Z;              (* the caller's pixel buffer, [src] *)
  stk : list Z;              (* the local array [stack] *)
  trace : list (acc * Z)     (* ghost: exact value of every unsigned long assignment, newest first *)
}.

Inductive outcome (A : Type) :=
| Ok (a : A) (m : machine)
| Fault (m : machine).
Arguments Ok {A} a m.
Arguments Fault {A} m.

Definition M (A : Type) : Type := machine -> outcome A.

Definition ret {A} (a : A) : M A := fun m => Ok a m.

Definition bind {A B} (c : M A) (k : A -> M B) : M B :=
  fun m => match c m with
           | Ok a m' => k a m'
           | Fault m' => Fault m'
           end.

Notation "x <- c ;; k" := (bind c (fun x => k))
  (at level 100, c at next level, right associativity).
Notation "c ;; k" := (bind c (fun _ => k))
  (at level 100, right associativity).

(** The machine an outcome ends in, whether it completed or faulted. *)
Definition final {A} (o : outcome A) : machine :=
  match o with Ok _ m => m | Fault m => m end.

(** The cell at offset [p] of an array (0 outside it, where no access
    of the model looks). *)
Definition peek (l : list Z) (p : Z) : Z := nth (Z.to_nat p) l 0.

Definition in_range (l : list Z) (p : Z) : bool :=
  (0 <=? p) && (p <? Z.of_nat (length l)).

(** [t[i]] on a constant table. *)
Definition table_read (t : list Z) (i : Z) : M Z :=
  fun m => if in_range t i then Ok (peek t i) m else Fault m.

(** [p[0]] for a pointer [src + p]. *)
Definition load_src (p : Z) : M Z :=
  fun m => if in_range (pix m) p then Ok (peek (pix m) p) m else Fault m.

(** [p[0] = v] for a pointer [src + p]; the store narrows to a byte. *)
Definition store_src (p v : Z) : M unit :=
  fun m => if in_range (pix m) p
           then Ok tt (Machine (<[Z.to_nat p := u8 v]> (pix m)) (stk m) (trace m))
           else Fault m.

(** [stack[i]], read and written. *)
Definition load_stack (i : Z) : M Z :=
  fun m => if in_range (stk m) i then Ok (peek (stk m) i) m else Fault m.

Definition store_stack (i v : Z) : M unit :=
  fun m => if in_range (stk m) i
           then Ok tt (Machine (pix m) (<[Z.to_nat i := u8 v]> (stk m)) (trace m))
           else Fault m.

(** [unsigned char stack[div]]: [div] cells whose contents are whatever
    the memory held before (here: the previous [stk], zero-extended). *)
Definition alloc_stack (div : Z) : M unit :=
  fun m => Ok tt (Machine (pix m) (resize (Z.to_nat div) 0 (stk m)) (trace m)).

(** An assignment to an [unsigned long] of width [L]: the variable gets
    the wrapped value, the trace the exact one. *)
Definition assign (L : Z) (k : acc) (exact : Z) : M Z :=
  fun m => Ok (exact mod 2 ^ L) (Machine (pix m) (stk m) ((k, exact) :: trace m)).

(** [for (i = from; ...; i++) body], [n] iterations, loop-carried state [s]. *)
Fixpoint for_loop {St : Type} (n : nat) (from : Z) (body : Z -> St -> M St) (s : St) : M St :=
  match n with
  | O => ret s
  | S n' => s' <- body from s ;; for_loop n' (from + 1) body s'
  end.

(** ** The blur *)

(** The loop-carried locals of the main loop of one line ([xp] is the
    [yp] of step 2). *)
Record regs := Regs {
  sum : Z; sum_in : Z; sum_out : Z;
  sp : Z; xp : Z; src_ptr : Z; dst_ptr : Z
}.

Section Body.
Variable L : Z.                      (* width of unsigned long, in bits *)
Variables w h radius : Z.
Variables wm hm div mul_sum shr_sum : Z.

(** Lines 89-146: row [y] of step 1. *)
Definition step1_row (y : Z) : M unit :=
    sum0 <- assign L ASum 0 ;;
    sum_in0 <- assign L ASumIn 0 ;;
    sum_out0 <- assign L ASumOut 0 ;;
    let src0 := u32 (y * w) in
    a <- for_loop (Z.to_nat (radius + 1)) 0 (fun i '(sum, sum_out) =>
           v <- load_src src0 ;;
           store_stack i v ;;
           v <- load_src src0 ;;
           sum <- assign L ASum (sum + u32 (v * u32 (i + 1))) ;;
           v <- load_src src0 ;;
           sum_out <- assign L ASumOut (sum_out + v) ;;
           ret (sum, sum_out))
         (sum0, sum_out0) ;;
    b <- for_loop (Z.to_nat radius) 1 (fun i '(sum, sum_in, src_ptr) =>
           let src_ptr := if i <=? wm then src_ptr + 1 else src_ptr in
           v <- load_src src_ptr ;;
           store_stack (u32 (i + radius)) v ;;
           v <- load_src src_ptr ;;
           sum <- assign L ASum (sum + u32 (v * u32 (u32 (radius + 1) - i))) ;;
           v <- load_src src_ptr ;;
           sum_in <- assign L ASumIn (sum_in + v) ;;
           ret (sum, sum_in, src_ptr))
         (fst a, sum_in0, src0) ;;
    let xp0 := if radius >? wm then wm else radius in
    for_loop (Z.to_nat w) 0 (fun x r =>
        pr <- assign L AProd (sum r * mul_sum) ;;
        store_src (dst_ptr r) (clamp (Z.shiftr pr shr_sum) 0 255) ;;
        let dst_ptr' := dst_ptr r + 1 in
        s <- assign L ASum (sum r - sum_out r) ;;
        let stack_start := u32 (u32 (sp r + div) - radius) in
        let stack_start :=
          if stack_start >=? div then u32 (stack_start - div) else stack_start in
        v <- load_stack stack_start ;;
        so <- assign L ASumOut (sum_out r - v) ;;
        let src_ptr' := if xp r <? wm then src_ptr r + 1 else src_ptr r in
        let xp' := if xp r <? wm then u32 (xp r + 1) else xp r in
        v <- load_src src_ptr' ;;
        store_stack stack_start v ;;
        v <- load_src src_ptr' ;;
        si <- assign L ASumIn (sum_in r + v) ;;
        s <- assign L ASum (s + si) ;;
        let sp' := u32 (sp r + 1) in
        let sp' := if sp' >=? div then 0 else sp' in
        v <- load_stack sp' ;;
        so <- assign L ASumOut (so + v) ;;
        v <- load_stack sp' ;;
        si <- assign L ASumIn (si - v) ;;
        ret (Regs s si so sp' xp' src_ptr' dst_ptr'))
      (Regs (fst (fst b)) (snd (fst b)) (snd a) radius xp0
            (xp0 + u32 (y * w)) (u32 (y * w))) ;;
    ret tt.

(** Lines 155-210: column [x] of step 2. *)
Definition step2_col (x : Z) : M unit :=
    sum0 <- assign L ASum 0 ;;
    sum_in0 <- assign L ASumIn 0 ;;
    sum_out0 <- assign L ASumOut 0 ;;
    let src0 := x in
    a <- for_loop (Z.to_nat (radius + 1)) 0 (fun i '(sum, sum_out) =>
           v <- load_src src0 ;;
           store_stack i v ;;
           v <- load_src src0 ;;
           sum <- assign L ASum (sum + u32 (v * u32 (i + 1))) ;;
           v <- load_src src0 ;;
           sum_out <- assign L ASumOut (sum_out + v) ;;
           ret (sum, sum_out))
         (sum0, sum_out0) ;;
    b <- for_loop (Z.to_nat radius) 1 (fun i '(sum, sum_in, src_ptr) =>
           let src_ptr := if i <=? hm then src_ptr + w else src_ptr in
           v <- load_src src_ptr ;;
           store_stack (u32 (i + radius)) v ;;
           v <- load_src src_ptr ;;
           sum <- assign L ASum (sum + u32 (v * u32 (u32 (radius + 1) - i))) ;;
           v <- load_src src_ptr ;;
           sum_in <- assign L ASumIn (sum_in + v) ;;
           ret (sum, sum_in, src_ptr))
         (fst a, sum_in0, src0) ;;
    let yp0 := if radius >? hm then hm else radius in
    for_loop (Z.to_nat h) 0 (fun y r =>
        pr <- assign L AProd (sum r * mul_sum) ;;
        store_src (dst_ptr r) (clamp (Z.shiftr pr shr_sum) 0 255) ;;
        let dst_ptr' := dst_ptr r + w in
        s <- assign L ASum (sum r - sum_out r) ;;
        let stack_start := u32 (u32 (sp r + div) - radius) in
        let stack_start :=
          if stack_start >=? div then u32 (stack_start - div) else stack_start in
        v <- load_stack stack_start ;;
        so <- assign L ASumOut (sum_out r - v) ;;
        let src_ptr' := if xp r <? hm then src_ptr r + w else src_ptr r in
        let yp' := if xp r <? hm then u32 (xp r + 1) else xp r in
        v <- load_src src_ptr' ;;
        store_stack stack_start v ;;
        v <- load_src src_ptr' ;;
        si <- assign L ASumIn (sum_in r + v) ;;
        s <- assign L ASum (s + si) ;;
        let sp' := u32 (sp r + 1) in
        let sp' := if sp' >=? div then 0 else sp' in
        v <- load_stack sp' ;;
        so <- assign L ASumOut (so + v) ;;
        v <- load_stack sp' ;;
        si <- assign L ASumIn (si - v) ;;
        ret (Regs s si so sp' yp' src_ptr' dst_ptr'))
      (Regs (fst (fst b)) (snd (fst b)) (snd a) radius yp0
            (x + u32 (yp0 * w)) x) ;;
    ret tt.
End Body.

(** [stackblur(src, w, h, radius, step)], lines 59-213. *)
Definition stackblur (L : Z) (w h radius step : Z) : M unit :=
  let wm := u32 (w - 1) in
  let hm := u32 (h - 1) in
  let div := u32 (u32 (radius * 2) + 1) in
  mul_sum <- table_read stackblur_mul radius ;;
  shr_sum <- table_read stackblur_shr radius ;;
  alloc_stack div ;;
  (if step =? 1
   then for_loop (Z.to_nat h) 0
          (fun y _ => step1_row L w radius wm div mul_sum shr_sum y) tt
   else ret tt) ;;
  (if step =? 2
   then for_loop (Z.to_nat w) 0
          (fun x _ => step2_col L w h radius hm div mul_sum shr_sum x) tt
   else ret tt).

(** The JNI entry point, lines 216-222: [jint] arguments converted to
    [unsigned int], then the two passes on the same buffer. *)
Definition Java_com_jxtras_android_utils_ImageUtils_stackblur (L : Z) (width height radius : Z) : M unit :=
  stackblur L (u32 width) (u32 height) (u32 radius) 1 ;;
  stackblur L (u32 width) (u32 height) (u32 radius) 2.

(** ** One line, whatever its direction

    The two branches of the source differ only in where a line starts,
    how far apart its samples are, how many it has and how the pointer to
    sample [xp] is computed.  [blur_line] is their common text; the two
    lemmas after it show that each branch is an instance of it. *)

Section Line.
Variable L : Z.
Variables radius div mul_sum shr_sum : Z.
Variables n nm stride base : Z.
Variable pix_ptr : Z -> Z.

Definition fill_edge : Z -> Z * Z -> M (Z * Z) :=
    fun i '(sum, sum_out) =>
      v <- load_src base ;;
      store_stack i v ;;
      v <- load_src base ;;
      sum <- assign L ASum (sum + u32 (v * u32 (i + 1))) ;;
      v <- load_src base ;;
      sum_out <- assign L ASumOut (sum_out + v) ;;
      ret (sum, sum_out).

Definition fill_ahead : Z -> Z * Z * Z -> M (Z * Z * Z) :=
    fun i '(sum, sum_in, src_ptr) =>
      let src_ptr := if i <=? nm then src_ptr + stride else src_ptr in
      v <- load_src src_ptr ;;
      store_stack (u32 (i + radius)) v ;;
      v <- load_src src_ptr ;;
      sum <- assign L ASum (sum + u32 (v * u32 (u32 (radius + 1) - i))) ;;
      v <- load_src src_ptr ;;
      sum_in <- assign L ASumIn (sum_in + v) ;;
      ret (sum, sum_in, src_ptr).

Definition slide : Z -> regs -> M regs :=
    fun _ r =>
      pr <- assign L AProd (sum r * mul_sum) ;;
      store_src (dst_ptr r) (clamp (Z.shiftr pr shr_sum) 0 255) ;;
      let dst_ptr' := dst_ptr r + stride in
      s <- assign L ASum (sum r - sum_out r) ;;
      let stack_start := u32 (u32 (sp r + div) - radius) in
      let stack_start :=
        if stack_start >=? div then u32 (stack_start - div) else stack_start in
      v <- load_stack stack_start ;;
      so <- assign L ASumOut (sum_out r - v) ;;
      let src_ptr' := if xp r <? nm then src_ptr r + stride else src_ptr r in
      let xp' := if xp r <? nm then u32 (xp r + 1) else xp r in
      v <- load_src src_ptr' ;;
      store_stack stack_start v ;;
      v <- load_src src_ptr' ;;
      si <- assign L ASumIn (sum_in r + v) ;;
      s <- assign L ASum (s + si) ;;
      let sp' := u32 (sp r + 1) in
      let sp' := if sp' >=? div then 0 else sp' in
      v <- load_stack sp' ;;
      so <- assign L ASumOut (so + v) ;;
      v <- load_stack sp' ;;
      si <- assign L ASumIn (si - v) ;;
      ret (Regs s si so sp' xp' src_ptr' dst_ptr').

Definition blur_line : M unit :=
    sum0 <- assign L ASum 0 ;;
    sum_in0 <- assign L ASumIn 0 ;;
    sum_out0 <- assign L ASumOut 0 ;;
    a <- for_loop (Z.to_nat (radius + 1)) 0 fill_edge (sum0, sum_out0) ;;
    b <- for_loop (Z.to_nat radius) 1 fill_ahead (fst a, sum_in0, base) ;;
    let xp0 := if radius >? nm then nm else radius in
    for_loop (Z.to_nat n) 0 slide
      (Regs (fst (fst b)) (snd (fst b)) (snd a) radius xp0 (pix_ptr xp0) base) ;;
    ret tt.
End Line.

(** A machine holding the buffer [buf], with an empty stack area and an
    empty trace. *)
Definition boot (buf : list Z) : machine := Machine buf [] [].

(** Every sample is an [unsigned char]. *)
Definition is_bytes (l : list Z) : bool :=
  forallb (fun v => (0 <=? v) && (v <=? 255)) l.

(** ** Reference formulae *)

(** [sum_from n lo g = g lo + g (lo+1) + ... + g (lo+n-1)], and the same
    sum over the half-open interval [lo, hi). *)
Fixpoint sum_from (n : nat) (lo : Z) (g : Z -> Z) : Z :=
  match n with
  | O => 0
  | S n' => g lo + sum_from n' (lo + 1) g
  end.

Definition Zsum (lo hi : Z) (g : Z -> Z) : Z := sum_from (Z.to_nat (hi - lo)) lo g.

(** [clamp(i, 0, n-1)] on indices. *)
Definition clamp_index (i n : Z) : Z := Z.max 0 (Z.min i (n - 1)).

Definition mul_of (radius : Z) : Z := peek stackblur_mul radius.
Definition shr_of (radius : Z) : Z := peek stackblur_shr radius.

(** The tent-weighted, edge-clamped window sum around sample [x] of a
    line of [n] samples: weight [radius+1-|k|] on the sample [k] places
    away. *)
Definition tent (radius : Z) (line : Z -> Z) (n x : Z) : Z :=
  Zsum (- radius) (radius + 1)
       (fun k => (radius + 1 - Z.abs k) * line (clamp_index (x + k) n)).

(** The table-driven division of an accumulated sum [s], before the
    clamp, on the exact product; the code's product is [unsigned long]
    and is this one as long as it stays below [2^L]. *)
Definition scale (radius s : Z) : Z := Z.shiftr (s * mul_of radius) (shr_of radius).

(** The value the filter is meant to leave at sample [x] of the line. *)
Definition blurred (radius : Z) (line : Z -> Z) (n x : Z) : Z :=
  clamp (scale radius (tent radius line n x)) 0 255.

(** Row [y] and column [x] of a row-major buffer of width [w]. *)
Definition row (buf : list Z) (w y : Z) : Z -> Z := fun j => peek buf (y * w + j).
Definition col (buf : list Z) (w x : Z) : Z -> Z := fun j => peek buf (j * w + x).

(** ** Window sums over the sequence fed to the stack

    [feed t] is the [t]-th value pushed on the stack while a line is
    processed; the window at output position [x] is [feed x .. feed (x+2r)]. *)
Section Window.
Variable radius : Z.
Variable feed : Z -> Z.

Definition tentw (x : Z) : Z :=
    Zsum 0 (radius + 1) (fun j => (j + 1) * feed (x + j)) +
    Zsum (radius + 1) (2 * radius + 1) (fun j => (2 * radius + 1 - j) * feed (x + j)).

Definition outw (x : Z) : Z := Zsum 0 (radius + 1) (fun j => feed (x + j)).

Definition inw (x : Z) : Z := Zsum (radius + 1) (2 * radius + 1) (fun j => feed (x + j)).
End Window.

(** ** What a line becomes, and the values fed to the stack meanwhile *)

Section LineSpec.
Variables radius mul_sum shr_sum n : Z.
Variable line : Z -> Z.

(** The edge-extended line, shifted so that the window of output [x] is
    [feed0 x .. feed0 (x + 2*radius)]. *)
Definition feed0 (t : Z) : Z := line (clamp_index (t - radius) n).

(** The byte written at position [x]. *)
Definition emit (x : Z) : Z :=
  clamp (Z.shiftr (tentw radius feed0 x * mul_sum) shr_sum) 0 255.

(** What the loops really push: the edge-extended line and then, in the
    last iteration only, the sample just overwritten at position [n-1]
    (its value enters the stack but no output is computed after it). *)
Definition feed (t : Z) : Z := if t <? n + 2 * radius then feed0 t else emit (n - 1).
End LineSpec.

(** ** Invariants of the three loops of a line *)

(** The exact value of an [unsigned long] assignment is within the
    bounds the algorithm keeps. *)
Definition ev_ok (radius mul_sum : Z) (e : acc * Z) : Prop :=
  match e with
  | (ASum, z) => 0 <= z <= 255 * (radius + 1) * (radius + 1)
  | (ASumIn, z) => 0 <= z <= 255 * (radius + 1)
  | (ASumOut, z) => 0 <= z <= 255 * (radius + 1)
  | (AProd, z) => 0 <= z <= 255 * (radius + 1) * (radius + 1) * mul_sum
  end.

Section LineInvariants.
Variables radius mul_sum shr_sum n stride base : Z.
Variable m0 : machine.                 (* the machine when the line starts *)

Definition line0 (j : Z) : Z := peek (pix m0) (base + j * stride).
Definition fd : Z -> Z := feed radius mul_sum shr_sum n line0.
Definition out0 : Z -> Z := emit radius mul_sum shr_sum n line0.

Record frame (m : machine) : Prop := Frame {
  fr_len : length (pix m) = length (pix m0);
  fr_bytes : is_bytes (pix m) = true;
  fr_off : forall q, 0 <= q -> (forall j, 0 <= j < n -> q <> base + j * stride) ->
                     peek (pix m) q = peek (pix m0) q;
  fr_stk : Z.of_nat (length (stk m)) = 2 * radius + 1;
  fr_trace : Forall (ev_ok radius mul_sum) (trace m)
}.

Record edge_inv (i : Z) (s : Z * Z) (m : machine) : Prop := EdgeInv {
  ei_frame : frame m;
  ei_pix : pix m = pix m0;
  ei_stk : forall t, 0 <= t < i -> peek (stk m) t = fd t;
  ei_sum : fst s = Zsum 0 i (fun j => (j + 1) * fd j);
  ei_out : snd s = Zsum 0 i fd
}.

Record ahead_inv (i : Z) (s : Z * Z * Z) (m : machine) : Prop := AheadInv {
  ai_frame : frame m;
  ai_pix : pix m = pix m0;
  ai_stk : forall t, 0 <= t < radius + i -> peek (stk m) t = fd t;
  ai_sum : fst (fst s) =
           Zsum 0 (radius + 1) (fun j => (j + 1) * fd j) +
           Zsum (radius + 1) (radius + i) (fun j => (2 * radius + 1 - j) * fd j);
  ai_in : snd (fst s) = Zsum (radius + 1) (radius + i) fd;
  ai_src : snd s = base + Z.min (i - 1) (n - 1) * stride
}.

Record slide_inv (x : Z) (r : regs) (m : machine) : Prop := SlideInv {
  si_frame : frame m;
  si_done : forall j, 0 <= j < x -> peek (pix m) (base + j * stride) = out0 j;
  si_todo : forall j, x <= j < n -> peek (pix m) (base + j * stride) = line0 j;
  si_stk : forall t, x <= t <= x + 2 * radius ->
                     peek (stk m) (t mod (2 * radius + 1)) = fd t;
  si_sum : sum r = tentw radius fd x;
  si_in : sum_in r = inw radius fd x;
  si_out : sum_out r = outw radius fd x;
  si_sp : sp r = (x + radius) mod (2 * radius + 1);
  si_xp : xp r = Z.min (x + radius) (n - 1);
  si_src : src_ptr r = base + xp r * stride;
  si_dst : dst_ptr r = base + x * stride
}.

(** The line is done: every sample of it holds its output. *)
Record line_post (m : machine) : Prop := LinePost {
  lp_frame : frame m;
  lp_done : forall j, 0 <= j < n -> peek (pix m) (base + j * stride) = out0 j
}.
End LineInvariants.

(** ** Invariant of a pass: lines below [l] are blurred, the others untouched *)

Section PassInvariant.
Variables radius mul_sum shr_sum n lines stride lstride : Z.
Variable M0 : machine.                 (* the machine when the pass starts *)

Definition cell (l j : Z) : Z := l * lstride + j * stride.
Definition pass_line (l : Z) : Z -> Z := fun j => peek (pix M0) (cell l j).

Record pass_inv (l : Z) (m : machine) : Prop := PassInv {
  pi_len : length (pix m) = length (pix M0);
  pi_bytes : is_bytes (pix m) = true;
  pi_stk : Z.of_nat (length (stk m)) = 2 * radius + 1;
  pi_trace : Forall (ev_ok radius mul_sum) (trace m);
  pi_done : forall l' j, 0 <= l' < l -> 0 <= j < n ->
      peek (pix m) (cell l' j) = emit radius mul_sum shr_sum n (pass_line l') j;
  pi_todo : forall l' j, l <= l' < lines -> 0 <= j < n ->
      peek (pix m) (cell l' j) = peek (pix M0) (cell l' j)
}.
End PassInvariant.

(** ** Bounds read off the trace *)

(** The 32-bit budget: every accumulator value is within the stated bound
    and the scaled product stays below [2^32]. *)
Definition within (radius : Z) (e : acc * Z) : Prop :=
  match e with
  | (ASum, z) => 0 <= z <= 255 * (radius + 1) ^ 2 /\ z <= 16581375 /\
                 z * mul_of radius < 2 ^ 32
  | (ASumIn, z) => 0 <= z <= 255 * (2 * radius + 1)
  | (ASumOut, z) => 0 <= z <= 255 * (2 * radius + 1)
  | (AProd, z) => 0 <= z < 2 ^ 32
  end.

(** The clamp of an emission leaves the scaled value as it is. *)
Definition unclamped (L radius : Z) (e : acc * Z) : Prop :=
  match e with
  | (AProd, z) =>
      let pre := Z.shiftr (z mod 2 ^ L) (shr_of radius) in
      0 <= pre <= 255 /\ clamp pre 0 255 = pre
  | _ => True
  end.

(** ** The entry point outside its preconditions *)

(** A computation that leaves the pixel buffer as it found it, whether
    it completes or faults. *)
Definition keeps_pix {A} (c : M A) : Prop := forall m, pix (final (c m)) = pix m.

(** The preconditions the specification lists for the entry point. *)
Definition valid_call (width height radius : Z) (buf : list Z) : Prop :=
  1 <= radius <= 254 /\ 1 <= width /\ 1 <= height /\
  width * height <= Z.of_nat (length buf).

(** Failing before any mutation. *)
Definition fails_cleanly (o : outcome unit) (m : machine) : Prop :=
  exists m', o = Fault m' /\ pix m' = pix m.

(** ** A check of the tables, row by row *)

(** Row [r] of the tables divides by the tent's area [(r+1)^2] exactly on
    every flat sum, and keeps the scaled product of the largest sum below
    [2^32]. *)
Definition table_row_ok (r : Z) : bool :=
  let area := (r + 1) * (r + 1) in
  (0 <=? mul_of r) && (0 <=? shr_of r) &&
  (255 * area * mul_of r <? 2 ^ 32) &&
  forallb (fun v => Z.shiftr (v * area * mul_of r) (shr_of r) =? v)
          (map Z.of_nat (seq 0 256)).

(** ** More on the tables and on what a run keeps *)

(** Row [r] of the tables is a 9-bit multiplier and a shift: the least
    multiplier whose product with the tent's area reaches [2^shr], with an
    excess small enough for sums of at most 255 areas. *)
Definition table_row_shape (r : Z) : bool :=
  let area := (r + 1) * (r + 1) in
  let m := mul_of r in
  let s := shr_of r in
  (9 <=? s) && (s <=? 24) && (257 <=? m) && (m <=? 512) &&
  ((m - 1) * area <? 2 ^ s) && (2 ^ s <=? m * area) &&
  (256 * (m * area - 2 ^ s) <=? 2 ^ s).

(** A computation that leaves the pixel buffer its length, whether it
    completes or faults. *)
Definition keeps_len {A} (c : M A) : Prop :=
  forall m, length (pix (final (c m))) = length (pix m).

(** The cells of the buffer that belong to no line of a pass. *)
Definition off_grid (n lines stride lstride q : Z) : Prop :=
  0 <= q /\ forall l j, 0 <= l < lines -> 0 <= j < n -> q <> cell stride lstride l j.

(** ** The two branches of the source are the shared line *)

Lemma step1_row_line L w radius wm div mul_sum shr_sum y :
  step1_row L w radius wm div mul_sum shr_sum y =
  blur_line L radius div mul_sum shr_sum w wm 1 (u32 (y * w))
            (fun xp => xp + u32 (y * w)).
Proof. reflexivity. Qed.

Lemma step2_col_line L w h radius hm div mul_sum shr_sum x :
  step2_col L w h radius hm div mul_sum shr_sum x =
  blur_line L radius div mul_sum shr_sum h hm w x
            (fun yp => x + u32 (yp * w)).
Proof. reflexivity. Qed.

(** ** Sums *)

Lemma sum_from_ext n : forall lo g g',
  (forall i, lo <= i < lo + Z.of_nat n -> g i = g' i) ->
  sum_from n lo g = sum_from n lo g'.
Proof.
  induction n as [|n IH]; intros lo g g' E; [reflexivity|].
  cbn [sum_from]. rewrite (E lo) by lia. f_equal. apply IH. intros; apply E; lia.
Qed.

Lemma sum_from_app n1 : forall n2 lo g,
  sum_from (n1 + n2) lo g = sum_from n1 lo g + sum_from n2 (lo + Z.of_nat n1) g.
Proof.
  induction n1 as [|n1 IH]; intros n2 lo g.
  - cbn [sum_from Nat.add Z.of_nat]. now rewrite Z.add_0_r.
  - cbn [sum_from Nat.add]. rewrite IH.
    replace (lo + 1 + Z.of_nat n1) with (lo + Z.of_nat (S n1)) by lia.
    apply Z.add_assoc.
Qed.

Lemma sum_from_shift n : forall lo d g,
  sum_from n lo (fun i => g (i + d)) = sum_from n (lo + d) g.
Proof.
  induction n as [|n IH]; intros lo d g; [reflexivity|].
  cbn [sum_from]. rewrite IH. do 2 f_equal. lia.
Qed.

Lemma sum_from_add n : forall lo g g',
  sum_from n lo (fun i => g i + g' i) = sum_from n lo g + sum_from n lo g'.
Proof.
  induction n as [|n IH]; intros lo g g'; [reflexivity|].
  cbn [sum_from]. rewrite IH. lia.
Qed.

Lemma sum_from_scale n : forall lo c g,
  sum_from n lo (fun i => c * g i) = c * sum_from n lo g.
Proof.
  induction n as [|n IH]; intros lo c g; cbn [sum_from]; [lia|].
  rewrite IH. lia.
Qed.

Lemma sum_from_le n : forall lo g g',
  (forall i, lo <= i < lo + Z.of_nat n -> g i <= g' i) ->
  sum_from n lo g <= sum_from n lo g'.
Proof.
  induction n as [|n IH]; intros lo g g' E; [reflexivity|].
  cbn [sum_from]. specialize (E lo ltac:(lia)) as E0.
  specialize (IH (lo + 1) g g' ltac:(intros; apply E; lia)). lia.
Qed.

Lemma sum_from_linear n : forall lo c d,
  2 * sum_from n lo (fun i => c * i + d) =
  Z.of_nat n * (c * (2 * lo + Z.of_nat n - 1) + 2 * d).
Proof.
  induction n as [|n IH]; intros lo c d; [reflexivity|].
  cbn [sum_from]. rewrite Z.mul_add_distr_l, IH. nia.
Qed.

Lemma Zsum_empty lo hi g : hi <= lo -> Zsum lo hi g = 0.
Proof. intros H. unfold Zsum. replace (Z.to_nat (hi - lo)) with O by lia. reflexivity. Qed.

Lemma Zsum_ext lo hi g g' :
  (forall i, lo <= i < hi -> g i = g' i) -> Zsum lo hi g = Zsum lo hi g'.
Proof. intros E. apply sum_from_ext. intros; apply E; lia. Qed.

Lemma Zsum_split lo mid hi g :
  lo <= mid <= hi -> Zsum lo hi g = Zsum lo mid g + Zsum mid hi g.
Proof.
  intros H. unfold Zsum.
  replace (Z.to_nat (hi - lo)) with (Z.to_nat (mid - lo) + Z.to_nat (hi - mid))%nat by lia.
  rewrite sum_from_app. do 2 f_equal. lia.
Qed.

Lemma Zsum_one lo g : Zsum lo (lo + 1) g = g lo.
Proof.
  unfold Zsum. replace (Z.to_nat (lo + 1 - lo)) with 1%nat by lia.
  cbn [sum_from]. lia.
Qed.

Lemma Zsum_first lo hi g : lo < hi -> Zsum lo hi g = g lo + Zsum (lo + 1) hi g.
Proof. intros H. rewrite (Zsum_split lo (lo + 1) hi) by lia. now rewrite Zsum_one. Qed.

Lemma Zsum_last lo hi g : lo < hi -> Zsum lo hi g = Zsum lo (hi - 1) g + g (hi - 1).
Proof.
  intros H. rewrite (Zsum_split lo (hi - 1) hi) by lia.
  replace (Zsum (hi - 1) hi g) with (Zsum (hi - 1) (hi - 1 + 1) g) by (f_equal; lia).
  now rewrite Zsum_one.
Qed.

Lemma Zsum_shift lo hi d g :
  Zsum lo hi (fun i => g (i + d)) = Zsum (lo + d) (hi + d) g.
Proof.
  unfold Zsum. rewrite sum_from_shift. f_equal. lia.
Qed.

Lemma Zsum_add lo hi g g' :
  Zsum lo hi (fun i => g i + g' i) = Zsum lo hi g + Zsum lo hi g'.
Proof. apply sum_from_add. Qed.

Lemma Zsum_scale lo hi c g :
  Zsum lo hi (fun i => c * g i) = c * Zsum lo hi g.
Proof. apply sum_from_scale. Qed.

Lemma Zsum_le lo hi g g' :
  (forall i, lo <= i < hi -> g i <= g' i) -> Zsum lo hi g <= Zsum lo hi g'.
Proof. intros E. apply sum_from_le. intros; apply E; lia. Qed.

Lemma Zsum_linear lo hi c d :
  lo <= hi ->
  2 * Zsum lo hi (fun i => c * i + d) = (hi - lo) * (c * (lo + hi - 1) + 2 * d).
Proof.
  intros H. unfold Zsum. rewrite sum_from_linear.
  rewrite Z2Nat.id by lia. f_equal. lia.
Qed.

Lemma Zsum_const lo hi c : lo <= hi -> Zsum lo hi (fun _ => c) = (hi - lo) * c.
Proof.
  intros H. pose proof (Zsum_linear lo hi 0 c H) as E.
  rewrite (Zsum_ext _ _ (fun _ => c) (fun i => 0 * i + c)) by (intros; lia). lia.
Qed.

Lemma Zsum_nonneg lo hi g : (forall i, lo <= i < hi -> 0 <= g i) -> 0 <= Zsum lo hi g.
Proof.
  intros E. destruct (Z.le_gt_cases hi lo) as [Hle|Hlt].
  - rewrite Zsum_empty by lia. lia.
  - pose proof (Zsum_le lo hi (fun _ => 0) g E) as H.
    rewrite Zsum_const in H by lia. lia.
Qed.

(** ** Window sums: how they move, what bounds them *)

Section WindowFacts.
Variable radius : Z.
Hypothesis Hr : 0 <= radius.
Variable feed : Z -> Z.

Lemma outw_step x :
    outw radius feed (x + 1) = outw radius feed x - feed x + feed (x + radius + 1).
Proof.
    unfold outw.
    rewrite (Zsum_ext _ _ (fun j => feed (x + 1 + j)) (fun j => (fun i => feed (x + i)) (j + 1)))
      by (intros; cbv beta; f_equal; lia).
    rewrite (Zsum_shift 0 (radius + 1) 1 (fun i => feed (x + i))).
    pose proof (Zsum_first 0 (radius + 1 + 1) (fun i => feed (x + i)) ltac:(lia)) as E1.
    pose proof (Zsum_last 0 (radius + 1 + 1) (fun i => feed (x + i)) ltac:(lia)) as E2.
    cbv beta in E1, E2.
    replace (radius + 1 + 1 - 1) with (radius + 1) in E2 by lia.
    replace (x + 0) with x in E1 by lia.
    replace (x + (radius + 1)) with (x + radius + 1) in E2 by lia.
    lia.
Qed.

Lemma inw_step x :
    inw radius feed (x + 1) =
    inw radius feed x - feed (x + radius + 1) + feed (x + 2 * radius + 1).
Proof.
    unfold inw.
    rewrite (Zsum_ext _ _ (fun j => feed (x + 1 + j)) (fun j => (fun i => feed (x + i)) (j + 1)))
      by (intros; cbv beta; f_equal; lia).
    rewrite (Zsum_shift (radius + 1) (2 * radius + 1) 1 (fun i => feed (x + i))).
    pose proof (Zsum_first (radius + 1) (2 * radius + 1 + 1) (fun i => feed (x + i)) ltac:(lia)) as E1.
    pose proof (Zsum_last (radius + 1) (2 * radius + 1 + 1) (fun i => feed (x + i)) ltac:(lia)) as E2.
    cbv beta in E1, E2.
    replace (2 * radius + 1 + 1 - 1) with (2 * radius + 1) in E2 by lia.
    replace (x + (radius + 1)) with (x + radius + 1) in E1 by lia.
    replace (x + (2 * radius + 1)) with (x + 2 * radius + 1) in E2 by lia.
    lia.
Qed.

Lemma tentw_step x :
    tentw radius feed (x + 1) =
    tentw radius feed x - outw radius feed x + inw radius feed x + feed (x + 2 * radius + 1).
Proof.
    unfold tentw, outw, inw.
    set (G := fun j => j * feed (x + j)).
    set (H := fun j => (2 * radius + 2 - j) * feed (x + j)).
    rewrite (Zsum_ext 0 _ (fun j => (j + 1) * feed (x + 1 + j)) (fun j => G (j + 1)))
      by (intros; unfold G; do 2 f_equal; lia).
    rewrite (Zsum_ext (radius + 1) _ (fun j => (2 * radius + 1 - j) * feed (x + 1 + j))
                      (fun j => H (j + 1)))
      by (intros; unfold H; f_equal; [lia | f_equal; lia]).
    rewrite (Zsum_shift 0 (radius + 1) 1 G), (Zsum_shift (radius + 1) (2 * radius + 1) 1 H).
    rewrite (Zsum_ext 0 _ (fun j => (j + 1) * feed (x + j)) (fun j => G j + feed (x + j)))
      by (intros; unfold G; lia).
    rewrite (Zsum_ext (radius + 1) _ (fun j => (2 * radius + 1 - j) * feed (x + j))
                      (fun j => H j + -1 * feed (x + j)))
      by (intros; unfold H; lia).
    rewrite !Zsum_add.
    pose proof (Zsum_first 0 (radius + 1 + 1) G ltac:(lia)) as E1.
    pose proof (Zsum_last 0 (radius + 1 + 1) G ltac:(lia)) as E2.
    pose proof (Zsum_first (radius + 1) (2 * radius + 1 + 1) H ltac:(lia)) as E3.
    pose proof (Zsum_last (radius + 1) (2 * radius + 1 + 1) H ltac:(lia)) as E4.
    replace (radius + 1 + 1 - 1) with (radius + 1) in E2 by lia.
    replace (2 * radius + 1 + 1 - 1) with (2 * radius + 1) in E4 by lia.
    replace (0 + 1) with 1 in * by lia.
    assert (G0 : G 0 = 0) by (unfold G; lia).
    assert (G1 : G (radius + 1) = (radius + 1) * feed (x + (radius + 1))) by reflexivity.
    assert (H1 : H (radius + 1) = (radius + 1) * feed (x + (radius + 1)))
      by (unfold H; f_equal; lia).
    assert (H2 : H (2 * radius + 1) = feed (x + 2 * radius + 1))
      by (unfold H; replace (x + (2 * radius + 1)) with (x + 2 * radius + 1) by lia; lia).
    pose proof (Zsum_scale (radius + 1) (2 * radius + 1) (-1) (fun j => feed (x + j))) as N.
    cbv beta in N. lia.
Qed.

Lemma tentw_ext feed' x :
    (forall t, x <= t <= x + 2 * radius -> feed t = feed' t) ->
    tentw radius feed x = tentw radius feed' x.
Proof.
    intros E. unfold tentw. f_equal; apply Zsum_ext; intros; rewrite E by lia; reflexivity.
Qed.

Lemma tentw_const c x :
    (forall t, x <= t <= x + 2 * radius -> feed t = c) ->
    tentw radius feed x = c * (radius + 1) * (radius + 1).
Proof.
    intros E. unfold tentw.
    rewrite (Zsum_ext 0 _ _ (fun j => c * j + c)) by (intros; rewrite E by lia; lia).
    rewrite (Zsum_ext (radius + 1) _ _ (fun j => (- c) * j + c * (2 * radius + 1)))
      by (intros; rewrite E by lia; lia).
    pose proof (Zsum_linear 0 (radius + 1) c c ltac:(lia)).
    pose proof (Zsum_linear (radius + 1) (2 * radius + 1) (- c) (c * (2 * radius + 1)) ltac:(lia)).
    lia.
Qed.

Section Bytes.
Variable x : Z.
Hypothesis Hb : forall t, x <= t <= x + 2 * radius -> 0 <= feed t <= 255.

Lemma outw_bounds : 0 <= outw radius feed x <= 255 * (radius + 1).
Proof.
      unfold outw. split.
      - apply Zsum_nonneg. intros; apply Hb; lia.
      - pose proof (Zsum_le 0 (radius + 1) (fun j => feed (x + j)) (fun _ => 255)
                      ltac:(intros; apply Hb; lia)) as H.
        rewrite Zsum_const in H by lia. lia.
Qed.

Lemma inw_bounds : 0 <= inw radius feed x <= 255 * radius.
Proof.
      unfold inw. split.
      - apply Zsum_nonneg. intros; apply Hb; lia.
      - pose proof (Zsum_le (radius + 1) (2 * radius + 1) (fun j => feed (x + j)) (fun _ => 255)
                      ltac:(intros; apply Hb; lia)) as H.
        rewrite Zsum_const in H by lia. lia.
Qed.

Lemma outw_first : feed x <= outw radius feed x.
Proof.
      unfold outw. rewrite Zsum_first by lia.
      pose proof (Zsum_nonneg (0 + 1) (radius + 1) (fun j => feed (x + j))
                    ltac:(intros; apply Hb; lia)).
      replace (x + 0) with x by lia. lia.
Qed.

Lemma tentw_bounds :
      outw radius feed x <= tentw radius feed x <= 255 * (radius + 1) * (radius + 1).
Proof.
      split.
      - unfold tentw, outw.
        pose proof (Zsum_le 0 (radius + 1) (fun j => feed (x + j))
                      (fun j => (j + 1) * feed (x + j))
                      ltac:(intros i Hi; cbv beta; pose proof (Hb (x + i) ltac:(lia)); nia)).
        pose proof (Zsum_nonneg (radius + 1) (2 * radius + 1)
                      (fun j => (2 * radius + 1 - j) * feed (x + j))
                      ltac:(intros i Hi; cbv beta; pose proof (Hb (x + i) ltac:(lia)); nia)).
        lia.
      - unfold tentw.
        pose proof (Zsum_le 0 (radius + 1) (fun j => (j + 1) * feed (x + j))
                      (fun j => 255 * j + 255)
                      ltac:(intros i Hi; cbv beta; pose proof (Hb (x + i) ltac:(lia)); nia)).
        pose proof (Zsum_le (radius + 1) (2 * radius + 1)
                      (fun j => (2 * radius + 1 - j) * feed (x + j))
                      (fun j => (-255) * j + 255 * (2 * radius + 1))
                      ltac:(intros i Hi; cbv beta; pose proof (Hb (x + i) ltac:(lia)); nia)).
        pose proof (Zsum_linear 0 (radius + 1) 255 255 ltac:(lia)).
        pose proof (Zsum_linear (radius + 1) (2 * radius + 1) (-255) (255 * (2 * radius + 1))
                      ltac:(lia)).
        lia.
Qed.
End Bytes.
End WindowFacts.

(** ** Machine integers, cells and the monad *)

Lemma u32_small z : 0 <= z < 2 ^ 32 -> u32 z = z.
Proof. intros H. unfold u32. now apply Z.mod_small. Qed.

Lemma u8_small z : 0 <= z <= 255 -> u8 z = z.
Proof. intros H. unfold u8. apply Z.mod_small. lia. Qed.

Lemma u8_byte z : 0 <= u8 z <= 255.
Proof. unfold u8. pose proof (Z.mod_pos_bound z (2 ^ 8) ltac:(lia)). lia. Qed.

Lemma wrap_small L z : 32 <= L -> 0 <= z < 2 ^ 32 -> z mod 2 ^ L = z.
Proof.
  intros HL Hz. apply Z.mod_small.
  pose proof (Z.pow_le_mono_r 2 32 L ltac:(lia) HL). lia.
Qed.

Lemma clamp_id z : 0 <= z <= 255 -> clamp z 0 255 = z.
Proof.
  intros H. unfold clamp.
  destruct (Z.ltb_spec z 0); [lia|].
  destruct (Z.gtb_spec z 255); [lia|reflexivity].
Qed.

Lemma clamp_byte z : 0 <= clamp z 0 255 <= 255.
Proof.
  unfold clamp. destruct (Z.ltb_spec z 0); [lia|].
  destruct (Z.gtb_spec z 255); lia.
Qed.

Lemma in_range_true l p : 0 <= p < Z.of_nat (length l) -> in_range l p = true.
Proof. intros H. unfold in_range. apply andb_true_intro. split; lia. Qed.

Lemma in_range_false l p : ~ (0 <= p < Z.of_nat (length l)) -> in_range l p = false.
Proof.
  intros H. unfold in_range.
  destruct (Z.leb_spec 0 p); destruct (Z.ltb_spec p (Z.of_nat (length l))); cbn; try reflexivity.
  lia.
Qed.

Lemma peek_insert_eq (l : list Z) p v :
  0 <= p < Z.of_nat (length l) -> peek (<[Z.to_nat p := v]> l) p = v.
Proof.
  intros H. unfold peek. rewrite nth_lookup, list_lookup_insert_eq by lia. reflexivity.
Qed.

Lemma peek_insert_ne (l : list Z) p q v :
  0 <= p -> 0 <= q -> p <> q -> peek (<[Z.to_nat p := v]> l) q = peek l q.
Proof.
  intros Hp Hq Hne. unfold peek. rewrite !nth_lookup, list_lookup_insert_ne by lia. reflexivity.
Qed.

Lemma is_bytes_peek l p : is_bytes l = true -> 0 <= peek l p <= 255.
Proof.
  intros H. unfold peek.
  destruct (Nat.lt_ge_cases (Z.to_nat p) (length l)) as [Hlt|Hge].
  - unfold is_bytes in H. rewrite forallb_forall in H.
    specialize (H _ (nth_In l 0 Hlt)). apply andb_prop in H. lia.
  - rewrite nth_overflow by lia. lia.
Qed.

Lemma is_bytes_insert l : forall i v,
  is_bytes l = true -> 0 <= v <= 255 -> is_bytes (<[i := v]> l) = true.
Proof.
  induction l as [|a l IH]; intros i v H Hv; [exact H|].
  cbn in H. apply andb_prop in H as [Ha Hl].
  destruct i as [|i]; cbn.
  - rewrite Hl. replace (0 <=? v) with true by lia. replace (v <=? 255) with true by lia.
    reflexivity.
  - rewrite Ha. cbn. now apply IH.
Qed.

Lemma run_ret {A B} (a : A) (k : A -> M B) m : bind (ret a) k m = k a m.
Proof. reflexivity. Qed.

Lemma run_assign {B} L a z (k : Z -> M B) m :
  bind (assign L a z) k m = k (z mod 2 ^ L) (Machine (pix m) (stk m) ((a, z) :: trace m)).
Proof. reflexivity. Qed.

Lemma run_load_src {B} p (k : Z -> M B) m :
  0 <= p < Z.of_nat (length (pix m)) -> bind (load_src p) k m = k (peek (pix m) p) m.
Proof. intros H. unfold bind, load_src. now rewrite in_range_true. Qed.

Lemma run_store_src {B} p v (k : unit -> M B) m :
  0 <= p < Z.of_nat (length (pix m)) ->
  bind (store_src p v) k m = k tt (Machine (<[Z.to_nat p := u8 v]> (pix m)) (stk m) (trace m)).
Proof. intros H. unfold bind, store_src. now rewrite in_range_true. Qed.

Lemma run_load_stack {B} i (k : Z -> M B) m :
  0 <= i < Z.of_nat (length (stk m)) -> bind (load_stack i) k m = k (peek (stk m) i) m.
Proof. intros H. unfold bind, load_stack. now rewrite in_range_true. Qed.

Lemma run_store_stack {B} i v (k : unit -> M B) m :
  0 <= i < Z.of_nat (length (stk m)) ->
  bind (store_stack i v) k m = k tt (Machine (pix m) (<[Z.to_nat i := u8 v]> (stk m)) (trace m)).
Proof. intros H. unfold bind, store_stack. now rewrite in_range_true. Qed.

Lemma run_bind_ok {A B} (c : M A) (k : A -> M B) m a m' :
  c m = Ok a m' -> bind c k m = k a m'.
Proof. intros H. unfold bind. now rewrite H. Qed.

(** An access outside its array is a fault, and changes nothing. *)
Lemma outside_faults p v m :
  (~ (0 <= p < Z.of_nat (length (pix m))) ->
   load_src p m = Fault m /\ store_src p v m = Fault m) /\
  (~ (0 <= p < Z.of_nat (length (stk m))) ->
   load_stack p m = Fault m /\ store_stack p v m = Fault m).
Proof.
  split; intros H; unfold load_src, store_src, load_stack, store_stack;
    rewrite (in_range_false _ _ H); split; reflexivity.
Qed.

(** The loop rule: an invariant kept by every iteration holds at the end,
    and the loop completes. *)
Lemma for_loop_inv {St : Type} (I : Z -> St -> machine -> Prop) (body : Z -> St -> M St) n :
  forall from s m,
    I from s m ->
    (forall i s m, from <= i < from + Z.of_nat n -> I i s m ->
                   exists s' m', body i s m = Ok s' m' /\ I (i + 1) s' m') ->
    exists s' m', for_loop n from body s m = Ok s' m' /\ I (from + Z.of_nat n) s' m'.
Proof.
  induction n as [|n IH]; intros from s m H0 Hstep.
  - exists s, m. split; [reflexivity|]. now replace (from + Z.of_nat 0) with from by lia.
  - destruct (Hstep from s m ltac:(lia) H0) as (s1 & m1 & E1 & I1).
    destruct (IH (from + 1) s1 m1 I1) as (s2 & m2 & E2 & I2).
    { intros i s' m' Hi. apply Hstep. lia. }
    exists s2, m2. split.
    + cbn [for_loop]. now rewrite (run_bind_ok _ _ _ _ _ E1).
    + now replace (from + Z.of_nat (S n)) with (from + 1 + Z.of_nat n) by lia.
Qed.

(** ** The tables *)

Lemma table_ok : forallb table_row_ok (map Z.of_nat (seq 0 255)) = true.
Proof. vm_compute. reflexivity. Qed.

Lemma in_upto k z : 0 <= z < Z.of_nat k -> In z (map Z.of_nat (seq 0 k)).
Proof.
  intros H. apply in_map_iff. exists (Z.to_nat z). split; [lia|].
  apply in_seq. lia.
Qed.

Lemma table_row r : 0 <= r <= 254 -> table_row_ok r = true.
Proof.
  intros H. pose proof table_ok as T. rewrite forallb_forall in T.
  apply T, (in_upto 255). lia.
Qed.

Lemma table_facts r :
  0 <= r <= 254 ->
  0 <= mul_of r /\ 0 <= shr_of r /\
  255 * (r + 1) * (r + 1) * mul_of r < 2 ^ 32 /\
  forall v, 0 <= v <= 255 ->
            Z.shiftr (v * (r + 1) * (r + 1) * mul_of r) (shr_of r) = v.
Proof.
  intros H. pose proof (table_row r H) as T. unfold table_row_ok in T.
  cbv zeta in T. apply andb_prop in T as [T T4]. apply andb_prop in T as [T T3].
  apply andb_prop in T as [T1 T2].
  repeat split; try lia.
  intros v Hv. rewrite forallb_forall in T4.
  specialize (T4 v (in_upto 256 v ltac:(lia))). apply Z.eqb_eq in T4.
  rewrite <- T4 at 2. f_equal. lia.
Qed.

Lemma table_length : length stackblur_mul = 255%nat /\ length stackblur_shr = 255%nat.
Proof. split; reflexivity. Qed.

(** ** Arithmetic used by the line *)

Lemma shiftr_mono a b k : 0 <= k -> a <= b -> Z.shiftr a k <= Z.shiftr b k.
Proof.
  intros Hk Hab. rewrite !Z.shiftr_div_pow2 by lia.
  apply Z.div_le_mono; [|exact Hab]. apply Z.pow_pos_nonneg; lia.
Qed.

Lemma Zsum_prefix_le lo mid hi g :
  lo <= mid <= hi -> (forall i, mid <= i < hi -> 0 <= g i) -> Zsum lo mid g <= Zsum lo hi g.
Proof.
  intros H Hg. rewrite (Zsum_split lo mid hi) by lia.
  pose proof (Zsum_nonneg mid hi g Hg). lia.
Qed.

Lemma tentw_at0 radius feed :
  tentw radius feed 0 =
  Zsum 0 (radius + 1) (fun j => (j + 1) * feed j) +
  Zsum (radius + 1) (2 * radius + 1) (fun j => (2 * radius + 1 - j) * feed j).
Proof. unfold tentw. f_equal; apply Zsum_ext; intros; reflexivity. Qed.

Lemma outw_at0 radius feed : outw radius feed 0 = Zsum 0 (radius + 1) feed.
Proof. unfold outw. apply Zsum_ext; intros; reflexivity. Qed.

Lemma inw_at0 radius feed : inw radius feed 0 = Zsum (radius + 1) (2 * radius + 1) feed.
Proof. unfold inw. apply Zsum_ext; intros; reflexivity. Qed.

Lemma clamp_index_range i n : 1 <= n -> 0 <= clamp_index i n < n.
Proof. unfold clamp_index. lia. Qed.

Lemma clamp_index_id i n : 0 <= i < n -> clamp_index i n = i.
Proof. unfold clamp_index. lia. Qed.

Lemma mod_window x r t :
  0 <= r -> x < t <= x + 2 * r -> t mod (2 * r + 1) <> x mod (2 * r + 1).
Proof.
  intros Hr Ht E.
  assert (D : (t - x) mod (2 * r + 1) = 0).
  { rewrite Zminus_mod, E, Z.sub_diag. apply Z.mod_0_l. lia. }
  rewrite Z.mod_small in D by lia. lia.
Qed.

Lemma mod_wrap_sub x r :
  0 <= r ->
  let q := (x + r) mod (2 * r + 1) in
  (if q + (2 * r + 1) - r >=? 2 * r + 1 then q + (2 * r + 1) - r - (2 * r + 1)
   else q + (2 * r + 1) - r) = x mod (2 * r + 1).
Proof.
  intros Hr q. pose proof (Z.mod_pos_bound (x + r) (2 * r + 1) ltac:(lia)) as B.
  fold q in B.
  destruct (Z.geb_spec (q + (2 * r + 1) - r) (2 * r + 1)).
  - apply (Z.mod_unique _ _ ((x + r) / (2 * r + 1))); [lia|].
    pose proof (Z.div_mod (x + r) (2 * r + 1) ltac:(lia)). fold q in H. lia.
  - apply (Z.mod_unique _ _ ((x + r) / (2 * r + 1) - 1)); [lia|].
    pose proof (Z.div_mod (x + r) (2 * r + 1) ltac:(lia)). fold q in H. lia.
Qed.

Lemma mod_wrap_succ x r :
  0 <= r ->
  let q := (x + r) mod (2 * r + 1) in
  (if q + 1 >=? 2 * r + 1 then 0 else q + 1) = (x + 1 + r) mod (2 * r + 1).
Proof.
  intros Hr q. pose proof (Z.mod_pos_bound (x + r) (2 * r + 1) ltac:(lia)) as B.
  fold q in B.
  pose proof (Z.div_mod (x + r) (2 * r + 1) ltac:(lia)) as E. fold q in E.
  destruct (Z.geb_spec (q + 1) (2 * r + 1)).
  - apply (Z.mod_unique _ _ ((x + r) / (2 * r + 1) + 1)); [lia|]. lia.
  - apply (Z.mod_unique _ _ ((x + r) / (2 * r + 1))); [lia|]. lia.
Qed.

Lemma byte_mul_small a b : 0 <= a <= 255 -> 0 <= b <= 65536 -> 0 <= a * b < 2 ^ 32.
Proof. intros Ha Hb. nia. Qed.

Lemma area_small r : 0 <= r <= 254 -> 0 <= 255 * (r + 1) * (r + 1) < 2 ^ 32.
Proof. intros H. nia. Qed.

Lemma mul_le_area t r m :
  0 <= m -> t <= 255 * (r + 1) * (r + 1) -> t * m <= 255 * (r + 1) * (r + 1) * m.
Proof. intros Hm Ht. apply Z.mul_le_mono_nonneg_r; assumption. Qed.

Lemma offset_fit base stride n j len :
  0 <= base -> 1 <= stride -> 0 <= j < n -> base + (n - 1) * stride < len ->
  0 <= base + j * stride < len.
Proof.
  intros Hb Hs Hj Hf.
  assert (j * stride <= (n - 1) * stride) by (apply Z.mul_le_mono_nonneg_r; lia).
  assert (0 <= j * stride) by (apply Z.mul_nonneg_nonneg; lia).
  lia.
Qed.

Lemma offset_inj base stride a b :
  1 <= stride -> base + a * stride = base + b * stride -> a = b.
Proof.
  intros Hs E. assert (E' : (a - b) * stride = 0) by lia.
  apply Z.mul_eq_0 in E'. lia.
Qed.

Lemma mod_period x d : 0 < d -> (x + d) mod d = x mod d.
Proof.
  intros Hd. replace (x + d) with (x + 1 * d) by lia. apply Z_mod_plus_full.
Qed.

(** ** One line: the three loops *)

Ltac side := cbn [pix stk trace]; rewrite ?length_insert; lia.

(** One statement of the code under execution, at the head of a goal
    [exists s m, (c ;; k) m0 = Ok s m /\ _]. *)
Ltac run1 :=
  lazymatch goal with
  | |- ex (fun _ => ex (fun _ => bind (assign ?L ?a ?z) ?k ?m = _ /\ _)) =>
      rewrite (run_assign L a z k m)
  | |- ex (fun _ => ex (fun _ => bind (load_src ?p) ?k ?m = _ /\ _)) =>
      rewrite (run_load_src p k m) by side
  | |- ex (fun _ => ex (fun _ => bind (store_src ?p ?v) ?k ?m = _ /\ _)) =>
      rewrite (run_store_src p v k m) by side
  | |- ex (fun _ => ex (fun _ => bind (load_stack ?p) ?k ?m = _ /\ _)) =>
      rewrite (run_load_stack p k m) by side
  | |- ex (fun _ => ex (fun _ => bind (store_stack ?p ?v) ?k ?m = _ /\ _)) =>
      rewrite (run_store_stack p v k m) by side
  end; cbn [pix stk trace].

Ltac run := repeat run1.

Section LineTheory.
Variable L : Z.
Hypothesis HL : 32 <= L.
Variables radius mul_sum shr_sum : Z.
Hypothesis Hradius : 0 <= radius <= 254.
Hypothesis Hmul : 0 <= mul_sum.
Hypothesis Hshr : 0 <= shr_sum.
Hypothesis Hprod : 255 * (radius + 1) * (radius + 1) * mul_sum < 2 ^ 32.
Hypothesis Hscale : Z.shiftr (255 * (radius + 1) * (radius + 1) * mul_sum) shr_sum <= 255.
Variables n stride base : Z.
Hypothesis Hn : 1 <= n < 2 ^ 32.
Hypothesis Hstride : 1 <= stride.
Hypothesis Hbase : 0 <= base.
Variable pix_ptr : Z -> Z.
Hypothesis Hptr : forall j, 0 <= j < n -> pix_ptr j = base + j * stride.
Variable m0 : machine.
Hypothesis Hfit : base + (n - 1) * stride < Z.of_nat (length (pix m0)).
Hypothesis Hbytes0 : is_bytes (pix m0) = true.
Hypothesis Hstk0 : Z.of_nat (length (stk m0)) = 2 * radius + 1.
Hypothesis Htrace0 : Forall (ev_ok radius mul_sum) (trace m0).

Local Abbreviation fdL := (fd radius mul_sum shr_sum n stride base m0).
Local Abbreviation lineL := (line0 stride base m0).
Local Abbreviation outL := (out0 radius mul_sum shr_sum n stride base m0).
Local Abbreviation frameL := (frame radius mul_sum n stride base m0).

Lemma line0_byte j : 0 <= lineL j <= 255.
Proof. apply is_bytes_peek, Hbytes0. Qed.

Lemma out0_byte x : 0 <= outL x <= 255.
Proof. apply clamp_byte. Qed.

Lemma fd_byte t : 0 <= fdL t <= 255.
Proof.
  unfold fd, feed. destruct (t <? n + 2 * radius).
  - apply line0_byte.
  - apply clamp_byte.
Qed.

Lemma fd_line t :
  t < n + 2 * radius -> fdL t = lineL (clamp_index (t - radius) n).
Proof.
  intros H. unfold fd, feed. destruct (Z.ltb_spec t (n + 2 * radius)); [|lia].
  reflexivity.
Qed.

Lemma fd_last : fdL (n + 2 * radius) = outL (n - 1).
Proof.
  unfold fd, feed.
  destruct (Z.ltb_spec (n + 2 * radius) (n + 2 * radius)); [lia|]. reflexivity.
Qed.

Lemma tentw_fd x :
  x < n -> tentw radius fdL x = tentw radius (feed0 radius n lineL) x.
Proof.
  intros H. apply tentw_ext. intros t Ht. rewrite fd_line by lia. reflexivity.
Qed.

Lemma tentw_fd_bounds x :
  0 <= tentw radius fdL x <= 255 * (radius + 1) * (radius + 1).
Proof.
  pose proof (tentw_bounds radius ltac:(lia) fdL x ltac:(intros; apply fd_byte)).
  pose proof (outw_bounds radius ltac:(lia) fdL x ltac:(intros; apply fd_byte)).
  lia.
Qed.

(** No emission is cut by the clamp: the scaled value is a byte already. *)
Lemma scaled_byte x :
  0 <= Z.shiftr (tentw radius fdL x * mul_sum) shr_sum <= 255.
Proof.
  pose proof (tentw_fd_bounds x) as B. split.
  - apply Z.shiftr_nonneg. apply Z.mul_nonneg_nonneg; lia.
  - etransitivity; [|exact Hscale]. apply shiftr_mono; [lia|]. apply mul_le_area; lia.
Qed.

Lemma out0_scaled x :
  x < n -> outL x = Z.shiftr (tentw radius fdL x * mul_sum) shr_sum.
Proof.
  intros H. unfold out0, emit. rewrite <- tentw_fd by lia.
  apply clamp_id, scaled_byte.
Qed.

Lemma frame0 : frameL m0.
Proof. constructor; auto. Qed.

Lemma edge_sum_bound k :
  0 <= k <= radius + 1 ->
  0 <= Zsum 0 k (fun j => (j + 1) * fdL j) <= 255 * (radius + 1) * (radius + 1).
Proof.
  intros Hk. split.
  - apply Zsum_nonneg. intros j Hj. pose proof (fd_byte j).
    apply Z.mul_nonneg_nonneg; lia.
  - pose proof (tentw_fd_bounds 0) as B. rewrite tentw_at0 in B.
    pose proof (Zsum_prefix_le 0 k (radius + 1) (fun j => (j + 1) * fdL j) ltac:(lia)
                  ltac:(intros j Hj; cbv beta; pose proof (fd_byte j);
                        apply Z.mul_nonneg_nonneg; lia)).
    pose proof (Zsum_nonneg (radius + 1) (2 * radius + 1)
                  (fun j => (2 * radius + 1 - j) * fdL j)
                  ltac:(intros j Hj; cbv beta; pose proof (fd_byte j);
                        apply Z.mul_nonneg_nonneg; lia)).
    lia.
Qed.

Lemma edge_out_bound k :
  0 <= k <= radius + 1 -> 0 <= Zsum 0 k fdL <= 255 * (radius + 1).
Proof.
  intros Hk. split.
  - apply Zsum_nonneg. intros j Hj. apply fd_byte.
  - pose proof (outw_bounds radius ltac:(lia) fdL 0 ltac:(intros; apply fd_byte)) as B.
    rewrite outw_at0 in B.
    pose proof (Zsum_prefix_le 0 k (radius + 1) fdL ltac:(lia)
                  ltac:(intros j Hj; apply fd_byte)).
    lia.
Qed.

Lemma ahead_sum_bound k :
  radius + 1 <= k <= 2 * radius + 1 ->
  0 <= Zsum 0 (radius + 1) (fun j => (j + 1) * fdL j) +
       Zsum (radius + 1) k (fun j => (2 * radius + 1 - j) * fdL j)
    <= 255 * (radius + 1) * (radius + 1).
Proof.
  intros Hk. split.
  - pose proof (edge_sum_bound (radius + 1) ltac:(lia)).
    pose proof (Zsum_nonneg (radius + 1) k (fun j => (2 * radius + 1 - j) * fdL j)
                  ltac:(intros j Hj; cbv beta; pose proof (fd_byte j);
                        apply Z.mul_nonneg_nonneg; lia)).
    lia.
  - pose proof (tentw_fd_bounds 0) as B. rewrite tentw_at0 in B.
    pose proof (Zsum_prefix_le (radius + 1) k (2 * radius + 1)
                  (fun j => (2 * radius + 1 - j) * fdL j) ltac:(lia)
                  ltac:(intros j Hj; cbv beta; pose proof (fd_byte j);
                        apply Z.mul_nonneg_nonneg; lia)).
    lia.
Qed.

Lemma ahead_in_bound k :
  radius + 1 <= k <= 2 * radius + 1 ->
  0 <= Zsum (radius + 1) k fdL <= 255 * (radius + 1).
Proof.
  intros Hk. split.
  - apply Zsum_nonneg. intros j Hj. apply fd_byte.
  - pose proof (inw_bounds radius ltac:(lia) fdL 0 ltac:(intros; apply fd_byte)) as B.
    rewrite inw_at0 in B.
    pose proof (Zsum_prefix_le (radius + 1) k (2 * radius + 1) fdL ltac:(lia)
                  ltac:(intros j Hj; apply fd_byte)).
    lia.
Qed.

(** *** First fill loop: the edge sample, [radius+1] times *)

Lemma edge_step i s m :
  0 <= i < radius + 1 -> edge_inv radius mul_sum shr_sum n stride base m0 i s m ->
  exists s' m', fill_edge L base i s m = Ok s' m' /\
                edge_inv radius mul_sum shr_sum n stride base m0 (i + 1) s' m'.
Proof.
  intros Hi [F P S1 S2 S3]. destruct s as [s so]. cbn [fst snd] in *.
  destruct F as [F1 F2 F3 F4 F5].
  assert (Hv : peek (pix m) base = fdL i).
  { rewrite fd_line by lia. unfold line0, clamp_index. rewrite P. f_equal. lia. }
  unfold fill_edge.
  pose proof (offset_fit base stride n 0 _ Hbase Hstride ltac:(lia) Hfit) as Hb0.
  rewrite Z.mul_0_l, Z.add_0_r, <- P in Hb0.
  run.
  rewrite Hv.
  eexists. eexists. split; [reflexivity|].
  pose proof (fd_byte i) as Bi.
  assert (E1 : s + u32 (fdL i * u32 (i + 1)) = Zsum 0 (i + 1) (fun j => (j + 1) * fdL j)).
  { rewrite (Zsum_last 0 (i + 1)) by lia. replace (i + 1 - 1) with i by lia.
    rewrite (u32_small (i + 1)) by lia.
    rewrite u32_small by (apply byte_mul_small; lia). lia. }
  assert (E2 : so + fdL i = Zsum 0 (i + 1) fdL).
  { rewrite (Zsum_last 0 (i + 1)) by lia. replace (i + 1 - 1) with i by lia. lia. }
  rewrite E1, E2.
  pose proof (edge_sum_bound (i + 1) ltac:(lia)) as B1.
  pose proof (edge_out_bound (i + 1) ltac:(lia)) as B2.
  constructor; cbn [fst snd pix stk trace].
  - constructor; cbn [pix stk trace]; [exact F1|exact F2|exact F3| |].
    + rewrite length_insert. exact F4.
    + constructor; [exact B2|]. constructor; [exact B1|exact F5].
  - exact P.
  - intros t Ht. destruct (Z.eq_dec t i) as [->|Hne].
    + rewrite peek_insert_eq by lia. now apply u8_small.
    + rewrite peek_insert_ne by lia. apply S1. lia.
  - apply wrap_small; [exact HL|]. pose proof (area_small radius Hradius). lia.
  - apply wrap_small; [exact HL|]. lia.
Qed.

(** *** Second fill loop: the [radius] samples ahead, clamped at the end *)

Lemma ahead_step i s m :
  1 <= i < radius + 1 -> ahead_inv radius mul_sum shr_sum n stride base m0 i s m ->
  exists s' m', fill_ahead L radius (n - 1) stride i s m = Ok s' m' /\
                ahead_inv radius mul_sum shr_sum n stride base m0 (i + 1) s' m'.
Proof.
  intros Hi [F P S1 S2 S3 S4]. destruct s as [[s si] src]. cbn [fst snd] in *.
  destruct F as [F1 F2 F3 F4 F5].
  unfold fill_ahead.
  assert (Hsrc : (if i <=? n - 1 then src + stride else src) =
                 base + Z.min i (n - 1) * stride).
  { subst src. destruct (Z.leb_spec i (n - 1)).
    - rewrite !Z.min_l by lia. lia.
    - rewrite !Z.min_r by lia. reflexivity. }
  rewrite Hsrc.
  assert (Hv : peek (pix m) (base + Z.min i (n - 1) * stride) = fdL (radius + i)).
  { rewrite fd_line by lia. unfold line0, clamp_index. rewrite P. do 3 f_equal. lia. }
  pose proof (offset_fit base stride n (Z.min i (n - 1)) _ Hbase Hstride ltac:(lia) Hfit) as Hb0.
  rewrite <- P in Hb0.
  rewrite (u32_small (i + radius)) by lia.
  run.
  rewrite Hv.
  eexists. eexists. split; [reflexivity|].
  pose proof (fd_byte (radius + i)) as Bi.
  assert (E1 : s + u32 (fdL (radius + i) * u32 (u32 (radius + 1) - i)) =
               Zsum 0 (radius + 1) (fun j => (j + 1) * fdL j) +
               Zsum (radius + 1) (radius + (i + 1))
                    (fun j => (2 * radius + 1 - j) * fdL j)).
  { rewrite (Zsum_last (radius + 1) (radius + (i + 1))) by lia.
    replace (radius + (i + 1) - 1) with (radius + i) by lia.
    rewrite (u32_small (radius + 1)) by lia.
    rewrite (u32_small (radius + 1 - i)) by lia.
    rewrite u32_small by (apply byte_mul_small; lia). lia. }
  assert (E2 : si + fdL (radius + i) = Zsum (radius + 1) (radius + (i + 1)) fdL).
  { rewrite (Zsum_last (radius + 1) (radius + (i + 1))) by lia.
    replace (radius + (i + 1) - 1) with (radius + i) by lia. lia. }
  rewrite E1, E2.
  pose proof (ahead_sum_bound (radius + (i + 1)) ltac:(lia)) as B1.
  pose proof (ahead_in_bound (radius + (i + 1)) ltac:(lia)) as B2.
  constructor; cbn [fst snd pix stk trace].
  - constructor; cbn [pix stk trace]; [exact F1|exact F2|exact F3| |].
    + rewrite length_insert. exact F4.
    + constructor; [exact B2|]. constructor; [exact B1|exact F5].
  - exact P.
  - intros t Ht. destruct (Z.eq_dec t (i + radius)) as [->|Hne].
    + rewrite peek_insert_eq by lia. rewrite u8_small by lia. f_equal. lia.
    + rewrite peek_insert_ne by lia. apply S1. lia.
  - apply wrap_small; [exact HL|]. pose proof (area_small radius Hradius). lia.
  - apply wrap_small; [exact HL|]. lia.
  - f_equal. f_equal. lia.
Qed.

(** *** Main loop: emit, then slide the window one place *)

Lemma slide_step x r m :
  0 <= x < n -> slide_inv radius mul_sum shr_sum n stride base m0 x r m ->
  exists r' m',
    slide L radius (2 * radius + 1) mul_sum shr_sum (n - 1) stride x r m = Ok r' m' /\
    slide_inv radius mul_sum shr_sum n stride base m0 (x + 1) r' m'.
Proof.
  intros Hx [F Dn Td Sk Ssum Sin Sout Ssp Sxp Ssrc Sdst].
  destruct r as [s si so sp0 xp0 src dst].
  cbn [sum sum_in sum_out sp xp src_ptr dst_ptr] in Ssum, Sin, Sout, Ssp, Sxp, Ssrc, Sdst.
  destruct F as [F1 F2 F3 F4 F5].
  assert (Hr : 0 <= radius) by lia.
  subst s si so sp0 dst src xp0.
  pose proof (tentw_fd_bounds x) as Bt.
  pose proof (tentw_fd_bounds (x + 1)) as Bt1.
  pose proof (tentw_bounds radius Hr fdL x ltac:(intros; apply fd_byte)) as Bto.
  pose proof (outw_bounds radius Hr fdL x ltac:(intros; apply fd_byte)) as Bo.
  pose proof (outw_bounds radius Hr fdL (x + 1) ltac:(intros; apply fd_byte)) as Bo1.
  pose proof (inw_bounds radius Hr fdL x ltac:(intros; apply fd_byte)) as Bi.
  pose proof (inw_bounds radius Hr fdL (x + 1) ltac:(intros; apply fd_byte)) as Bi1.
  pose proof (outw_first radius Hr fdL x ltac:(intros; apply fd_byte)) as Bf.
  pose proof (fd_byte x) as Bx.
  pose proof (fd_byte (x + 2 * radius + 1)) as Bn.
  pose proof (fd_byte (x + radius + 1)) as Bc.
  pose proof (area_small radius Hradius) as Ba.
  pose proof (tentw_step radius Hr fdL x) as Et.
  pose proof (outw_step radius Hr fdL x) as Eo.
  pose proof (inw_step radius Hr fdL x) as Ei.
  pose proof (Z.mod_pos_bound (x + radius) (2 * radius + 1) ltac:(lia)) as Hq.
  pose proof (Z.mod_pos_bound x (2 * radius + 1) ltac:(lia)) as Hq0.
  pose proof (Z.mod_pos_bound (x + 1 + radius) (2 * radius + 1) ltac:(lia)) as Hq1.
  unfold slide. cbn [sum sum_in sum_out sp xp src_ptr dst_ptr]. cbv zeta.
  (* where the pointers and indices go *)
  assert (Hss : (if u32 (u32 ((x + radius) mod (2 * radius + 1) + (2 * radius + 1)) - radius)
                      >=? 2 * radius + 1
                 then u32 (u32 (u32 ((x + radius) mod (2 * radius + 1) + (2 * radius + 1))
                                - radius) - (2 * radius + 1))
                 else u32 (u32 ((x + radius) mod (2 * radius + 1) + (2 * radius + 1)) - radius))
                = x mod (2 * radius + 1)).
  { rewrite <- (mod_wrap_sub x radius Hr). cbv zeta.
    rewrite (u32_small ((x + radius) mod (2 * radius + 1) + (2 * radius + 1))) by lia.
    rewrite (u32_small ((x + radius) mod (2 * radius + 1) + (2 * radius + 1) - radius)) by lia.
    destruct (Z.geb_spec ((x + radius) mod (2 * radius + 1) + (2 * radius + 1) - radius)
                         (2 * radius + 1)); [|reflexivity].
    apply u32_small. lia. }
  assert (Hsp : (if u32 ((x + radius) mod (2 * radius + 1) + 1) >=? 2 * radius + 1
                 then 0 else u32 ((x + radius) mod (2 * radius + 1) + 1))
                = (x + 1 + radius) mod (2 * radius + 1)).
  { rewrite <- (mod_wrap_succ x radius Hr). cbv zeta.
    rewrite (u32_small ((x + radius) mod (2 * radius + 1) + 1)) by lia. reflexivity. }
  assert (Hxp : (if Z.min (x + radius) (n - 1) <? n - 1
                 then u32 (Z.min (x + radius) (n - 1) + 1)
                 else Z.min (x + radius) (n - 1))
                = Z.min (x + 1 + radius) (n - 1)).
  { destruct (Z.ltb_spec (Z.min (x + radius) (n - 1)) (n - 1)).
    - rewrite u32_small by lia. lia.
    - lia. }
  assert (Hsrc : (if Z.min (x + radius) (n - 1) <? n - 1
                  then base + Z.min (x + radius) (n - 1) * stride + stride
                  else base + Z.min (x + radius) (n - 1) * stride)
                 = base + Z.min (x + 1 + radius) (n - 1) * stride).
  { destruct (Z.ltb_spec (Z.min (x + radius) (n - 1)) (n - 1)).
    - replace (Z.min (x + 1 + radius) (n - 1)) with (Z.min (x + radius) (n - 1) + 1) by lia.
      lia.
    - replace (Z.min (x + 1 + radius) (n - 1)) with (Z.min (x + radius) (n - 1)) by lia.
      reflexivity. }
  rewrite Hss, Hsp, Hxp, Hsrc.
  (* every access is inside its array *)
  pose proof (offset_fit base stride n x _ Hbase Hstride ltac:(lia) Hfit) as Hdst.
  pose proof (offset_fit base stride n (Z.min (x + 1 + radius) (n - 1)) _ Hbase Hstride
                ltac:(lia) Hfit) as Hnew.
  rewrite <- F1 in Hdst, Hnew.
  run.
  (* the values read and written *)
  set (D := 2 * radius + 1) in *.
  set (vn := fdL (x + 2 * radius + 1)) in *.
  rewrite (wrap_small L (tentw radius fdL x * mul_sum) HL)
    by (split; [apply Z.mul_nonneg_nonneg; lia|];
        pose proof (mul_le_area (tentw radius fdL x) radius mul_sum Hmul ltac:(lia)); lia).
  replace (u8 (clamp (Z.shiftr (tentw radius fdL x * mul_sum) shr_sum) 0 255))
    with (outL x)
    by (rewrite (out0_scaled x) by lia; pose proof (scaled_byte x);
        rewrite clamp_id by lia; symmetry; apply u8_small; lia).
  rewrite (Sk x) by lia.
  assert (Enew : peek (<[Z.to_nat (base + x * stride) := outL x]> (pix m))
                      (base + Z.min (x + 1 + radius) (n - 1) * stride) = vn).
  { unfold vn. destruct (Z.eq_dec x (n - 1)) as [E|E].
    - replace (Z.min (x + 1 + radius) (n - 1)) with x by lia.
      rewrite peek_insert_eq by lia.
      replace (x + 2 * radius + 1) with (n + 2 * radius) by lia.
      rewrite fd_last. f_equal. lia.
    - rewrite peek_insert_ne; [|lia|lia|].
      + rewrite Td by lia. rewrite fd_line by lia. f_equal. unfold clamp_index. lia.
      + intros C. apply offset_inj in C; lia. }
  rewrite Enew.
  rewrite (u8_small vn) by (unfold vn; lia).
  assert (Sk' : forall t, x + 1 <= t <= x + 1 + 2 * radius ->
                          peek (<[Z.to_nat (x mod D) := vn]> (stk m)) (t mod D) = fdL t).
  { intros t Ht. destruct (Z.eq_dec t (x + D)) as [->|Hne].
    - rewrite mod_period by (unfold D; lia). rewrite peek_insert_eq by lia.
      unfold vn, D. f_equal. lia.
    - rewrite peek_insert_ne; [|lia| |].
      + apply Sk. unfold D in Hne. lia.
      + pose proof (Z.mod_pos_bound t D ltac:(unfold D; lia)). lia.
      + intros C. symmetry in C. revert C. apply mod_window; unfold D in Hne; lia. }
  rewrite (Sk' (x + 1 + radius)) by lia.
  replace (x + 1 + radius) with (x + radius + 1) by lia.
  set (vc := fdL (x + radius + 1)) in *.
  rewrite (wrap_small L (tentw radius fdL x - outw radius fdL x) HL) by lia.
  rewrite (wrap_small L (outw radius fdL x - fdL x) HL) by lia.
  rewrite (wrap_small L (inw radius fdL x + vn) HL) by lia.
  rewrite (wrap_small L _ HL) by lia.
  rewrite (wrap_small L (outw radius fdL x - fdL x + vc) HL) by lia.
  rewrite (wrap_small L (inw radius fdL x + vn - vc) HL) by lia.
  eexists. eexists. split; [reflexivity|].
  constructor; cbn [sum sum_in sum_out sp xp src_ptr dst_ptr pix stk trace].
  - constructor; cbn [pix stk trace].
    + rewrite length_insert. exact F1.
    + apply is_bytes_insert; [exact F2|apply out0_byte].
    + intros q Hq0' Hoff. rewrite peek_insert_ne; [|lia|lia|].
      * now apply F3.
      * intros C. apply (Hoff x); [lia|]. now symmetry.
    + rewrite length_insert. exact F4.
    + assert (Bp : ev_ok radius mul_sum (AProd, tentw radius fdL x * mul_sum)).
      { split; [apply Z.mul_nonneg_nonneg; lia|]. apply mul_le_area; lia. }
      do 6 (constructor; [cbn [ev_ok]; lia|]). constructor; [exact Bp|exact F5].
  - intros j Hj. destruct (Z.eq_dec j x) as [->|Hne].
    + now rewrite peek_insert_eq by lia.
    + rewrite peek_insert_ne; [|lia| |].
      * apply Dn. lia.
      * pose proof (offset_fit base stride n j _ Hbase Hstride ltac:(lia) Hfit). lia.
      * intros C. apply offset_inj in C; lia.
  - intros j Hj. rewrite peek_insert_ne; [|lia| |].
    + apply Td. lia.
    + pose proof (offset_fit base stride n j _ Hbase Hstride ltac:(lia) Hfit). lia.
    + intros C. apply offset_inj in C; lia.
  - exact Sk'.
  - unfold vn. lia.
  - unfold vn, vc. lia.
  - unfold vc. lia.
  - f_equal. lia.
  - f_equal. lia.
  - reflexivity.
  - lia.
Qed.

(** *** The whole line *)

Lemma blur_line_spec :
  exists m',
    blur_line L radius (2 * radius + 1) mul_sum shr_sum n (n - 1) stride base pix_ptr m0
    = Ok tt m' /\
    line_post radius mul_sum shr_sum n stride base m0 m'.
Proof.
  assert (Hr : 0 <= radius) by lia.
  pose proof (area_small radius Hradius) as Ba.
  assert (Z0 : 0 mod 2 ^ L = 0) by (apply Z.mod_0_l, Z.pow_nonzero; lia).
  unfold blur_line. rewrite !run_assign. cbn [pix stk trace]. rewrite Z0.
  set (m1 := Machine (pix m0) (stk m0) _).
  (* first fill loop *)
  destruct (for_loop_inv (edge_inv radius mul_sum shr_sum n stride base m0)
              (fill_edge L base) (Z.to_nat (radius + 1)) 0 (0, 0) m1)
    as (a & ma & Ea & Ia).
  { subst m1. constructor; cbn [fst snd pix stk trace].
    - constructor; cbn [pix stk trace];
        [reflexivity|exact Hbytes0|intros; reflexivity|exact Hstk0|].
      do 3 (constructor; [cbn [ev_ok]; lia|]). exact Htrace0.
    - reflexivity.
    - intros t Ht. lia.
    - now rewrite Zsum_empty.
    - now rewrite Zsum_empty. }
  { intros i s m Hi. apply edge_step. lia. }
  rewrite (run_bind_ok _ _ _ _ _ Ea).
  rewrite Z.add_0_l, Z2Nat.id in Ia by lia.
  destruct Ia as [Fa Pa Ska Suma Outa].
  (* second fill loop *)
  destruct (for_loop_inv (ahead_inv radius mul_sum shr_sum n stride base m0)
              (fill_ahead L radius (n - 1) stride) (Z.to_nat radius) 1 (fst a, 0, base) ma)
    as (b & mb & Eb & Ib).
  { constructor; cbn [fst snd]; [exact Fa|exact Pa| | | |].
    - intros t Ht. apply Ska. lia.
    - rewrite (Zsum_empty (radius + 1)) by lia. rewrite Suma. lia.
    - now rewrite Zsum_empty by lia.
    - replace (Z.min (1 - 1) (n - 1)) with 0 by lia. lia. }
  { intros i s m Hi. apply ahead_step. lia. }
  rewrite (run_bind_ok _ _ _ _ _ Eb).
  rewrite Z2Nat.id in Ib by lia.
  destruct Ib as [Fb Pb Skb Sumb Inb Srcb].
  (* main loop *)
  cbv zeta.
  destruct (for_loop_inv (slide_inv radius mul_sum shr_sum n stride base m0)
              (slide L radius (2 * radius + 1) mul_sum shr_sum (n - 1) stride)
              (Z.to_nat n) 0
              (Regs (fst (fst b)) (snd (fst b)) (snd a) radius
                    (if radius >? n - 1 then n - 1 else radius)
                    (pix_ptr (if radius >? n - 1 then n - 1 else radius)) base) mb)
    as (r & mr & Er & Ir).
  { assert (Hxp : (if radius >? n - 1 then n - 1 else radius) = Z.min (0 + radius) (n - 1)).
    { destruct (Z.gtb_spec radius (n - 1)); lia. }
    constructor; cbn [sum sum_in sum_out sp xp src_ptr dst_ptr].
    - exact Fb.
    - intros j Hj. lia.
    - intros j Hj. now rewrite Pb.
    - intros t Ht. rewrite Z.mod_small by lia. apply Skb. lia.
    - rewrite Sumb, tentw_at0. do 2 f_equal. lia.
    - rewrite Inb, inw_at0. f_equal. lia.
    - rewrite Outa, outw_at0. reflexivity.
    - rewrite Z.add_0_l, Z.mod_small by lia. reflexivity.
    - exact Hxp.
    - rewrite Hptr by lia. reflexivity.
    - lia. }
  { intros x r m Hx. apply slide_step. lia. }
  rewrite (run_bind_ok _ _ _ _ _ Er).
  rewrite Z.add_0_l, Z2Nat.id in Ir by lia.
  exists mr. split; [reflexivity|].
  destruct Ir as [Fr Dn _ _ _ _ _ _ _ _ _].
  constructor; [exact Fr|exact Dn].
Qed.
End LineTheory.

(** ** A pass: every line in turn *)

Lemma emit_ext radius mul_sum shr_sum n line line' x :
  1 <= n -> (forall j, 0 <= j < n -> line j = line' j) ->
  emit radius mul_sum shr_sum n line x = emit radius mul_sum shr_sum n line' x.
Proof.
  intros Hn E. unfold emit. do 3 f_equal. unfold tentw.
  f_equal; apply Zsum_ext; intros i Hi; unfold feed0;
    rewrite E by (apply clamp_index_range; lia); reflexivity.
Qed.

Section PassTheory.
Variable L : Z.
Hypothesis HL : 32 <= L.
Variables radius mul_sum shr_sum : Z.
Hypothesis Hradius : 0 <= radius <= 254.
Hypothesis Hmul : 0 <= mul_sum.
Hypothesis Hshr : 0 <= shr_sum.
Hypothesis Hprod : 255 * (radius + 1) * (radius + 1) * mul_sum < 2 ^ 32.
Hypothesis Hscale : Z.shiftr (255 * (radius + 1) * (radius + 1) * mul_sum) shr_sum <= 255.
Variables n lines stride lstride : Z.
Hypothesis Hn : 1 <= n < 2 ^ 32.
Hypothesis Hstride : 1 <= stride.
Hypothesis Hlstride : 0 <= lstride.
Variable basef : Z -> Z.
Variable ptrf : Z -> Z -> Z.
Hypothesis Hbasef : forall l, 0 <= l < lines -> basef l = l * lstride.
Hypothesis Hptrf : forall l j, 0 <= l < lines -> 0 <= j < n ->
                               ptrf l j = cell stride lstride l j.
Hypothesis Hinj : forall l j l' j', 0 <= l < lines -> 0 <= l' < lines ->
                                    0 <= j < n -> 0 <= j' < n ->
                                    cell stride lstride l j = cell stride lstride l' j' -> l = l'.
Variable M0 : machine.
Hypothesis Hfit : forall l, 0 <= l < lines ->
                            l * lstride + (n - 1) * stride < Z.of_nat (length (pix M0)).

Local Abbreviation pinv := (pass_inv radius mul_sum shr_sum n lines stride lstride M0).

Lemma cell_nonneg l j : 0 <= l -> 0 <= j -> 0 <= cell stride lstride l j.
Proof.
  intros Hl Hj. unfold cell.
  pose proof (Z.mul_nonneg_nonneg l lstride Hl Hlstride).
  pose proof (Z.mul_nonneg_nonneg j stride Hj ltac:(lia)). lia.
Qed.

Lemma pass_step l m :
  0 <= l < lines -> pinv l m ->
  exists m',
    blur_line L radius (2 * radius + 1) mul_sum shr_sum n (n - 1) stride (basef l) (ptrf l) m
    = Ok tt m' /\ pinv (l + 1) m'.
Proof.
  intros Hl [P1 P2 P3 P4 P5 P6].
  assert (Hb : 0 <= l * lstride) by (apply Z.mul_nonneg_nonneg; lia).
  destruct (blur_line_spec L HL radius mul_sum shr_sum Hradius Hmul Hshr Hprod Hscale
              n stride (basef l) Hn Hstride ltac:(rewrite Hbasef by lia; exact Hb)
              (ptrf l)
              ltac:(intros j Hj; rewrite Hptrf, Hbasef by lia; reflexivity)
              m
              ltac:(rewrite Hbasef, P1 by lia; now apply Hfit)
              P2 P3 P4)
    as (m' & E & [[F1 F2 F3 F4 F5] Dn]).
  exists m'. split; [exact E|].
  rewrite Hbasef in * by lia.
  assert (Hoff : forall l' j j', 0 <= l' < lines -> l' <> l -> 0 <= j < n -> 0 <= j' < n ->
                   cell stride lstride l' j <> l * lstride + j' * stride).
  { intros l' j j' Hl' Hne Hj Hj' C. apply Hne. exact (Hinj l' j l j' Hl' Hl Hj Hj' C). }
  constructor.
  - now rewrite F1.
  - exact F2.
  - exact F4.
  - exact F5.
  - intros l' j Hl' Hj. destruct (Z.eq_dec l' l) as [->|Hne].
    + unfold cell. rewrite Dn by lia. unfold out0.
      apply emit_ext; [lia|]. intros i Hi. unfold line0, pass_line.
      now rewrite <- (P6 l i) by lia.
    + rewrite F3.
      * apply P5; lia.
      * apply cell_nonneg; lia.
      * intros j' Hj'. apply Hoff; lia.
  - intros l' j Hl' Hj. rewrite F3.
    + apply P6; lia.
    + apply cell_nonneg; lia.
    + intros j' Hj'. apply Hoff; lia.
Qed.

Lemma pass_spec m :
  0 <= lines -> pinv 0 m ->
  exists m',
    for_loop (Z.to_nat lines) 0
      (fun l _ => blur_line L radius (2 * radius + 1) mul_sum shr_sum n (n - 1) stride
                            (basef l) (ptrf l)) tt m
    = Ok tt m' /\ pinv lines m'.
Proof.
  intros Hlines I0.
  destruct (for_loop_inv (fun l (_ : unit) m => pinv l m)
              (fun l _ => blur_line L radius (2 * radius + 1) mul_sum shr_sum n (n - 1) stride
                                    (basef l) (ptrf l))
              (Z.to_nat lines) 0 tt m I0) as ([] & m' & E & I).
  { intros i [] mi Hi Ii. destruct (pass_step i mi ltac:(lia) Ii) as (m2 & E2 & I2).
    exists tt, m2. split; assumption. }
  rewrite Z.add_0_l, Z2Nat.id in I by lia.
  exists m'. split; assumption.
Qed.
End PassTheory.

(** ** The two passes of [stackblur] *)

Lemma run_table_read {B} t i (k : Z -> M B) m :
  0 <= i < Z.of_nat (length t) -> bind (table_read t i) k m = k (peek t i) m.
Proof. intros H. unfold bind, table_read. now rewrite in_range_true. Qed.

Lemma run_alloc_stack {B} d (k : unit -> M B) m :
  bind (alloc_stack d) k m = k tt (Machine (pix m) (resize (Z.to_nat d) 0 (stk m)) (trace m)).
Proof. reflexivity. Qed.

Lemma rowmajor_lt w l l' j j' :
  0 <= j -> 0 <= j' < w -> l * w + j = l' * w + j' -> l <= l'.
Proof.
  intros Hj Hj' E. destruct (Z.le_gt_cases l l') as [H|H]; [exact H|exfalso].
  assert (l' * w + w <= l * w) by nia. lia.
Qed.

Lemma rowmajor_inj w l l' j j' :
  0 <= j < w -> 0 <= j' < w -> l * w + j = l' * w + j' -> l = l' /\ j = j'.
Proof.
  intros Hj Hj' E.
  assert (l = l').
  { apply Z.le_antisymm; [apply (rowmajor_lt w l l' j j')|apply (rowmajor_lt w l' l j' j)]; lia. }
  subst. lia.
Qed.

Lemma rowmajor_fit w h x y : 0 <= x < w -> 0 <= y < h -> 0 <= y * w + x < w * h.
Proof. intros Hx Hy. nia. Qed.

Lemma div_small radius : 0 <= radius <= 254 -> u32 (u32 (radius * 2) + 1) = 2 * radius + 1.
Proof. intros H. rewrite (u32_small (radius * 2)) by lia. rewrite u32_small by lia. lia. Qed.

Section Passes.
Variable L : Z.
Hypothesis HL : 32 <= L.
Variables w h radius : Z.
Hypothesis Hw : 1 <= w.
Hypothesis Hh : 1 <= h.
Hypothesis Hwh : w * h < 2 ^ 32.
Hypothesis Hradius : 0 <= radius <= 254.
Variable m : machine.
Hypothesis Hlen : Z.of_nat (length (pix m)) = w * h.
Hypothesis Hbytes : is_bytes (pix m) = true.
Hypothesis Htrace : Forall (ev_ok radius (mul_of radius)) (trace m).

Lemma w_small : w < 2 ^ 32.
Proof. nia. Qed.

Lemma h_small : h < 2 ^ 32.
Proof. nia. Qed.

Lemma stackblur_pass1 :
  exists m',
    stackblur L w h radius 1 m = Ok tt m' /\
    pass_inv radius (mul_of radius) (shr_of radius) w h 1 w m h m'.
Proof.
  pose proof w_small as Hws. pose proof h_small as Hhs.
  destruct (table_facts radius Hradius) as (T1 & T2 & T3 & T4).
  destruct table_length as [Lm Ls].
  unfold stackblur.
  rewrite run_table_read by (rewrite Lm; lia).
  rewrite run_table_read by (rewrite Ls; lia).
  rewrite run_alloc_stack.
  change (1 =? 1) with true. change (1 =? 2) with false. cbv iota.
  rewrite div_small by lia. rewrite (u32_small (w - 1)) by lia.
  fold (mul_of radius). fold (shr_of radius).
  set (m1 := Machine _ _ _).
  destruct (pass_spec L HL radius (mul_of radius) (shr_of radius) Hradius T1 T2 T3
              ltac:(rewrite (T4 255) by lia; lia)
              w h 1 w ltac:(lia) ltac:(lia) ltac:(lia)
              (fun y => u32 (y * w)) (fun y xp => xp + u32 (y * w))) with (M0 := m) (m := m1)
    as (m' & E & I).
  - intros l Hl. apply u32_small. pose proof (rowmajor_fit w h 0 l ltac:(lia) Hl). lia.
  - intros l j Hl Hj. unfold cell. rewrite u32_small; [lia|].
    pose proof (rowmajor_fit w h 0 l ltac:(lia) Hl). lia.
  - intros l j l' j' Hl Hl' Hj Hj' C. unfold cell in C.
    apply (rowmajor_inj w l l' j j'); lia.
  - intros l Hl. rewrite Hlen. pose proof (rowmajor_fit w h (w - 1) l ltac:(lia) Hl). lia.
  - lia.
  - subst m1. constructor; cbn [pix stk trace];
      [reflexivity|exact Hbytes| |exact Htrace| |].
    + rewrite length_resize. lia.
    + intros l' j Hl'. lia.
    + intros l' j Hl' Hj. reflexivity.
  - exists m'. split; [|exact I].
    change (for_loop (Z.to_nat h) 0
              (fun y _ => step1_row L w radius (w - 1) (2 * radius + 1)
                                    (mul_of radius) (shr_of radius) y) tt)
      with (for_loop (Z.to_nat h) 0
              (fun l (_ : unit) =>
                 blur_line L radius (2 * radius + 1) (mul_of radius) (shr_of radius)
                           w (w - 1) 1 (u32 (l * w)) (fun xp => xp + u32 (l * w))) tt).
    rewrite (run_bind_ok _ _ _ _ _ E). reflexivity.
Qed.

Lemma stackblur_pass2 :
  exists m',
    stackblur L w h radius 2 m = Ok tt m' /\
    pass_inv radius (mul_of radius) (shr_of radius) h w w 1 m w m'.
Proof.
  pose proof w_small as Hws. pose proof h_small as Hhs.
  destruct (table_facts radius Hradius) as (T1 & T2 & T3 & T4).
  destruct table_length as [Lm Ls].
  unfold stackblur.
  rewrite run_table_read by (rewrite Lm; lia).
  rewrite run_table_read by (rewrite Ls; lia).
  rewrite run_alloc_stack.
  change (2 =? 1) with false. change (2 =? 2) with true. cbv iota.
  rewrite div_small by lia. rewrite (u32_small (h - 1)) by lia.
  fold (mul_of radius). fold (shr_of radius).
  set (m1 := Machine _ _ _).
  destruct (pass_spec L HL radius (mul_of radius) (shr_of radius) Hradius T1 T2 T3
              ltac:(rewrite (T4 255) by lia; lia)
              h w w 1 ltac:(lia) ltac:(lia) ltac:(lia)
              (fun x => x) (fun x yp => x + u32 (yp * w))) with (M0 := m) (m := m1)
    as (m' & E & I).
  - intros l Hl. lia.
  - intros l j Hl Hj. unfold cell. rewrite u32_small; [lia|].
    pose proof (rowmajor_fit w h 0 j ltac:(lia) Hj). lia.
  - intros l j l' j' Hl Hl' Hj Hj' C. unfold cell in C.
    apply (rowmajor_inj w j j' l l'); lia.
  - intros l Hl. rewrite Hlen. pose proof (rowmajor_fit w h l (h - 1) Hl ltac:(lia)). lia.
  - lia.
  - subst m1. constructor; cbn [pix stk trace];
      [reflexivity|exact Hbytes| |exact Htrace| |].
    + rewrite length_resize. lia.
    + intros l' j Hl'. lia.
    + intros l' j Hl' Hj. reflexivity.
  - exists m'. split; [|exact I].
    rewrite run_ret.
    change (for_loop (Z.to_nat w) 0
              (fun x _ => step2_col L w h radius (h - 1) (2 * radius + 1)
                                    (mul_of radius) (shr_of radius) x) tt)
      with (for_loop (Z.to_nat w) 0
              (fun l (_ : unit) =>
                 blur_line L radius (2 * radius + 1) (mul_of radius) (shr_of radius)
                           h (h - 1) w l (fun yp => l + u32 (yp * w))) tt).
    exact E.
Qed.
End Passes.

(** ** From the window sums to the formula of the specification *)

Lemma tentw_tent radius line n x :
  0 <= radius -> tentw radius (feed0 radius n line) x = tent radius line n x.
Proof.
  intros Hr. unfold tent, tentw.
  pose proof (Zsum_shift 0 (2 * radius + 1) (- radius)
                (fun k => (radius + 1 - Z.abs k) * line (clamp_index (x + k) n))) as E.
  replace (0 + - radius) with (- radius) in E by lia.
  replace (2 * radius + 1 + - radius) with (radius + 1) in E by lia.
  rewrite <- E. rewrite (Zsum_split 0 (radius + 1) (2 * radius + 1)) by lia.
  f_equal; apply Zsum_ext; intros i Hi; cbv beta; unfold feed0.
  - replace (x + (i + - radius)) with (x + i - radius) by lia. f_equal. lia.
  - replace (x + (i + - radius)) with (x + i - radius) by lia. f_equal. lia.
Qed.

Lemma emit_blurred radius line n x :
  0 <= radius ->
  emit radius (mul_of radius) (shr_of radius) n line x = blurred radius line n x.
Proof. intros Hr. unfold emit, blurred, scale. now rewrite tentw_tent. Qed.

Lemma blurred_ext radius line line' n x :
  0 <= radius -> 1 <= n -> (forall j, 0 <= j < n -> line j = line' j) ->
  blurred radius line n x = blurred radius line' n x.
Proof.
  intros Hr Hn E. rewrite <- !emit_blurred by lia. now apply emit_ext.
Qed.

Lemma blurred_byte radius line n x : 0 <= blurred radius line n x <= 255.
Proof. apply clamp_byte. Qed.

(** A line of one value blurs to that value. *)
Lemma blurred_flat radius line n x v :
  0 <= radius <= 254 -> 1 <= n -> 0 <= v <= 255 ->
  (forall j, 0 <= j < n -> line j = v) -> blurred radius line n x = v.
Proof.
  intros Hr Hn Hv E. rewrite <- emit_blurred by lia. unfold emit.
  rewrite (tentw_const radius ltac:(lia) _ v)
    by (intros t Ht; unfold feed0; apply E, clamp_index_range; lia).
  destruct (table_facts radius Hr) as (_ & _ & _ & T).
  rewrite T by lia. now apply clamp_id.
Qed.

(** With radius 0 the window is the sample itself. *)
Lemma blurred_radius0 line n x :
  0 <= x < n -> 0 <= line x <= 255 -> blurred 0 line n x = line x.
Proof.
  intros Hx Hb. rewrite <- emit_blurred by lia. unfold emit.
  rewrite (tentw_const 0 ltac:(lia) _ (line x)).
  - destruct (table_facts 0 ltac:(lia)) as (_ & _ & _ & T).
    specialize (T (line x) Hb). replace (line x * (0 + 1) * (0 + 1)) with (line x) in * by lia.
    rewrite T. now apply clamp_id.
  - intros t Ht. unfold feed0. f_equal. unfold clamp_index. lia.
Qed.

(** ** Each pass, as a function of the buffer it started from *)

Section PassResults.
Variable L : Z.
Hypothesis HL : 32 <= L.
Variables w h radius : Z.
Hypothesis Hw : 1 <= w.
Hypothesis Hh : 1 <= h.
Hypothesis Hwh : w * h < 2 ^ 32.
Hypothesis Hradius : 0 <= radius <= 254.
Variable m : machine.
Hypothesis Hlen : Z.of_nat (length (pix m)) = w * h.
Hypothesis Hbytes : is_bytes (pix m) = true.
Hypothesis Htrace : Forall (ev_ok radius (mul_of radius)) (trace m).

Lemma horizontal_pass :
  exists m',
    stackblur L w h radius 1 m = Ok tt m' /\
    length (pix m') = length (pix m) /\
    is_bytes (pix m') = true /\
    Forall (ev_ok radius (mul_of radius)) (trace m') /\
    forall x y, 0 <= x < w -> 0 <= y < h ->
                peek (pix m') (y * w + x) = blurred radius (row (pix m) w y) w x.
Proof.
  destruct (stackblur_pass1 L HL w h radius Hw Hh Hwh Hradius m Hlen Hbytes Htrace)
    as (m' & E & [P1 P2 P3 P4 P5 P6]).
  exists m'. repeat split; auto.
  intros x y Hx Hy. specialize (P5 y x Hy Hx). unfold cell in P5.
  replace (y * w + x) with (y * w + x * 1) by lia. rewrite P5, emit_blurred by lia.
  apply blurred_ext; [lia|lia|]. intros j Hj. unfold pass_line, cell, row. f_equal. lia.
Qed.

Lemma vertical_pass :
  exists m',
    stackblur L w h radius 2 m = Ok tt m' /\
    length (pix m') = length (pix m) /\
    is_bytes (pix m') = true /\
    Forall (ev_ok radius (mul_of radius)) (trace m') /\
    forall x y, 0 <= x < w -> 0 <= y < h ->
                peek (pix m') (y * w + x) = blurred radius (col (pix m) w x) h y.
Proof.
  destruct (stackblur_pass2 L HL w h radius Hw Hh Hwh Hradius m Hlen Hbytes Htrace)
    as (m' & E & [P1 P2 P3 P4 P5 P6]).
  exists m'. repeat split; auto.
  intros x y Hx Hy. specialize (P5 x y Hx Hy). unfold cell in P5.
  replace (y * w + x) with (x * 1 + y * w) by lia. rewrite P5, emit_blurred by lia.
  apply blurred_ext; [lia|lia|]. intros j Hj. unfold pass_line, cell, col. f_equal. lia.
Qed.
End PassResults.

(** ** Both passes, as the entry point runs them *)

Lemma peek_ext (l l' : list Z) :
  length l = length l' ->
  (forall p, 0 <= p < Z.of_nat (length l) -> peek l p = peek l' p) -> l = l'.
Proof.
  intros Hlen E. apply (nth_ext l l' 0 0 Hlen). intros k Hk.
  specialize (E (Z.of_nat k) ltac:(lia)). unfold peek in E.
  now rewrite Nat2Z.id in E.
Qed.

Lemma peek_replicate k v p : 0 <= p < Z.of_nat k -> peek (replicate k v) p = v.
Proof.
  intros H. unfold peek. rewrite nth_lookup, lookup_replicate_2 by lia. reflexivity.
Qed.

Lemma is_bytes_replicate k v : 0 <= v <= 255 -> is_bytes (replicate k v) = true.
Proof.
  intros Hv. induction k as [|k IH]; [reflexivity|].
  cbn [replicate]. unfold is_bytes in *. cbn [forallb]. rewrite IH.
  replace (0 <=? v) with true by lia. replace (v <=? 255) with true by lia.
  reflexivity.
Qed.

(** Every offset of a [w] by [h] buffer is a pixel [(x, y)]. *)
Lemma offset_pixel w h p :
  1 <= w -> 0 <= p < w * h -> exists x y, 0 <= x < w /\ 0 <= y < h /\ p = y * w + x.
Proof.
  intros Hw Hp. exists (p mod w), (p / w).
  pose proof (Z.mod_pos_bound p w ltac:(lia)).
  pose proof (Z.div_mod p w ltac:(lia)).
  assert (0 <= p / w) by (apply Z.div_pos; lia).
  assert (p / w < h) by (apply Z.div_lt_upper_bound; lia).
  repeat split; lia.
Qed.

(** A buffer known pixel by pixel. *)
Lemma pixels_ext w h (l l' : list Z) :
  1 <= w -> Z.of_nat (length l) = w * h -> length l' = length l ->
  (forall x y, 0 <= x < w -> 0 <= y < h -> peek l' (y * w + x) = peek l (y * w + x)) ->
  l' = l.
Proof.
  intros Hw Hl Hl' E. apply peek_ext; [exact Hl'|]. intros p Hp.
  destruct (offset_pixel w h p Hw ltac:(lia)) as (x & y & Hx & Hy & ->). now apply E.
Qed.

Section TwoPasses.
Variable L : Z.
Hypothesis HL : 32 <= L.
Variables w h radius : Z.
Hypothesis Hw : 1 <= w.
Hypothesis Hh : 1 <= h.
Hypothesis Hwh : w * h < 2 ^ 32.
Hypothesis Hradius : 0 <= radius <= 254.
Variable m : machine.
Hypothesis Hlen : Z.of_nat (length (pix m)) = w * h.
Hypothesis Hbytes : is_bytes (pix m) = true.
Hypothesis Htrace : Forall (ev_ok radius (mul_of radius)) (trace m).

Lemma entry_args : u32 w = w /\ u32 h = h /\ u32 radius = radius.
Proof. repeat split; apply u32_small; nia. Qed.

Lemma two_passes :
  exists m1 m2,
    stackblur L w h radius 1 m = Ok tt m1 /\
    stackblur L w h radius 2 m1 = Ok tt m2 /\
    Java_com_jxtras_android_utils_ImageUtils_stackblur L w h radius m = Ok tt m2 /\
    (length (pix m1) = length (pix m) /\ length (pix m2) = length (pix m)) /\
    (is_bytes (pix m1) = true /\ is_bytes (pix m2) = true) /\
    Forall (ev_ok radius (mul_of radius)) (trace m2) /\
    (forall x y, 0 <= x < w -> 0 <= y < h ->
                 peek (pix m1) (y * w + x) = blurred radius (row (pix m) w y) w x) /\
    (forall x y, 0 <= x < w -> 0 <= y < h ->
                 peek (pix m2) (y * w + x) = blurred radius (col (pix m1) w x) h y).
Proof.
  destruct (horizontal_pass L HL w h radius Hw Hh Hwh Hradius m Hlen Hbytes Htrace)
    as (m1 & E1 & L1 & B1 & T1 & F1).
  destruct (vertical_pass L HL w h radius Hw Hh Hwh Hradius m1 ltac:(lia) B1 T1)
    as (m2 & E2 & L2 & B2 & T2 & F2).
  exists m1, m2. destruct entry_args as (Ew & Eh & Er).
  repeat split; auto; try lia.
  unfold Java_com_jxtras_android_utils_ImageUtils_stackblur. rewrite Ew, Eh, Er.
  rewrite (run_bind_ok _ _ _ _ _ E1). exact E2.
Qed.
End TwoPasses.

(** From the bounds kept by the loops to the stated ones. *)
Lemma ev_ok_within radius e :
  0 <= radius <= 254 -> ev_ok radius (mul_of radius) e -> within radius e.
Proof.
  intros Hr. destruct (table_facts radius Hr) as (T1 & T2 & T3 & _).
  destruct e as [[] z]; cbn [ev_ok within]; intros H.
  - assert (255 * (radius + 1) * (radius + 1) <= 16581375) by nia.
    pose proof (mul_le_area z radius (mul_of radius) T1 ltac:(lia)).
    repeat split; try lia.
  - lia.
  - lia.
  - lia.
Qed.

Lemma ev_ok_unclamped L radius e :
  32 <= L -> 0 <= radius <= 254 -> ev_ok radius (mul_of radius) e -> unclamped L radius e.
Proof.
  intros HL Hr. destruct (table_facts radius Hr) as (T1 & T2 & T3 & T4).
  destruct e as [[] z]; cbn [ev_ok unclamped]; intros H; try exact I.
  cbv zeta. rewrite (wrap_small L z HL) by lia.
  assert (B : 0 <= Z.shiftr z (shr_of radius) <= 255).
  { split; [apply Z.shiftr_nonneg; lia|].
    etransitivity;
      [apply (shiftr_mono z (255 * (radius + 1) * (radius + 1) * mul_of radius)); lia|].
    rewrite (T4 255) by lia. lia. }
  split; [exact B|now apply clamp_id].
Qed.

(** ** Statements that leave the buffer alone *)

Lemma keeps_ret {A} (a : A) : keeps_pix (ret a).
Proof. intros m. reflexivity. Qed.

Lemma keeps_bind {A B} (c : M A) (k : A -> M B) :
  keeps_pix c -> (forall a, keeps_pix (k a)) -> keeps_pix (bind c k).
Proof.
  intros Hc Hk m. unfold bind. specialize (Hc m).
  destruct (c m) as [a m1|m1]; cbn [final] in *.
  - now rewrite Hk.
  - exact Hc.
Qed.

Lemma keeps_assign L a z : keeps_pix (assign L a z).
Proof. intros m. reflexivity. Qed.

Lemma keeps_alloc_stack d : keeps_pix (alloc_stack d).
Proof. intros m. reflexivity. Qed.

Lemma keeps_table_read t i : keeps_pix (table_read t i).
Proof. intros m. unfold table_read. now destruct (in_range t i). Qed.

Lemma keeps_load_src p : keeps_pix (load_src p).
Proof. intros m. unfold load_src. now destruct (in_range (pix m) p). Qed.

Lemma keeps_load_stack i : keeps_pix (load_stack i).
Proof. intros m. unfold load_stack. now destruct (in_range (stk m) i). Qed.

Lemma keeps_store_stack i v : keeps_pix (store_stack i v).
Proof. intros m. unfold store_stack. now destruct (in_range (stk m) i). Qed.

Lemma keeps_for_loop {St} (body : Z -> St -> M St) n :
  (forall i s, keeps_pix (body i s)) -> forall from s, keeps_pix (for_loop n from body s).
Proof.
  intros Hb. induction n as [|n IH]; intros from s; cbn [for_loop].
  - apply keeps_ret.
  - apply keeps_bind; [apply Hb|]. intros s'. apply IH.
Qed.

Create HintDb keeps.

#[local] Hint Resolve keeps_ret keeps_assign keeps_alloc_stack keeps_table_read
  keeps_load_src keeps_load_stack keeps_store_stack : keeps.

Ltac keeps := repeat (apply keeps_bind; [auto with keeps|intros ?]); auto with keeps.

Lemma keeps_fill_edge L base i s : keeps_pix (fill_edge L base i s).
Proof. destruct s as [s so]. unfold fill_edge. keeps. Qed.

Lemma keeps_fill_ahead L radius nm stride i s : keeps_pix (fill_ahead L radius nm stride i s).
Proof. destruct s as [[s si] p]. unfold fill_ahead. cbv zeta. keeps. Qed.

(** A radius past the end of the tables: the first table access is
    already outside its array. *)
Lemma stackblur_bad_radius L w h radius step m :
  254 < radius -> stackblur L w h radius step m = Fault m.
Proof.
  intros H. unfold stackblur, bind, table_read. cbv zeta.
  rewrite in_range_false; [reflexivity|]. destruct table_length as [-> _]. lia.
Qed.

(** ** A run, statement by statement

    Step 1 on the two-sample row [9, 200] with radius 1: the outputs are
    227/4 and 609/4; the last value pushed on the stack is the 152 just
    written (the source reads [src_ptr[0]] after the write to the same
    sample in the last iteration), and the trace lists the exact value of
    each of the 23 assignments, newest first. *)
Example run_two_samples :
  stackblur 32 2 1 1 1 (boot [9; 200]) =
  Ok tt (Machine [56; 152] [200; 152; 200]
           [(ASumIn, 152); (ASumOut, 400); (ASum, 752); (ASumIn, 352); (ASumOut, 200);
            (ASum, 400); (AProd, 311808); (ASumIn, 200); (ASumOut, 209); (ASum, 609);
            (ASumIn, 400); (ASumOut, 9); (ASum, 209); (AProd, 116224); (ASumIn, 200);
            (ASum, 227); (ASumOut, 18); (ASum, 27); (ASumOut, 9); (ASum, 9);
            (ASumOut, 0); (ASumIn, 0); (ASum, 0)]).
Proof. vm_compute. reflexivity. Qed.

(** ** The tables as a division

    What one row of the tables does to a sum, on the exact product
    ([scale]) and on the [L]-bit product of the code, which is the same
    number as long as the sum is one the accumulator can hold. *)

Lemma table_shape : forallb table_row_shape (map Z.of_nat (seq 0 255)) = true.
Proof. vm_compute. reflexivity. Qed.

Lemma table_row_shape_facts r :
  0 <= r <= 254 ->
  (9 <= shr_of r <= 24) /\ (257 <= mul_of r <= 512) /\
  ((mul_of r - 1) * ((r + 1) * (r + 1)) < 2 ^ shr_of r <= mul_of r * ((r + 1) * (r + 1))) /\
  256 * (mul_of r * ((r + 1) * (r + 1)) - 2 ^ shr_of r) <= 2 ^ shr_of r.
Proof.
  intros H. pose proof table_shape as T. rewrite forallb_forall in T.
  specialize (T r (in_upto 255 r ltac:(lia))). unfold table_row_shape in T. cbv zeta in T.
  repeat (apply andb_prop in T; destruct T as [T ?]).
  repeat split; lia.
Qed.

Lemma scale_div radius s :
  0 <= radius <= 254 -> scale radius s = (s * mul_of radius) / 2 ^ shr_of radius.
Proof.
  intros H. destruct (table_row_shape_facts radius H) as (A & _).
  unfold scale. apply Z.shiftr_div_pow2. lia.
Qed.

Lemma scale_mono radius s t :
  0 <= radius <= 254 -> s <= t -> scale radius s <= scale radius t.
Proof.
  intros H Hst. destruct (table_row_shape_facts radius H) as (A & B & _).
  unfold scale. apply shiftr_mono; [lia|]. apply Z.mul_le_mono_nonneg_r; lia.
Qed.

(** The table-driven division is the quotient by the tent's area or one
    more, on every sum the accumulator can hold. *)
Lemma scale_bounds radius s :
  0 <= radius <= 254 -> 0 <= s <= 255 * ((radius + 1) * (radius + 1)) ->
  s / ((radius + 1) * (radius + 1)) <= scale radius s /\
  scale radius s <= s / ((radius + 1) * (radius + 1)) + 1 /\
  scale radius s <= 255.
Proof.
  intros Hr Hs.
  destruct (table_row_shape_facts radius Hr) as (Hsh & Hm & (_ & Hge) & Hd).
  set (A := (radius + 1) * (radius + 1)) in *.
  set (N := 2 ^ shr_of radius) in *.
  set (mu := mul_of radius) in *.
  assert (HA : 0 < A) by (unfold A; nia).
  assert (HN : 0 < N) by (unfold N; apply Z.pow_pos_nonneg; lia).
  set (q := s / A).
  assert (Hq1 : A * q <= s) by (apply Z.mul_div_le; lia).
  assert (Hq2 : s < A * (q + 1)).
  { pose proof (Z.mul_succ_div_gt s A HA). unfold q. lia. }
  assert (Hq0 : 0 <= q) by (apply Z.div_pos; lia).
  assert (Hq255 : q <= 255).
  { apply Z.div_le_upper_bound; [lia|]. lia. }
  rewrite scale_div by lia. fold N mu.
  repeat split.
  - apply Z.div_le_lower_bound; [lia|].
    assert (N * q <= mu * A * q) by (apply Z.mul_le_mono_nonneg_r; lia).
    assert (mu * (A * q) <= mu * s) by (apply Z.mul_le_mono_nonneg_l; lia).
    lia.
  - assert (s * mu < N * (q + 2)); [|apply Z.lt_succ_r, Z.div_lt_upper_bound; lia].
    assert (s * mu <= (A * (q + 1) - 1) * mu) by (apply Z.mul_le_mono_nonneg_r; lia).
    assert ((q + 1) * (mu * A - N) <= 256 * (mu * A - N))
      by (apply Z.mul_le_mono_nonneg_r; lia).
    lia.
  - destruct (table_facts radius Hr) as (_ & _ & _ & T).
    specialize (T 255 ltac:(lia)). 
    pose proof (scale_mono radius s (255 * A) Hr ltac:(lia)) as Mo.
    rewrite scale_div in Mo by lia.
    unfold scale in Mo. fold N mu in Mo.
    replace (255 * (radius + 1) * (radius + 1) * mul_of radius) with (255 * A * mu) in T
      by (unfold A, mu; lia).
    fold N in T. unfold mu, N in *. lia.
Qed.

(** On those sums the [unsigned long] product of lines 118 and 182 does
    not wrap, so the code computes [scale]. *)
Lemma scale_code L radius s :
  32 <= L -> 0 <= radius <= 254 -> 0 <= s <= 255 * ((radius + 1) * (radius + 1)) ->
  Z.shiftr ((s * mul_of radius) mod 2 ^ L) (shr_of radius) = scale radius s.
Proof.
  intros HL Hr Hs. destruct (table_facts radius Hr) as (T1 & _ & T3 & _).
  unfold scale. rewrite wrap_small; [reflexivity|exact HL|].
  split; [apply Z.mul_nonneg_nonneg; lia|].
  apply Z.le_lt_trans with (2 := T3).
  replace (255 * (radius + 1) * (radius + 1)) with (255 * ((radius + 1) * (radius + 1))) by lia.
  apply Z.mul_le_mono_nonneg_r; lia.
Qed.

(** ** A line of no sample

    With a width (or, in step 2, a height) of zero the two fill loops of
    a line still run, reading [radius+1] samples from the start of the
    line on, and the main loop does not: nothing is written. *)

Section EmptyLine.
Variable L : Z.
Variables radius div mul_sum shr_sum nm stride base : Z.
Variable pix_ptr : Z -> Z.
Hypothesis Hradius : 0 <= radius <= 254.
Hypothesis Hnm : radius <= nm.
Hypothesis Hbase : 0 <= base.
Hypothesis Hstride : 0 <= stride.
Variable m0 : machine.
Hypothesis Hreads : base + radius * stride < Z.of_nat (length (pix m0)).
Hypothesis Hstk0 : Z.of_nat (length (stk m0)) = 2 * radius + 1.

Lemma read_fit i : 0 <= i <= radius -> 0 <= base + i * stride < Z.of_nat (length (pix m0)).
Proof.
  intros Hi.
  assert (0 <= i * stride) by (apply Z.mul_nonneg_nonneg; lia).
  assert (i * stride <= radius * stride) by (apply Z.mul_le_mono_nonneg_r; lia).
  lia.
Qed.

Lemma empty_fill_edge i s m :
  0 <= i < radius + 1 -> (pix m = pix m0 /\ length (stk m) = length (stk m0)) ->
  exists s' m', fill_edge L base i s m = Ok s' m' /\ (pix m' = pix m0 /\ length (stk m') = length (stk m0)).
Proof.
  intros Hi [P S]. destruct s as [s so]. unfold fill_edge.
  pose proof (read_fit 0 ltac:(lia)) as R. rewrite Z.mul_0_l, Z.add_0_r, <- P in R.
  run. eexists. eexists. split; [reflexivity|].
  split; cbn [pix stk]; [exact P|]. rewrite length_insert. exact S.
Qed.

Lemma empty_fill_ahead i s m :
  1 <= i < radius + 1 ->
  (pix m = pix m0 /\ length (stk m) = length (stk m0)) /\ snd s = base + (i - 1) * stride ->
  exists s' m', fill_ahead L radius nm stride i s m = Ok s' m' /\
                (pix m' = pix m0 /\ length (stk m') = length (stk m0)) /\ snd s' = base + (i + 1 - 1) * stride.
Proof.
  intros Hi [[P S] Hs]. destruct s as [[s si] p]. cbn [snd] in Hs. subst p.
  unfold fill_ahead.
  replace (i <=? nm) with true by (symmetry; apply Z.leb_le; lia).
  replace (base + (i - 1) * stride + stride) with (base + i * stride) by lia.
  pose proof (read_fit i ltac:(lia)) as R. rewrite <- P in R.
  rewrite (u32_small (i + radius)) by lia.
  run. eexists. eexists. split; [reflexivity|].
  split; [split|]; cbn [pix stk snd]; [exact P| |f_equal; lia].
  rewrite length_insert. exact S.
Qed.

Lemma empty_line_ok :
  exists m',
    blur_line L radius div mul_sum shr_sum 0 nm stride base pix_ptr m0 = Ok tt m' /\
    pix m' = pix m0 /\ length (stk m') = length (stk m0).
Proof.
  unfold blur_line. rewrite !run_assign. cbn [pix stk trace].
  set (m1 := Machine (pix m0) (stk m0) _).
  assert (Q1 : pix m1 = pix m0 /\ length (stk m1) = length (stk m0)) by (split; reflexivity).
  match goal with
  | |- context [for_loop _ 0 (fill_edge L base) ?s0] =>
      destruct (for_loop_inv (fun _ (_ : Z * Z) m => pix m = pix m0 /\ length (stk m) = length (stk m0))
                  (fill_edge L base) (Z.to_nat (radius + 1)) 0 s0 m1 Q1)
        as (a & ma & Ea & Qa)
  end.
  { intros i s m Hi Q. apply empty_fill_edge; [lia|exact Q]. }
  rewrite (run_bind_ok _ _ _ _ _ Ea).
  match goal with
  | |- context [for_loop _ 1 (fill_ahead L radius nm stride) ?s0] =>
      destruct (for_loop_inv
                  (fun i (s : Z * Z * Z) m =>
                     (pix m = pix m0 /\ length (stk m) = length (stk m0)) /\ snd s = base + (i - 1) * stride)
                  (fill_ahead L radius nm stride) (Z.to_nat radius) 1 s0 ma)
        as (b & mb & Eb & Qb & _)
  end.
  { split; [exact Qa|]. cbn [snd]. lia. }
  { intros i s m Hi Q. apply empty_fill_ahead; [lia|exact Q]. }
  rewrite (run_bind_ok _ _ _ _ _ Eb).
  cbv zeta. change (Z.to_nat 0) with 0%nat. cbn [for_loop].
  exists mb. split; [reflexivity|exact Qb].
Qed.
End EmptyLine.

(** ** A pass, and the two, over an image of no sample *)

Section EmptyPass.
Variable L : Z.
Variables w h radius : Z.
Hypothesis Hw : 0 <= w < 2 ^ 32.
Hypothesis Hh : 0 <= h < 2 ^ 32.
Hypothesis Hradius : 0 <= radius <= 254.
Variable m : machine.
Hypothesis Hroom :
  (w = 0 /\ (h = 0 \/ radius < Z.of_nat (length (pix m)))) \/
  (h = 0 /\ (radius + 1) * w <= Z.of_nat (length (pix m))).

Lemma empty_lines n nm stride (base : Z -> Z) (pix_ptr : Z -> Z -> Z)
      (body : Z -> unit -> M unit) m1 :
  (forall l u, body l u =
               blur_line L radius (2 * radius + 1) (mul_of radius) (shr_of radius)
                         0 nm stride (base l) (pix_ptr l)) ->
  radius <= nm -> 0 <= stride ->
  (forall l, 0 <= l < Z.of_nat n ->
             0 <= base l /\ base l + radius * stride < Z.of_nat (length (pix m))) ->
  pix m1 = pix m -> Z.of_nat (length (stk m1)) = 2 * radius + 1 ->
  exists m', for_loop n 0 body tt m1 = Ok tt m' /\ pix m' = pix m.
Proof.
  intros Hbody Hnm Hstride Hbase P S.
  destruct (for_loop_inv
              (fun _ (_ : unit) mm =>
                 pix mm = pix m /\ Z.of_nat (length (stk mm)) = 2 * radius + 1)
              body n 0 tt m1 (conj P S)) as ([] & m' & E & P' & _).
  - intros l u mm Hl [Pm Sm]. rewrite Hbody.
    destruct (Hbase l ltac:(lia)) as [B1 B2].
    destruct (empty_line_ok L radius (2 * radius + 1) (mul_of radius) (shr_of radius)
                nm stride (base l) (pix_ptr l) Hradius Hnm B1 Hstride mm
                ltac:(rewrite Pm; exact B2) Sm) as (mm' & E & P' & S').
    exists tt, mm'. split; [exact E|]. split; [congruence|]. rewrite S'. exact Sm.
  - exists m'. split; [exact E|exact P'].
Qed.

Lemma stackblur_empty step :
  step = 1 \/ step = 2 ->
  exists m', stackblur L w h radius step m = Ok tt m' /\ pix m' = pix m.
Proof.
  intros Hstep.
  destruct table_length as [Lm Ls].
  unfold stackblur.
  rewrite run_table_read by (rewrite Lm; lia).
  rewrite run_table_read by (rewrite Ls; lia).
  rewrite run_alloc_stack, div_small by exact Hradius.
  set (m1 := Machine _ _ _).
  assert (P1 : pix m1 = pix m) by reflexivity.
  assert (S1 : Z.of_nat (length (stk m1)) = 2 * radius + 1)
    by (subst m1; cbn [stk]; rewrite length_resize; lia).
  fold (mul_of radius). fold (shr_of radius).
  assert (Hwm : forall n, 0 <= n < 2 ^ 32 -> n = 0 -> radius <= u32 (n - 1)).
  { intros n _ ->. change (u32 (0 - 1)) with (2 ^ 32 - 1). lia. }
  assert (Cases : h = 0 /\ (w = 0 \/ (radius + 1) * w <= Z.of_nat (length (pix m))) \/
                  w = 0 /\ 1 <= h /\ radius < Z.of_nat (length (pix m))) by lia.
  destruct Hstep as [-> | ->]; cbn [Z.eqb Pos.eqb].
  - (* step 1: a row for every y < h *)
    destruct Cases as [[H0 _]|(W0 & H1 & R)].
    + rewrite H0. cbn [Z.to_nat for_loop]. exists m1. split; [reflexivity|exact P1].
    + destruct (empty_lines (Z.to_nat h) (u32 (w - 1)) 1 (fun y => u32 (y * w))
                  (fun y xp => xp + u32 (y * w))
                  (fun y _ => step1_row L w radius (u32 (w - 1)) (2 * radius + 1)
                                        (mul_of radius) (shr_of radius) y) m1)
        as (m' & E & P'); [| | | |exact P1|exact S1|].
      * intros y u. rewrite step1_row_line, W0. reflexivity.
      * now apply Hwm.
      * lia.
      * intros y _. rewrite W0, Z.mul_0_r. change (u32 0) with 0. lia.
      * rewrite (run_bind_ok _ _ _ _ _ E). exists m'. split; [reflexivity|exact P'].
  - (* step 2: a column for every x < w *)
    rewrite run_ret.
    destruct Cases as [[H0 R]|(W0 & _)].
    + destruct (empty_lines (Z.to_nat w) (u32 (h - 1)) w (fun x => x)
                  (fun x yp => x + u32 (yp * w))
                  (fun x _ => step2_col L w h radius (u32 (h - 1)) (2 * radius + 1)
                                        (mul_of radius) (shr_of radius) x) m1)
        as (m' & E & P'); [| | | |exact P1|exact S1|].
      * intros x u. rewrite step2_col_line, H0. reflexivity.
      * now apply Hwm.
      * lia.
      * intros x Hx. destruct R as [R|R]; [lia|].
        split; [lia|]. replace ((radius + 1) * w) with (w + radius * w) in R by lia. lia.
      * exists m'. split; [exact E|exact P'].
    + rewrite W0. cbn [Z.to_nat for_loop]. exists m1. split; [reflexivity|exact P1].
Qed.
End EmptyPass.

Lemma entry_empty L w h radius m :
  0 <= w < 2 ^ 32 -> 0 <= h < 2 ^ 32 -> 0 <= radius <= 254 ->
  (w = 0 /\ (h = 0 \/ radius < Z.of_nat (length (pix m)))) \/
  (h = 0 /\ (radius + 1) * w <= Z.of_nat (length (pix m))) ->
  exists m', Java_com_jxtras_android_utils_ImageUtils_stackblur L w h radius m = Ok tt m' /\
             pix m' = pix m.
Proof.
  intros Hw Hh Hr Hroom.
  unfold Java_com_jxtras_android_utils_ImageUtils_stackblur.
  rewrite !u32_small by lia.
  destruct (stackblur_empty L w h radius Hw Hh Hr m Hroom 1 ltac:(left; reflexivity))
    as (m1 & E1 & P1).
  rewrite <- P1 in Hroom.
  destruct (stackblur_empty L w h radius Hw Hh Hr m1 Hroom 2 ltac:(right; reflexivity))
    as (m2 & E2 & P2).
  exists m2. split; [|congruence].
  now rewrite (run_bind_ok _ _ _ _ _ E1).
Qed.

(** * The claims

    Common hypotheses: [32 <= L] (the width of [unsigned long]);
    [w * h < 2 ^ 32], the range in which the source's [unsigned int]
    products [y * w] and [yp * w] are the offsets they stand for (the
    buffer is a direct byte buffer, of fewer than [2^31] bytes); the
    buffer holds [w * h] bytes; the ghost trace starts empty. *)

(** C1. The horizontal pass (step 1), run in place, leaves at every
    position (x, y) the clamped, table-scaled tent sum of the row as it
    was before the pass: the sliding update equals the direct
    edge-clamped window sum over the original line. *)
Theorem horizontal_pass_is_direct_tent L w h radius m :
  32 <= L -> 1 <= w -> 1 <= h -> w * h < 2 ^ 32 -> 1 <= radius <= 254 ->
  Z.of_nat (length (pix m)) = w * h -> is_bytes (pix m) = true -> trace m = [] ->
  exists m',
    stackblur L w h radius 1 m = Ok tt m' /\
    length (pix m') = length (pix m) /\
    forall x y, 0 <= x < w -> 0 <= y < h ->
      peek (pix m') (y * w + x) =
      clamp (Z.shiftr (tent radius (row (pix m) w y) w x * mul_of radius) (shr_of radius))
            0 255.
Proof.
  intros HL Hw Hh Hwh Hr Hlen Hb Ht.
  destruct (horizontal_pass L HL w h radius Hw Hh Hwh ltac:(lia) m Hlen Hb
              ltac:(rewrite Ht; constructor))
    as (m' & E & Len & _ & _ & F).
  exists m'. repeat split; [exact E|exact Len|]. intros x y Hx Hy. now apply F.
Qed.

Lemma horizontal_pass_is_direct_tent_witness :
  exists m',
    stackblur 32 3 2 1 1 (boot [10; 200; 30; 40; 50; 60]) = Ok tt m' /\
    length (pix m') = length (pix (boot [10; 200; 30; 40; 50; 60])) /\
    forall x y, 0 <= x < 3 -> 0 <= y < 2 ->
      peek (pix m') (y * 3 + x) =
      clamp (Z.shiftr (tent 1 (row (pix (boot [10; 200; 30; 40; 50; 60])) 3 y) 3 x * mul_of 1)
                      (shr_of 1)) 0 255.
Proof.
  apply (horizontal_pass_is_direct_tent 32 3 2 1 (boot [10; 200; 30; 40; 50; 60]));
    first [lia | reflexivity].
Defined.

(** C2 (as stated, refuted). With the window area (2*radius+1)^2 the
    table does not give back v: at radius 1 and v = 1 the sum 9 scales to 2. *)
Lemma table_not_window_square :
  scale 1 (1 * ((1 * 2 + 1) * (1 * 2 + 1))) = 2 /\
  ~ (forall radius v, 1 <= radius <= 254 -> 0 <= v <= 255 ->
                      scale radius (v * ((radius * 2 + 1) * (radius * 2 + 1))) = v).
Proof.
  split; [reflexivity|]. intros H. specialize (H 1 1 ltac:(lia) ltac:(lia)).
  vm_compute in H. discriminate H.
Qed.

(** C2 (amended). For every radius in [1,254] the pair of table entries
    is an approximate division by the area of the tent, (radius+1)^2: on
    every sum s the accumulator can hold, 0 <= s <= 255*(radius+1)^2, the
    value (s*mul)>>shr that lines 118 and 182 compute, in [unsigned long]
    arithmetic of any width of 32 bits or more, is s / (radius+1)^2 or
    one more; and on s = v*(radius+1)^2, v in [0,255], it is exactly v. *)
Theorem table_divides_by_tent_area L radius :
  32 <= L -> 1 <= radius <= 254 ->
  (forall s, 0 <= s <= 255 * ((radius + 1) * (radius + 1)) ->
     Z.shiftr ((s * mul_of radius) mod 2 ^ L) (shr_of radius) = scale radius s /\
     s / ((radius + 1) * (radius + 1)) <= scale radius s <= s / ((radius + 1) * (radius + 1)) + 1) /\
  (forall v, 0 <= v <= 255 -> scale radius (v * ((radius + 1) * (radius + 1))) = v).
Proof.
  intros HL Hr. split.
  - intros s Hs. split; [apply scale_code; lia|].
    destruct (scale_bounds radius s ltac:(lia) Hs) as (Lo & Hi & _). split; [exact Lo|exact Hi].
  - intros v Hv. destruct (table_facts radius ltac:(lia)) as (_ & _ & _ & T).
    unfold scale. rewrite <- (T v Hv) at 2. do 2 f_equal. lia.
Qed.

Lemma table_divides_by_tent_area_witness :
  (forall s, 0 <= s <= 255 * ((2 + 1) * (2 + 1)) ->
     Z.shiftr ((s * mul_of 2) mod 2 ^ 32) (shr_of 2) = scale 2 s /\
     s / ((2 + 1) * (2 + 1)) <= scale 2 s <= s / ((2 + 1) * (2 + 1)) + 1) /\
  (forall v, 0 <= v <= 255 -> scale 2 (v * ((2 + 1) * (2 + 1))) = v).
Proof. apply (table_divides_by_tent_area 32 2); lia. Defined.

(** C3. Table row 1 is (512, 11), and the horizontal pass on the row
    [0,0,255,0,0] with radius 1 gives [0,63,127,63,0]; the middle sample
    comes from the tent sum 510, and (510*512)>>11 = 127. *)
Theorem golden_row_radius1 L :
  32 <= L ->
  mul_of 1 = 512 /\ shr_of 1 = 11 /\
  (exists m', stackblur L 5 1 1 1 (boot [0; 0; 255; 0; 0]) = Ok tt m' /\
              pix m' = [0; 63; 127; 63; 0]) /\
  tent 1 (row [0; 0; 255; 0; 0] 5 0) 5 0 = 0 /\
  tent 1 (row [0; 0; 255; 0; 0] 5 0) 5 2 = 510 /\
  Z.shiftr (510 * 512) 11 = 127.
Proof.
  intros HL. repeat split; try reflexivity.
  destruct (horizontal_pass L HL 5 1 1 ltac:(lia) ltac:(lia) ltac:(lia) ltac:(lia)
              (boot [0; 0; 255; 0; 0]) eq_refl eq_refl ltac:(constructor))
    as (m' & E & Len & _ & _ & F).
  exists m'. split; [exact E|].
  apply (pixels_ext 5 1); [lia|reflexivity|exact Len|].
  intros x y Hx Hy. rewrite F by lia.
  assert (y = 0) by lia. subst y.
  assert (Cx : x = 0 \/ x = 1 \/ x = 2 \/ x = 3 \/ x = 4) by lia.
  destruct Cx as [->|[->|[->|[->| ->]]]]; reflexivity.
Qed.

Lemma golden_row_radius1_witness :
  exists m', stackblur 32 5 1 1 1 (boot [0; 0; 255; 0; 0]) = Ok tt m' /\
             pix m' = [0; 63; 127; 63; 0].
Proof.
  destruct (golden_row_radius1 32 ltac:(lia)) as (_ & _ & H & _). exact H.
Defined.

(** C4. A buffer whose samples all equal v is left as it is by the two
    passes run one after the other. *)
Theorem flat_image_fixed_point L w h radius v m :
  32 <= L -> 1 <= w -> 1 <= h -> w * h < 2 ^ 32 -> 1 <= radius <= 254 ->
  0 <= v <= 255 -> pix m = replicate (Z.to_nat (w * h)) v -> trace m = [] ->
  exists m', Java_com_jxtras_android_utils_ImageUtils_stackblur L w h radius m = Ok tt m' /\
             pix m' = replicate (Z.to_nat (w * h)) v.
Proof.
  intros HL Hw Hh Hwh Hr Hv Hp Ht.
  assert (Hlen : Z.of_nat (length (pix m)) = w * h)
    by (rewrite Hp, length_replicate; nia).
  assert (Hb : is_bytes (pix m) = true) by (rewrite Hp; now apply is_bytes_replicate).
  destruct (two_passes L HL w h radius Hw Hh Hwh ltac:(lia) m Hlen Hb
              ltac:(rewrite Ht; constructor))
    as (m1 & m2 & _ & _ & E & (L1 & L2) & _ & _ & F1 & F2).
  exists m2. split; [exact E|].
  assert (Hflat : forall x y, 0 <= x < w -> 0 <= y < h -> peek (pix m) (y * w + x) = v).
  { intros x y Hx Hy. rewrite Hp. apply peek_replicate.
    pose proof (rowmajor_fit w h x y Hx Hy). lia. }
  assert (H1 : forall x y, 0 <= x < w -> 0 <= y < h -> peek (pix m1) (y * w + x) = v).
  { intros x y Hx Hy. rewrite F1 by lia.
    apply blurred_flat; [lia|lia|lia|]. intros j Hj. unfold row. now apply Hflat. }
  rewrite <- Hp. apply (pixels_ext w h); [lia|exact Hlen|exact L2|].
  intros x y Hx Hy. rewrite F2, Hflat by lia.
  apply blurred_flat; [lia|lia|lia|]. intros j Hj. unfold col. now apply H1.
Qed.

Lemma flat_image_fixed_point_witness :
  exists m', Java_com_jxtras_android_utils_ImageUtils_stackblur 32 3 2 2 (boot (replicate 6 200)) = Ok tt m' /\
             pix m' = replicate (Z.to_nat (3 * 2)) 200.
Proof.
  apply (flat_image_fixed_point 32 3 2 2 200 (boot (replicate 6 200)));
    first [lia | reflexivity].
Defined.

(** C5 (as stated, refuted). The entry point checks nothing: with
    radius 0 (outside [1,254]) the call completes instead of failing, and
    with a buffer shorter than width*height the first row is rewritten
    before the code reaches its first access outside the buffer, in the
    second row. *)
Lemma entry_no_precheck :
  (~ valid_call 1 1 0 [7] /\
   ~ fails_cleanly (Java_com_jxtras_android_utils_ImageUtils_stackblur 32 1 1 0 (boot [7])) (boot [7])) /\
  (~ valid_call 2 2 1 [0; 255; 0] /\
   pix (final (Java_com_jxtras_android_utils_ImageUtils_stackblur 32 2 2 1 (boot [0; 255; 0]))) = [63; 191; 0] /\
   ~ fails_cleanly (Java_com_jxtras_android_utils_ImageUtils_stackblur 32 2 2 1 (boot [0; 255; 0])) (boot [0; 255; 0])).
Proof.
  split; [split|split; [|split]].
  - unfold valid_call. lia.
  - intros (m' & E & _). vm_compute in E. discriminate E.
  - unfold valid_call. cbn. lia.
  - vm_compute. reflexivity.
  - intros (m' & E & P). vm_compute in E. injection E as <-. discriminate P.
Qed.

(** C5 (amended). The entry point makes no check and has no error to
    report: a call in which a precondition is violated is run like any
    other.  The buffer is left unchanged by a call with radius 0 (width
    and height at least 1, a buffer of width*height bytes), and by a call
    with width or height zero (radius in [0,254], a buffer that holds the
    samples the fill loops read: radius+1 of them when only the width is
    zero, (radius+1)*width when the height is); in both cases the call
    completes.  For a radius above 254 or a buffer shorter than
    width*height nothing of the kind holds: see the counterexample. *)
Theorem entry_unchecked L w h m :
  32 <= L -> 0 <= w < 2 ^ 32 -> 0 <= h < 2 ^ 32 ->
  (1 <= w -> 1 <= h -> w * h < 2 ^ 32 ->
   Z.of_nat (length (pix m)) = w * h -> is_bytes (pix m) = true -> trace m = [] ->
   exists m', Java_com_jxtras_android_utils_ImageUtils_stackblur L w h 0 m = Ok tt m' /\
              pix m' = pix m) /\
  (forall radius,
     0 <= radius <= 254 ->
     (w = 0 /\ (h = 0 \/ radius < Z.of_nat (length (pix m)))) \/
     (h = 0 /\ (radius + 1) * w <= Z.of_nat (length (pix m))) ->
     exists m', Java_com_jxtras_android_utils_ImageUtils_stackblur L w h radius m = Ok tt m' /\
                pix m' = pix m).
Proof.
  intros HL Hw0 Hh0. split.
  - intros Hw Hh Hwh Hlen Hb Ht.
    assert (T0 : Forall (ev_ok 0 (mul_of 0)) (trace m)) by (rewrite Ht; constructor).
    assert (Hpt : forall l x y, is_bytes l = true -> 0 <= peek l (y * w + x) <= 255)
      by (intros; now apply is_bytes_peek).
    destruct (two_passes L HL w h 0 Hw Hh Hwh ltac:(lia) m Hlen Hb T0)
      as (m1 & m2 & _ & _ & E & (L1 & L2) & (B1 & _) & _ & F1 & F2).
    exists m2. split; [exact E|].
    assert (P1 : pix m1 = pix m).
    { apply (pixels_ext w h); [lia|exact Hlen|exact L1|].
      intros x y Hx Hy. rewrite F1 by lia. unfold row. rewrite blurred_radius0; auto. }
    rewrite <- P1. apply (pixels_ext w h); [lia|lia|lia|].
    intros x y Hx Hy. rewrite F2 by lia. unfold col. rewrite blurred_radius0; auto.
  - intros radius Hr Hroom. now apply entry_empty.
Qed.

Lemma entry_unchecked_witness :
  (exists m', Java_com_jxtras_android_utils_ImageUtils_stackblur 32 2 2 0 (boot [1; 2; 3; 255]) = Ok tt m' /\
              pix m' = pix (boot [1; 2; 3; 255])) /\
  (exists m', Java_com_jxtras_android_utils_ImageUtils_stackblur 32 0 0 254 (boot [1; 2; 3; 255]) = Ok tt m' /\
              pix m' = pix (boot [1; 2; 3; 255])) /\
  (exists m', Java_com_jxtras_android_utils_ImageUtils_stackblur 32 0 3 2 (boot [1; 2; 3]) = Ok tt m' /\
              pix m' = pix (boot [1; 2; 3])).
Proof.
  split; [|split].
  - destruct (entry_unchecked 32 2 2 (boot [1; 2; 3; 255])) as [H _]; [lia|lia|lia|].
    apply H; [lia|lia|lia|reflexivity|reflexivity|reflexivity].
  - destruct (entry_unchecked 32 0 0 (boot [1; 2; 3; 255])) as [_ H]; [lia|lia|lia|].
    apply (H 254); [lia|]. left. split; [reflexivity|left; reflexivity].
  - destruct (entry_unchecked 32 0 3 (boot [1; 2; 3])) as [_ H]; [lia|lia|lia|].
    apply (H 2); [lia|]. left. split; [reflexivity|right; cbn; lia].
Defined.

(** C6. From any buffer of bytes, each pass completes, leaves only bytes,
    and at every emission the scaled value is already at most 255: the
    clamp returns it unchanged. *)
Theorem clamp_never_fires L w h radius step m :
  32 <= L -> 1 <= w -> 1 <= h -> w * h < 2 ^ 32 -> 1 <= radius <= 254 ->
  step = 1 \/ step = 2 ->
  Z.of_nat (length (pix m)) = w * h -> is_bytes (pix m) = true -> trace m = [] ->
  exists m',
    stackblur L w h radius step m = Ok tt m' /\
    is_bytes (pix m') = true /\
    Forall (unclamped L radius) (trace m').
Proof.
  intros HL Hw Hh Hwh Hr Hs Hlen Hb Ht.
  assert (T0 : Forall (ev_ok radius (mul_of radius)) (trace m)) by (rewrite Ht; constructor).
  destruct Hs as [-> | ->].
  - destruct (horizontal_pass L HL w h radius Hw Hh Hwh ltac:(lia) m Hlen Hb T0)
      as (m' & E & _ & B & T & _).
    exists m'. repeat split; [exact E|exact B|].
    eapply Forall_impl; [exact T|]. intros e. apply ev_ok_unclamped; lia.
  - destruct (vertical_pass L HL w h radius Hw Hh Hwh ltac:(lia) m Hlen Hb T0)
      as (m' & E & _ & B & T & _).
    exists m'. repeat split; [exact E|exact B|].
    eapply Forall_impl; [exact T|]. intros e. apply ev_ok_unclamped; lia.
Qed.

Lemma clamp_never_fires_witness :
  exists m',
    stackblur 32 2 2 3 2 (boot [255; 255; 255; 0]) = Ok tt m' /\
    is_bytes (pix m') = true /\
    Forall (unclamped 32 3) (trace m').
Proof.
  apply (clamp_never_fires 32 2 2 3 2 (boot [255; 255; 255; 0]));
    first [lia | reflexivity | (right; reflexivity)].
Defined.

(** C7. The entry point is pass 1 followed by pass 2 on the buffer pass 1
    left: pass 1 writes the tent formula along rows of the input, pass 2
    the same formula along columns (n = height, stride = width) of the
    complete output of pass 1. *)
Theorem entry_is_two_passes L w h radius m :
  32 <= L -> 1 <= w -> 1 <= h -> w * h < 2 ^ 32 -> 1 <= radius <= 254 ->
  Z.of_nat (length (pix m)) = w * h -> is_bytes (pix m) = true -> trace m = [] ->
  exists m1 m2,
    stackblur L w h radius 1 m = Ok tt m1 /\
    stackblur L w h radius 2 m1 = Ok tt m2 /\
    Java_com_jxtras_android_utils_ImageUtils_stackblur L w h radius m = Ok tt m2 /\
    (forall x y, 0 <= x < w -> 0 <= y < h ->
                 peek (pix m1) (y * w + x) = blurred radius (row (pix m) w y) w x) /\
    (forall x y, 0 <= x < w -> 0 <= y < h ->
                 peek (pix m2) (y * w + x) = blurred radius (col (pix m1) w x) h y).
Proof.
  intros HL Hw Hh Hwh Hr Hlen Hb Ht.
  destruct (two_passes L HL w h radius Hw Hh Hwh ltac:(lia) m Hlen Hb
              ltac:(rewrite Ht; constructor))
    as (m1 & m2 & E1 & E2 & E & _ & _ & _ & F1 & F2).
  exists m1, m2. repeat split; assumption.
Qed.

Lemma entry_is_two_passes_witness :
  exists m1 m2,
    stackblur 32 3 3 2 1 (boot [10; 200; 30; 40; 50; 60; 70; 80; 90]) = Ok tt m1 /\
    stackblur 32 3 3 2 2 m1 = Ok tt m2 /\
    Java_com_jxtras_android_utils_ImageUtils_stackblur 32 3 3 2 (boot [10; 200; 30; 40; 50; 60; 70; 80; 90]) = Ok tt m2 /\
    (forall x y, 0 <= x < 3 -> 0 <= y < 3 ->
                 peek (pix m1) (y * 3 + x) =
                 blurred 2 (row (pix (boot [10; 200; 30; 40; 50; 60; 70; 80; 90])) 3 y) 3 x) /\
    (forall x y, 0 <= x < 3 -> 0 <= y < 3 ->
                 peek (pix m2) (y * 3 + x) = blurred 2 (col (pix m1) 3 x) 3 y).
Proof.
  apply (entry_is_two_passes 32 3 3 2 (boot [10; 200; 30; 40; 50; 60; 70; 80; 90]));
    first [lia | reflexivity].
Defined.

(** C8. With radius 0 each pass, and so the two in sequence, returns the
    buffer byte for byte; row 0 of the tables is (512, 9). *)
Theorem radius0_identity L w h m :
  32 <= L -> 1 <= w -> 1 <= h -> w * h < 2 ^ 32 ->
  Z.of_nat (length (pix m)) = w * h -> is_bytes (pix m) = true -> trace m = [] ->
  mul_of 0 = 512 /\ shr_of 0 = 9 /\
  (forall v, 0 <= v <= 255 -> Z.shiftr (v * 512) 9 = v) /\
  (exists m1, stackblur L w h 0 1 m = Ok tt m1 /\ pix m1 = pix m) /\
  (exists m2, stackblur L w h 0 2 m = Ok tt m2 /\ pix m2 = pix m) /\
  (exists m', Java_com_jxtras_android_utils_ImageUtils_stackblur L w h 0 m = Ok tt m' /\ pix m' = pix m).
Proof.
  intros HL Hw Hh Hwh Hlen Hb Ht.
  assert (T0 : Forall (ev_ok 0 (mul_of 0)) (trace m)) by (rewrite Ht; constructor).
  assert (Hpt : forall l x y, is_bytes l = true -> 0 <= peek l (y * w + x) <= 255)
    by (intros; now apply is_bytes_peek).
  split; [reflexivity|]. split; [reflexivity|]. split; [|split; [|split]].
  - intros v Hv. destruct (table_facts 0 ltac:(lia)) as (_ & _ & _ & T).
    specialize (T v Hv). change (mul_of 0) with 512 in T. change (shr_of 0) with 9 in T.
    rewrite <- T at 2. f_equal. lia.
  - destruct (horizontal_pass L HL w h 0 Hw Hh Hwh ltac:(lia) m Hlen Hb T0)
      as (m1 & E & Len & _ & _ & F).
    exists m1. split; [exact E|]. apply (pixels_ext w h); [lia|exact Hlen|exact Len|].
    intros x y Hx Hy. rewrite F by lia. unfold row. rewrite blurred_radius0; auto.
  - destruct (vertical_pass L HL w h 0 Hw Hh Hwh ltac:(lia) m Hlen Hb T0)
      as (m2 & E & Len & _ & _ & F).
    exists m2. split; [exact E|]. apply (pixels_ext w h); [lia|exact Hlen|exact Len|].
    intros x y Hx Hy. rewrite F by lia. unfold col. rewrite blurred_radius0; auto.
  - destruct (two_passes L HL w h 0 Hw Hh Hwh ltac:(lia) m Hlen Hb T0)
      as (m1 & m2 & _ & _ & E & (L1 & L2) & (B1 & _) & _ & F1 & F2).
    exists m2. split; [exact E|].
    assert (P1 : pix m1 = pix m).
    { apply (pixels_ext w h); [lia|exact Hlen|exact L1|].
      intros x y Hx Hy. rewrite F1 by lia. unfold row. rewrite blurred_radius0; auto. }
    rewrite <- P1. apply (pixels_ext w h); [lia|lia|lia|].
    intros x y Hx Hy. rewrite F2 by lia. unfold col. rewrite blurred_radius0; auto.
Qed.

Lemma radius0_identity_witness :
  mul_of 0 = 512 /\ shr_of 0 = 9 /\
  (forall v, 0 <= v <= 255 -> Z.shiftr (v * 512) 9 = v) /\
  (exists m1, stackblur 32 2 2 0 1 (boot [1; 2; 3; 255]) = Ok tt m1 /\
              pix m1 = pix (boot [1; 2; 3; 255])) /\
  (exists m2, stackblur 32 2 2 0 2 (boot [1; 2; 3; 255]) = Ok tt m2 /\
              pix m2 = pix (boot [1; 2; 3; 255])) /\
  (exists m', Java_com_jxtras_android_utils_ImageUtils_stackblur 32 2 2 0 (boot [1; 2; 3; 255]) = Ok tt m' /\
              pix m' = pix (boot [1; 2; 3; 255])).
Proof.
  apply (radius0_identity 32 2 2 (boot [1; 2; 3; 255])); first [lia | reflexivity].
Defined.

(** C9. For every radius in [0,254] each pass completes with every value
    assigned to sum within [0, 255*(radius+1)^2] (at most 16,581,375),
    every value of sum_in and sum_out within [0, 255*(2*radius+1)], and
    every product sum*mul below 2^32: nothing wraps in 32 bits. *)
Theorem accumulators_fit_u32 L w h radius step m :
  32 <= L -> 1 <= w -> 1 <= h -> w * h < 2 ^ 32 -> 0 <= radius <= 254 ->
  step = 1 \/ step = 2 ->
  Z.of_nat (length (pix m)) = w * h -> is_bytes (pix m) = true -> trace m = [] ->
  exists m',
    stackblur L w h radius step m = Ok tt m' /\
    Forall (within radius) (trace m') /\
    Forall (fun e => 0 <= snd e < 2 ^ 32) (trace m').
Proof.
  intros HL Hw Hh Hwh Hr Hs Hlen Hb Ht.
  assert (T0 : Forall (ev_ok radius (mul_of radius)) (trace m)) by (rewrite Ht; constructor).
  assert (W : forall m', Forall (ev_ok radius (mul_of radius)) (trace m') ->
                         Forall (within radius) (trace m') /\
                         Forall (fun e => 0 <= snd e < 2 ^ 32) (trace m')).
  { intros m' T.
    assert (Wi : Forall (within radius) (trace m'))
      by (eapply Forall_impl; [exact T|]; intros e; now apply ev_ok_within).
    split; [exact Wi|]. eapply Forall_impl; [exact Wi|].
    intros [[] z]; cbn [within snd]; lia. }
  destruct Hs as [-> | ->].
  - destruct (horizontal_pass L HL w h radius Hw Hh Hwh Hr m Hlen Hb T0)
      as (m' & E & _ & _ & T & _).
    exists m'. split; [exact E|]. now apply W.
  - destruct (vertical_pass L HL w h radius Hw Hh Hwh Hr m Hlen Hb T0)
      as (m' & E & _ & _ & T & _).
    exists m'. split; [exact E|]. now apply W.
Qed.

Lemma accumulators_fit_u32_witness :
  exists m',
    stackblur 32 2 2 254 1 (boot [255; 255; 255; 255]) = Ok tt m' /\
    Forall (within 254) (trace m') /\
    Forall (fun e => 0 <= snd e < 2 ^ 32) (trace m').
Proof.
  apply (accumulators_fit_u32 32 2 2 254 1 (boot [255; 255; 255; 255]));
    first [lia | reflexivity | (left; reflexivity)].
Defined.

(** C10. Under the preconditions no access leaves its array: each pass
    returns [Ok], where a read or write outside the pixel buffer, outside
    the [2*radius+1] cells of the stack or outside a table would have
    returned [Fault] (see [outside_faults]); the buffer keeps its length. *)
Theorem accesses_in_bounds L w h radius m :
  32 <= L -> 1 <= w -> 1 <= h -> w * h < 2 ^ 32 -> 1 <= radius <= 254 ->
  Z.of_nat (length (pix m)) = w * h -> is_bytes (pix m) = true -> trace m = [] ->
  exists m1 m2,
    stackblur L w h radius 1 m = Ok tt m1 /\
    stackblur L w h radius 2 m1 = Ok tt m2 /\
    length (pix m1) = length (pix m) /\ length (pix m2) = length (pix m).
Proof.
  intros HL Hw Hh Hwh Hr Hlen Hb Ht.
  destruct (two_passes L HL w h radius Hw Hh Hwh ltac:(lia) m Hlen Hb
              ltac:(rewrite Ht; constructor))
    as (m1 & m2 & E1 & E2 & _ & (L1 & L2) & _).
  exists m1, m2. repeat split; assumption.
Qed.

Lemma accesses_in_bounds_witness :
  exists m1 m2,
    stackblur 32 3 2 5 1 (boot [9; 8; 7; 6; 5; 4]) = Ok tt m1 /\
    stackblur 32 3 2 5 2 m1 = Ok tt m2 /\
    length (pix m1) = length (pix (boot [9; 8; 7; 6; 5; 4])) /\
    length (pix m2) = length (pix (boot [9; 8; 7; 6; 5; 4])).
Proof.
  apply (accesses_in_bounds 32 3 2 5 (boot [9; 8; 7; 6; 5; 4])); first [lia | reflexivity].
Defined.

(** * Further properties of the code *)

(** ** The clamp macro and the tables *)

Lemma clamp_mono a b min max :
  min <= max -> a <= b -> clamp a min max <= clamp b min max.
Proof.
  intros Hm Hab. unfold clamp.
  destruct (Z.ltb_spec a min), (Z.ltb_spec b min),
           (Z.gtb_spec a max), (Z.gtb_spec b max); lia.
Qed.

(** X1. Every row of the two tables has the same shape: a shift between
    9 and 24, a multiplier between 257 and 512, and the multiplier is the
    least integer whose product with the tent's area (radius+1)^2 reaches
    2^shift, that is the ceiling of 2^shift / (radius+1)^2. *)
Theorem table_is_ceiling radius :
  0 <= radius <= 254 ->
  9 <= shr_of radius <= 24 /\
  257 <= mul_of radius <= 512 /\
  (mul_of radius - 1) * ((radius + 1) * (radius + 1)) < 2 ^ shr_of radius /\
  2 ^ shr_of radius <= mul_of radius * ((radius + 1) * (radius + 1)).
Proof.
  intros H. destruct (table_row_shape_facts radius H) as (A & B & (C & D) & _).
  repeat split; lia.
Qed.

Lemma table_is_ceiling_witness :
  9 <= shr_of 254 <= 24 /\
  257 <= mul_of 254 <= 512 /\
  (mul_of 254 - 1) * ((254 + 1) * (254 + 1)) < 2 ^ shr_of 254 /\
  2 ^ shr_of 254 <= mul_of 254 * ((254 + 1) * (254 + 1)).
Proof. apply (table_is_ceiling 254). lia. Defined.

(** X2. The table-driven division is the true quotient or one more: for
    every radius in [0,254] and every sum s the accumulator can hold,
    0 <= s <= 255*(radius+1)^2, the scaled value (s*mul)>>shr lies between
    s / (radius+1)^2 and s / (radius+1)^2 + 1, and is at most 255. *)
Theorem scale_within_one radius s :
  0 <= radius <= 254 -> 0 <= s <= 255 * ((radius + 1) * (radius + 1)) ->
  s / ((radius + 1) * (radius + 1)) <= scale radius s /\
  scale radius s <= s / ((radius + 1) * (radius + 1)) + 1 /\
  scale radius s <= 255.
Proof. exact (scale_bounds radius s). Qed.

Lemma scale_within_one_witness :
  512 / ((2 + 1) * (2 + 1)) <= scale 2 512 /\
  scale 2 512 <= 512 / ((2 + 1) * (2 + 1)) + 1 /\
  scale 2 512 <= 255.
Proof. apply (scale_within_one 2 512); lia. Defined.

(** X3. Where radius+1 is a power of two (radius 0, 1, 3, 7, 15, 31, 63,
    127) the multiplier is 512 and the division is exact: on every sum s
    the accumulator can hold, 0 <= s <= 255*(radius+1)^2, the value
    (s*mul)>>shr of lines 118 and 182, computed in [unsigned long]
    arithmetic of any width of 32 bits or more, is the quotient
    s / (radius+1)^2. *)
Theorem scale_exact_pow2 L k s :
  32 <= L -> 0 <= k <= 7 -> 0 <= s <= 255 * (2 ^ k * 2 ^ k) ->
  mul_of (2 ^ k - 1) = 512 /\
  Z.shiftr ((s * mul_of (2 ^ k - 1)) mod 2 ^ L) (shr_of (2 ^ k - 1)) = s / (2 ^ k * 2 ^ k) /\
  scale (2 ^ k - 1) s = s / (2 ^ k * 2 ^ k).
Proof.
  intros HL Hk Hs.
  assert (E : mul_of (2 ^ k - 1) = 512 /\ scale (2 ^ k - 1) s = s / (2 ^ k * 2 ^ k)).
  { assert (C : k = 0 \/ k = 1 \/ k = 2 \/ k = 3 \/ k = 4 \/ k = 5 \/ k = 6 \/ k = 7) by lia.
    destruct C as [->|[->|[->|[->|[->|[->|[->| ->]]]]]]];
      (split; [reflexivity|]);
      unfold scale;
      match goal with
      | |- Z.shiftr _ (shr_of ?r) = _ =>
          let m := eval vm_compute in (mul_of r) in
          let sh := eval vm_compute in (shr_of r) in
          change (mul_of r) with m; change (shr_of r) with sh
      end;
      rewrite Z.shiftr_div_pow2 by lia;
      match goal with
      | |- (s * 512) / ?n = s / ?d =>
          let d' := eval vm_compute in d in
          change d with d'; change n with (d' * 512)
      end;
      apply Z.div_mul_cancel_r; lia. }
  destruct E as [Em Es]. split; [exact Em|]. split; [|exact Es].
  rewrite <- Es. unfold scale. rewrite wrap_small; [reflexivity|exact HL|].
  rewrite Em.
  assert (P : 0 < 2 ^ k <= 2 ^ 7)
    by (split; [apply Z.pow_pos_nonneg; lia|apply Z.pow_le_mono_r; lia]).
  assert (2 ^ k * 2 ^ k <= 2 ^ 7 * 2 ^ 7) by (apply Z.mul_le_mono_nonneg; lia).
  lia.
Qed.

Lemma scale_exact_pow2_witness :
  mul_of (2 ^ 3 - 1) = 512 /\
  Z.shiftr ((1000 * mul_of (2 ^ 3 - 1)) mod 2 ^ 32) (shr_of (2 ^ 3 - 1)) = 1000 / (2 ^ 3 * 2 ^ 3) /\
  scale (2 ^ 3 - 1) 1000 = 1000 / (2 ^ 3 * 2 ^ 3).
Proof. apply (scale_exact_pow2 32 3 1000); lia. Defined.

(** ** A step that is neither 1 nor 2 *)

(** X4. [stackblur] called with a step other than 1 or 2 and a radius of
    the table reads the tables, sets up the stack and returns: no sample
    is read or written, whatever the width, the height and the buffer. *)
Theorem other_step_is_noop L w h radius step m :
  step <> 1 -> step <> 2 -> 0 <= radius <= 254 ->
  stackblur L w h radius step m =
  Ok tt (Machine (pix m)
                 (resize (Z.to_nat (u32 (u32 (radius * 2) + 1))) 0 (stk m))
                 (trace m)).
Proof.
  intros H1 H2 Hr. destruct table_length as [Lm Ls].
  unfold stackblur. cbv zeta.
  rewrite run_table_read by (rewrite Lm; lia).
  rewrite run_table_read by (rewrite Ls; lia).
  rewrite run_alloc_stack.
  replace (step =? 1) with false by (symmetry; apply Z.eqb_neq; exact H1).
  replace (step =? 2) with false by (symmetry; apply Z.eqb_neq; exact H2).
  reflexivity.
Qed.

Lemma other_step_is_noop_witness :
  stackblur 32 0 (-4) 7 3 (boot [1; 2]) =
  Ok tt (Machine (pix (boot [1; 2]))
                 (resize (Z.to_nat (u32 (u32 (7 * 2) + 1))) 0 (stk (boot [1; 2])))
                 (trace (boot [1; 2]))).
Proof. apply (other_step_is_noop 32 0 (-4) 7 3 (boot [1; 2])); lia. Defined.

(** ** What the blurred value depends on, and how *)

Lemma tent_ext radius line line' n x :
  (forall k, - radius <= k <= radius ->
             line (clamp_index (x + k) n) = line' (clamp_index (x + k) n)) ->
  tent radius line n x = tent radius line' n x.
Proof.
  intros E. unfold tent. apply Zsum_ext. intros k Hk. rewrite E by lia. reflexivity.
Qed.

Lemma tent_mono radius line line' n x :
  1 <= n -> (forall j, 0 <= j < n -> line j <= line' j) ->
  tent radius line n x <= tent radius line' n x.
Proof.
  intros Hn E. unfold tent. apply Zsum_le. intros k Hk.
  apply Z.mul_le_mono_nonneg_l; [lia|]. apply E, clamp_index_range. lia.
Qed.

Lemma blurred_mono radius line line' n x :
  0 <= radius <= 254 -> 1 <= n -> (forall j, 0 <= j < n -> line j <= line' j) ->
  blurred radius line n x <= blurred radius line' n x.
Proof.
  intros Hr Hn E. unfold blurred. apply clamp_mono; [lia|].
  apply scale_mono; [lia|]. now apply tent_mono.
Qed.

(** A line within [lo, hi] blurs within [lo, hi]. *)
Lemma blurred_between radius line n x lo hi :
  0 <= radius <= 254 -> 1 <= n -> 0 <= lo <= 255 -> 0 <= hi <= 255 ->
  (forall j, 0 <= j < n -> lo <= line j <= hi) ->
  lo <= blurred radius line n x <= hi.
Proof.
  intros Hr Hn Hlo Hhi E. split.
  - pose proof (blurred_mono radius (fun _ => lo) line n x Hr Hn
                  ltac:(intros j Hj; apply E; lia)) as Mo.
    now rewrite (blurred_flat radius (fun _ => lo) n x lo) in Mo by (auto; lia).
  - pose proof (blurred_mono radius line (fun _ => hi) n x Hr Hn
                  ltac:(intros j Hj; apply E; lia)) as Mo.
    now rewrite (blurred_flat radius (fun _ => hi) n x hi) in Mo by (auto; lia).
Qed.

(** X5. The horizontal pass is local: the sample it leaves at (x, y)
    depends only on the samples of row y at most radius columns away
    (columns clamped to the row).  Two buffers that agree there get the
    same output at (x, y), whatever they hold elsewhere. *)
Theorem horizontal_pass_local L w h radius m m' x y :
  32 <= L -> 1 <= w -> 1 <= h -> w * h < 2 ^ 32 -> 0 <= radius <= 254 ->
  Z.of_nat (length (pix m)) = w * h -> is_bytes (pix m) = true -> trace m = [] ->
  Z.of_nat (length (pix m')) = w * h -> is_bytes (pix m') = true -> trace m' = [] ->
  0 <= x < w -> 0 <= y < h ->
  (forall k, - radius <= k <= radius ->
             peek (pix m) (y * w + clamp_index (x + k) w) =
             peek (pix m') (y * w + clamp_index (x + k) w)) ->
  exists m1 m1',
    stackblur L w h radius 1 m = Ok tt m1 /\
    stackblur L w h radius 1 m' = Ok tt m1' /\
    peek (pix m1) (y * w + x) = peek (pix m1') (y * w + x).
Proof.
  intros HL Hw Hh Hwh Hr Hlen Hb Ht Hlen' Hb' Ht' Hx Hy E.
  destruct (horizontal_pass L HL w h radius Hw Hh Hwh Hr m Hlen Hb
              ltac:(rewrite Ht; constructor)) as (m1 & E1 & _ & _ & _ & F1).
  destruct (horizontal_pass L HL w h radius Hw Hh Hwh Hr m' Hlen' Hb'
              ltac:(rewrite Ht'; constructor)) as (m1' & E1' & _ & _ & _ & F1').
  exists m1, m1'. repeat split; [exact E1|exact E1'|].
  rewrite F1, F1' by lia. unfold blurred. do 2 f_equal.
  apply tent_ext. intros k Hk. unfold row. now apply E.
Qed.

Lemma horizontal_pass_local_witness :
  exists m1 m1',
    stackblur 32 4 2 1 1 (boot [1; 2; 3; 4; 5; 6; 7; 8]) = Ok tt m1 /\
    stackblur 32 4 2 1 1 (boot [1; 2; 3; 99; 50; 60; 70; 80]) = Ok tt m1' /\
    peek (pix m1) (0 * 4 + 1) = peek (pix m1') (0 * 4 + 1).
Proof.
  apply (horizontal_pass_local 32 4 2 1 (boot [1; 2; 3; 4; 5; 6; 7; 8])
           (boot [1; 2; 3; 99; 50; 60; 70; 80]) 1 0); try first [lia | reflexivity].
  intros k Hk. assert (C : k = -1 \/ k = 0 \/ k = 1) by lia.
  destruct C as [->|[->| ->]]; reflexivity.
Defined.

(** ** The whole blur: order, range, degenerate lines *)

(** X6. The blur is monotone: if one buffer is at most another at every
    pixel, the entry point leaves the first at most the second at every
    pixel. *)
Theorem blur_is_monotone L w h radius m m' :
  32 <= L -> 1 <= w -> 1 <= h -> w * h < 2 ^ 32 -> 0 <= radius <= 254 ->
  Z.of_nat (length (pix m)) = w * h -> is_bytes (pix m) = true -> trace m = [] ->
  Z.of_nat (length (pix m')) = w * h -> is_bytes (pix m') = true -> trace m' = [] ->
  (forall p, 0 <= p < w * h -> peek (pix m) p <= peek (pix m') p) ->
  exists m2 m2',
    Java_com_jxtras_android_utils_ImageUtils_stackblur L w h radius m = Ok tt m2 /\
    Java_com_jxtras_android_utils_ImageUtils_stackblur L w h radius m' = Ok tt m2' /\
    forall p, 0 <= p < w * h -> peek (pix m2) p <= peek (pix m2') p.
Proof.
  intros HL Hw Hh Hwh Hr Hlen Hb Ht Hlen' Hb' Ht' Hle.
  destruct (two_passes L HL w h radius Hw Hh Hwh Hr m Hlen Hb
              ltac:(rewrite Ht; constructor))
    as (m1 & m2 & _ & _ & E & _ & _ & _ & F1 & F2).
  destruct (two_passes L HL w h radius Hw Hh Hwh Hr m' Hlen' Hb'
              ltac:(rewrite Ht'; constructor))
    as (m1' & m2' & _ & _ & E' & _ & _ & _ & F1' & F2').
  exists m2, m2'. repeat split; [exact E|exact E'|].
  intros p Hp. destruct (offset_pixel w h p Hw Hp) as (x & y & Hx & Hy & ->).
  rewrite F2, F2' by lia. apply blurred_mono; [lia|lia|].
  intros j Hj. unfold col. rewrite F1, F1' by lia. apply blurred_mono; [lia|lia|].
  intros i Hi. unfold row. apply Hle. apply rowmajor_fit; lia.
Qed.

Lemma blur_is_monotone_witness :
  exists m2 m2',
    Java_com_jxtras_android_utils_ImageUtils_stackblur 32 2 2 1 (boot [1; 20; 3; 40])
    = Ok tt m2 /\
    Java_com_jxtras_android_utils_ImageUtils_stackblur 32 2 2 1 (boot [5; 20; 30; 41])
    = Ok tt m2' /\
    forall p, 0 <= p < 2 * 2 -> peek (pix m2) p <= peek (pix m2') p.
Proof.
  apply (blur_is_monotone 32 2 2 1 (boot [1; 20; 3; 40]) (boot [5; 20; 30; 41]));
    try first [lia | reflexivity].
  intros p Hp. assert (C : p = 0 \/ p = 1 \/ p = 2 \/ p = 3) by lia.
  destruct C as [->|[->|[->| ->]]]; vm_compute; discriminate.
Defined.

(** X7. The blur never leaves the range of its input: if every sample
    is between lo and hi, every sample the entry point leaves is between
    lo and hi. *)
Theorem blur_stays_in_range L w h radius lo hi m :
  32 <= L -> 1 <= w -> 1 <= h -> w * h < 2 ^ 32 -> 0 <= radius <= 254 ->
  Z.of_nat (length (pix m)) = w * h -> trace m = [] ->
  0 <= lo -> hi <= 255 ->
  (forall p, 0 <= p < w * h -> lo <= peek (pix m) p <= hi) ->
  exists m2,
    Java_com_jxtras_android_utils_ImageUtils_stackblur L w h radius m = Ok tt m2 /\
    forall p, 0 <= p < w * h -> lo <= peek (pix m2) p <= hi.
Proof.
  intros HL Hw Hh Hwh Hr Hlen Ht Hlo Hhi Hin.
  assert (Hlh : lo <= hi) by (specialize (Hin 0 ltac:(lia)); lia).
  assert (Hb : is_bytes (pix m) = true).
  { unfold is_bytes. apply forallb_forall. intros v Hv.
    apply In_nth with (d := 0) in Hv. destruct Hv as (k & Hk & <-).
    specialize (Hin (Z.of_nat k) ltac:(lia)). unfold peek in Hin.
    rewrite Nat2Z.id in Hin. apply andb_true_intro. split; lia. }
  destruct (two_passes L HL w h radius Hw Hh Hwh Hr m Hlen Hb
              ltac:(rewrite Ht; constructor))
    as (m1 & m2 & _ & _ & E & _ & _ & _ & F1 & F2).
  exists m2. split; [exact E|].
  intros p Hp. destruct (offset_pixel w h p Hw Hp) as (x & y & Hx & Hy & ->).
  rewrite F2 by lia. apply blurred_between; [lia|lia|lia|lia|].
  intros j Hj. unfold col. rewrite F1 by lia. apply blurred_between; [lia|lia|lia|lia|].
  intros i Hi. unfold row. apply Hin. apply rowmajor_fit; lia.
Qed.

Lemma blur_stays_in_range_witness :
  exists m2,
    Java_com_jxtras_android_utils_ImageUtils_stackblur 32 2 2 3 (boot [10; 20; 30; 40])
    = Ok tt m2 /\
    forall p, 0 <= p < 2 * 2 -> 10 <= peek (pix m2) p <= 40.
Proof.
  apply (blur_stays_in_range 32 2 2 3 10 40 (boot [10; 20; 30; 40]));
    try first [lia | reflexivity].
  intros p Hp. assert (C : p = 0 \/ p = 1 \/ p = 2 \/ p = 3) by lia.
  destruct C as [->|[->|[->| ->]]]; vm_compute; split; discriminate.
Defined.

(** X8. Lines of one sample are left alone: the horizontal pass returns
    a buffer of width 1 as it was, and the vertical pass a buffer of
    height 1, for every radius of the table. *)
Theorem one_sample_lines_unchanged L w h radius m :
  32 <= L -> 1 <= w -> 1 <= h -> w * h < 2 ^ 32 -> 0 <= radius <= 254 ->
  Z.of_nat (length (pix m)) = w * h -> is_bytes (pix m) = true -> trace m = [] ->
  (w = 1 -> exists m', stackblur L w h radius 1 m = Ok tt m' /\ pix m' = pix m) /\
  (h = 1 -> exists m', stackblur L w h radius 2 m = Ok tt m' /\ pix m' = pix m).
Proof.
  intros HL Hw Hh Hwh Hr Hlen Hb Ht.
  assert (T0 : Forall (ev_ok radius (mul_of radius)) (trace m)) by (rewrite Ht; constructor).
  split; intros H1.
  - destruct (horizontal_pass L HL w h radius Hw Hh Hwh Hr m Hlen Hb T0)
      as (m' & E & Len & _ & _ & F).
    exists m'. split; [exact E|]. apply (pixels_ext w h); [lia|exact Hlen|exact Len|].
    intros x y Hx Hy. rewrite F by lia.
    apply blurred_flat; [lia|lia|apply is_bytes_peek, Hb|].
    intros j Hj. unfold row. f_equal. lia.
  - destruct (vertical_pass L HL w h radius Hw Hh Hwh Hr m Hlen Hb T0)
      as (m' & E & Len & _ & _ & F).
    exists m'. split; [exact E|]. apply (pixels_ext w h); [lia|exact Hlen|exact Len|].
    intros x y Hx Hy. rewrite F by lia.
    apply blurred_flat; [lia|lia|apply is_bytes_peek, Hb|].
    intros j Hj. unfold col. f_equal. lia.
Qed.

Lemma one_sample_lines_unchanged_witness :
  (1 = 1 -> exists m', stackblur 32 1 3 2 1 (boot [7; 100; 255]) = Ok tt m' /\
                       pix m' = pix (boot [7; 100; 255])) /\
  (3 = 1 -> exists m', stackblur 32 1 3 2 2 (boot [7; 100; 255]) = Ok tt m' /\
                       pix m' = pix (boot [7; 100; 255])).
Proof.
  apply (one_sample_lines_unchanged 32 1 3 2 (boot [7; 100; 255])); first [lia | reflexivity].
Defined.

(** ** The two passes against each other *)

(** X9. The vertical pass is the horizontal pass of the transposed
    image: if one buffer is the transpose of another, step 2 on the
    first (w by h) and step 1 on the second (h by w) leave transposed
    results. *)
Theorem vertical_is_horizontal_of_transpose L w h radius m mT :
  32 <= L -> 1 <= w -> 1 <= h -> w * h < 2 ^ 32 -> 0 <= radius <= 254 ->
  Z.of_nat (length (pix m)) = w * h -> is_bytes (pix m) = true -> trace m = [] ->
  Z.of_nat (length (pix mT)) = w * h -> is_bytes (pix mT) = true -> trace mT = [] ->
  (forall x y, 0 <= x < w -> 0 <= y < h ->
               peek (pix mT) (x * h + y) = peek (pix m) (y * w + x)) ->
  exists m2 mT1,
    stackblur L w h radius 2 m = Ok tt m2 /\
    stackblur L h w radius 1 mT = Ok tt mT1 /\
    forall x y, 0 <= x < w -> 0 <= y < h ->
                peek (pix mT1) (x * h + y) = peek (pix m2) (y * w + x).
Proof.
  intros HL Hw Hh Hwh Hr Hlen Hb Ht HlenT HbT HtT Htr.
  destruct (vertical_pass L HL w h radius Hw Hh Hwh Hr m Hlen Hb
              ltac:(rewrite Ht; constructor)) as (m2 & E2 & _ & _ & _ & F2).
  destruct (horizontal_pass L HL h w radius Hh Hw ltac:(lia) Hr mT ltac:(lia) HbT
              ltac:(rewrite HtT; constructor)) as (mT1 & E1 & _ & _ & _ & F1).
  exists m2, mT1. repeat split; [exact E2|exact E1|].
  intros x y Hx Hy. rewrite F1, F2 by lia.
  apply blurred_ext; [lia|lia|]. intros j Hj. unfold row, col. apply Htr; lia.
Qed.

Lemma vertical_is_horizontal_of_transpose_witness :
  exists m2 mT1,
    stackblur 32 3 2 1 2 (boot [1; 2; 3; 4; 5; 6]) = Ok tt m2 /\
    stackblur 32 2 3 1 1 (boot [1; 4; 2; 5; 3; 6]) = Ok tt mT1 /\
    forall x y, 0 <= x < 3 -> 0 <= y < 2 ->
                peek (pix mT1) (x * 2 + y) = peek (pix m2) (y * 3 + x).
Proof.
  apply (vertical_is_horizontal_of_transpose 32 3 2 1 (boot [1; 2; 3; 4; 5; 6])
           (boot [1; 4; 2; 5; 3; 6])); try first [lia | reflexivity].
  intros x y Hx Hy.
  assert (Cx : x = 0 \/ x = 1 \/ x = 2) by lia. assert (Cy : y = 0 \/ y = 1) by lia.
  destruct Cx as [->|[->| ->]]; destruct Cy as [->| ->]; reflexivity.
Defined.

(** ** Left and right are alike *)

Lemma sum_from_reflect n : forall lo g,
  sum_from n lo g = sum_from n (1 - lo - Z.of_nat n) (fun k => g (- k)).
Proof.
  induction n as [|n IH]; intros lo g; [reflexivity|].
  replace (S n) with (n + 1)%nat at 2 by lia.
  rewrite sum_from_app. cbn [sum_from]. rewrite (IH (lo + 1) g).
  replace (1 - (lo + 1) - Z.of_nat n) with (1 - lo - Z.of_nat (S n)) by lia.
  replace (- (1 - lo - Z.of_nat (S n) + Z.of_nat n)) with lo by lia.
  lia.
Qed.

Lemma Zsum_reflect lo hi g :
  lo <= hi -> Zsum lo hi g = Zsum (1 - hi) (1 - lo) (fun k => g (- k)).
Proof.
  intros H. unfold Zsum. rewrite sum_from_reflect.
  replace (Z.to_nat (1 - lo - (1 - hi))) with (Z.to_nat (hi - lo)) by lia.
  f_equal. lia.
Qed.

Lemma clamp_index_flip i n : 1 <= n -> clamp_index (n - 1 - i) n = n - 1 - clamp_index i n.
Proof. intros H. unfold clamp_index. lia. Qed.

Lemma tent_mirror radius line n x :
  0 <= radius -> 1 <= n ->
  tent radius (fun j => line (n - 1 - j)) n x = tent radius line n (n - 1 - x).
Proof.
  intros Hr Hn. unfold tent.
  rewrite (Zsum_reflect (- radius) (radius + 1)
             (fun k => (radius + 1 - Z.abs k) * line (clamp_index (n - 1 - x + k) n)))
    by lia.
  replace (1 - (radius + 1)) with (- radius) by lia.
  replace (1 - - radius) with (radius + 1) by lia.
  apply Zsum_ext. intros k Hk. cbv beta. rewrite Z.abs_opp. f_equal.
  rewrite <- clamp_index_flip by lia. do 2 f_equal. lia.
Qed.

(** X10. The horizontal pass treats left and right alike: on a buffer
    whose rows are mirrored it leaves the mirrored rows of what it leaves
    on the buffer itself. *)
Theorem horizontal_pass_mirror L w h radius m mF :
  32 <= L -> 1 <= w -> 1 <= h -> w * h < 2 ^ 32 -> 0 <= radius <= 254 ->
  Z.of_nat (length (pix m)) = w * h -> is_bytes (pix m) = true -> trace m = [] ->
  Z.of_nat (length (pix mF)) = w * h -> is_bytes (pix mF) = true -> trace mF = [] ->
  (forall x y, 0 <= x < w -> 0 <= y < h ->
               peek (pix mF) (y * w + x) = peek (pix m) (y * w + (w - 1 - x))) ->
  exists m1 mF1,
    stackblur L w h radius 1 m = Ok tt m1 /\
    stackblur L w h radius 1 mF = Ok tt mF1 /\
    forall x y, 0 <= x < w -> 0 <= y < h ->
                peek (pix mF1) (y * w + x) = peek (pix m1) (y * w + (w - 1 - x)).
Proof.
  intros HL Hw Hh Hwh Hr Hlen Hb Ht HlenF HbF HtF Hfl.
  destruct (horizontal_pass L HL w h radius Hw Hh Hwh Hr m Hlen Hb
              ltac:(rewrite Ht; constructor)) as (m1 & E1 & _ & _ & _ & F1).
  destruct (horizontal_pass L HL w h radius Hw Hh Hwh Hr mF HlenF HbF
              ltac:(rewrite HtF; constructor)) as (mF1 & EF & _ & _ & _ & FF).
  exists m1, mF1. repeat split; [exact E1|exact EF|].
  intros x y Hx Hy. rewrite FF, F1 by lia.
  rewrite (blurred_ext radius (row (pix mF) w y)
             (fun j => row (pix m) w y (w - 1 - j)) w x); [|lia|lia|].
  - unfold blurred. now rewrite tent_mirror by lia.
  - intros j Hj. unfold row. now apply Hfl.
Qed.

Lemma horizontal_pass_mirror_witness :
  exists m1 mF1,
    stackblur 32 3 1 1 1 (boot [10; 200; 30]) = Ok tt m1 /\
    stackblur 32 3 1 1 1 (boot [30; 200; 10]) = Ok tt mF1 /\
    forall x y, 0 <= x < 3 -> 0 <= y < 1 ->
                peek (pix mF1) (y * 3 + x) = peek (pix m1) (y * 3 + (3 - 1 - x)).
Proof.
  apply (horizontal_pass_mirror 32 3 1 1 (boot [10; 200; 30]) (boot [30; 200; 10]));
    try first [lia | reflexivity].
  intros x y Hx Hy. assert (y = 0) by lia. subst y.
  assert (Cx : x = 0 \/ x = 1 \/ x = 2) by lia.
  destruct Cx as [->|[->| ->]]; reflexivity.
Defined.

(** ** What a completed run tells about its arguments *)

Lemma bind_ok_inv {A B} (c : M A) (k : A -> M B) m b m' :
  bind c k m = Ok b m' -> exists a m1, c m = Ok a m1 /\ k a m1 = Ok b m'.
Proof.
  unfold bind. destruct (c m) as [a m1|m1]; [|discriminate].
  intros H. now exists a, m1.
Qed.

Lemma in_range_inv l p : in_range l p = true -> 0 <= p < Z.of_nat (length l).
Proof. unfold in_range. intros H. apply andb_prop in H. lia. Qed.

Lemma keeps_len_ret {A} (a : A) : keeps_len (ret a).
Proof. intros m. reflexivity. Qed.

Lemma keeps_len_bind {A B} (c : M A) (k : A -> M B) :
  keeps_len c -> (forall a, keeps_len (k a)) -> keeps_len (bind c k).
Proof.
  intros Hc Hk m. unfold bind. specialize (Hc m).
  destruct (c m) as [a m1|m1]; cbn [final] in *.
  - now rewrite Hk.
  - exact Hc.
Qed.

Lemma keeps_len_of_pix {A} (c : M A) : keeps_pix c -> keeps_len c.
Proof. intros H m. now rewrite H. Qed.

Lemma keeps_len_store_src p v : keeps_len (store_src p v).
Proof.
  intros m. unfold store_src. destruct (in_range (pix m) p); cbn [final pix].
  - apply length_insert.
  - reflexivity.
Qed.

Lemma keeps_len_for_loop {St} (body : Z -> St -> M St) n :
  (forall i s, keeps_len (body i s)) -> forall from s, keeps_len (for_loop n from body s).
Proof.
  intros Hb. induction n as [|n IH]; intros from s; cbn [for_loop].
  - apply keeps_len_ret.
  - apply keeps_len_bind; [apply Hb|]. intros s'. apply IH.
Qed.

Lemma keeps_len_ok {A} (c : M A) m a m' :
  keeps_len c -> c m = Ok a m' -> length (pix m') = length (pix m).
Proof. intros H E. specialize (H m). now rewrite E in H. Qed.

Create HintDb keeps_len.

Lemma keeps_len_assign L a z : keeps_len (assign L a z).
Proof. apply keeps_len_of_pix, keeps_assign. Qed.

Lemma keeps_len_alloc_stack d : keeps_len (alloc_stack d).
Proof. apply keeps_len_of_pix, keeps_alloc_stack. Qed.

Lemma keeps_len_table_read t i : keeps_len (table_read t i).
Proof. apply keeps_len_of_pix, keeps_table_read. Qed.

Lemma keeps_len_load_src p : keeps_len (load_src p).
Proof. apply keeps_len_of_pix, keeps_load_src. Qed.

Lemma keeps_len_load_stack i : keeps_len (load_stack i).
Proof. apply keeps_len_of_pix, keeps_load_stack. Qed.

Lemma keeps_len_store_stack i v : keeps_len (store_stack i v).
Proof. apply keeps_len_of_pix, keeps_store_stack. Qed.

#[local] Hint Resolve keeps_len_ret keeps_len_store_src keeps_len_assign
  keeps_len_alloc_stack keeps_len_table_read keeps_len_load_src keeps_len_load_stack
  keeps_len_store_stack : keeps_len.

Ltac keeps_len := repeat (apply keeps_len_bind; [auto with keeps_len|intros ?]);
                  auto with keeps_len.

Lemma keeps_len_slide L radius div mul_sum shr_sum nm stride x r :
  keeps_len (slide L radius div mul_sum shr_sum nm stride x r).
Proof. unfold slide. cbv zeta. keeps_len. Qed.

Lemma keeps_len_blur_line L radius div mul_sum shr_sum n nm stride base pix_ptr :
  keeps_len (blur_line L radius div mul_sum shr_sum n nm stride base pix_ptr).
Proof.
  unfold blur_line.
  do 3 (apply keeps_len_bind; [auto with keeps_len|intros ?]).
  apply keeps_len_bind;
    [apply keeps_len_for_loop; intros; apply keeps_len_of_pix, keeps_fill_edge|intros ?].
  apply keeps_len_bind;
    [apply keeps_len_for_loop; intros; apply keeps_len_of_pix, keeps_fill_ahead|intros ?].
  cbv zeta. apply keeps_len_bind; [|intros ?; apply keeps_len_ret].
  apply keeps_len_for_loop. intros. apply keeps_len_slide.
Qed.

Lemma keeps_len_stackblur L w h radius step : keeps_len (stackblur L w h radius step).
Proof.
  unfold stackblur. cbv zeta.
  do 3 (apply keeps_len_bind; [auto with keeps_len|intros ?]).
  apply keeps_len_bind; [|intros ?].
  - destruct (step =? 1); [|apply keeps_len_ret].
    apply keeps_len_for_loop. intros y []. rewrite step1_row_line.
    apply keeps_len_blur_line.
  - destruct (step =? 2); [|apply keeps_len_ret].
    apply keeps_len_for_loop. intros x []. rewrite step2_col_line.
    apply keeps_len_blur_line.
Qed.

(** The loop rule for runs known to complete. *)
Lemma for_loop_ok_inv {St : Type} (I : Z -> St -> machine -> Prop)
      (body : Z -> St -> M St) n :
  forall from s m s' m',
    I from s m ->
    (forall i s m s1 m1, from <= i < from + Z.of_nat n -> I i s m ->
                         body i s m = Ok s1 m1 -> I (i + 1) s1 m1) ->
    for_loop n from body s m = Ok s' m' -> I (from + Z.of_nat n) s' m'.
Proof.
  induction n as [|n IH]; intros from s m s' m' H0 Hstep E.
  - cbn in E. injection E as <- <-. now replace (from + Z.of_nat 0) with from by lia.
  - cbn [for_loop] in E. apply bind_ok_inv in E. destruct E as (s1 & m1 & E1 & E).
    replace (from + Z.of_nat (S n)) with (from + 1 + Z.of_nat n) by lia.
    apply (IH (from + 1) s1 m1 s' m').
    + apply (Hstep from s m); [lia|exact H0|exact E1].
    + intros i s2 m2 s3 m3 Hi. apply Hstep. lia.
    + exact E.
Qed.

(** An iteration of the main loop that completes has written inside the
    buffer and moved the write pointer one sample on. *)
Lemma slide_ok L radius div mul_sum shr_sum nm stride x r m r' m' :
  slide L radius div mul_sum shr_sum nm stride x r m = Ok r' m' ->
  0 <= dst_ptr r < Z.of_nat (length (pix m)) /\
  dst_ptr r' = dst_ptr r + stride /\
  length (pix m') = length (pix m).
Proof.
  intros H.
  pose proof (keeps_len_ok _ _ _ _ (keeps_len_slide L radius div mul_sum shr_sum nm stride x r)
                H) as Len.
  unfold slide in H. cbv zeta in H.
  rewrite run_assign in H.
  apply bind_ok_inv in H. destruct H as ([] & m1 & Hst & H).
  unfold store_src in Hst. cbn [pix stk trace] in Hst.
  destruct (in_range (pix m) (dst_ptr r)) eqn:R; [|discriminate].
  apply in_range_inv in R.
  repeat (apply bind_ok_inv in H; destruct H as (? & ? & _ & H)).
  unfold ret in H. injection H as <- _.
  repeat split; [lia|lia|exact Len].
Qed.

(** A line that completes lies inside the buffer. *)
Lemma blur_line_ok L radius div mul_sum shr_sum n nm stride base pix_ptr m m' :
  1 <= n -> 0 <= stride ->
  blur_line L radius div mul_sum shr_sum n nm stride base pix_ptr m = Ok tt m' ->
  0 <= base /\ base + (n - 1) * stride < Z.of_nat (length (pix m)) /\
  length (pix m') = length (pix m).
Proof.
  intros Hn Hs H.
  pose proof (keeps_len_ok _ _ _ _
                (keeps_len_blur_line L radius div mul_sum shr_sum n nm stride base pix_ptr) H)
    as Len.
  unfold blur_line in H. rewrite !run_assign in H. cbn [pix stk trace] in H.
  apply bind_ok_inv in H. destruct H as (a & ma & Ea & H).
  apply bind_ok_inv in H. destruct H as (b & mb & Eb & H).
  cbv zeta in H. apply bind_ok_inv in H. destruct H as (r & mr & Er & _).
  apply (keeps_len_ok _ _ _ _
           (keeps_len_for_loop _ _
              (fun i s => keeps_len_of_pix _ (keeps_fill_edge L base i s)) _ _)) in Ea.
  apply (keeps_len_ok _ _ _ _
           (keeps_len_for_loop _ _
              (fun i s => keeps_len_of_pix _ (keeps_fill_ahead L radius nm stride i s)) _ _))
    in Eb.
  cbn [pix] in Ea.
  match type of Er with
  | for_loop _ _ _ ?r0 _ = _ =>
      pose proof (for_loop_ok_inv
                (fun x (r : regs) (mm : machine) =>
                   dst_ptr r = base + x * stride /\
                   length (pix mm) = length (pix m) /\
                   (0 < x -> 0 <= base /\
                             base + (x - 1) * stride < Z.of_nat (length (pix m))))
                (slide L radius div mul_sum shr_sum nm stride) (Z.to_nat n) 0 r0 mb r mr)
        as Inv
  end.
  cbv beta in Inv. rewrite Z.add_0_l, Z2Nat.id in Inv by lia.
  destruct Inv as (_ & _ & Fin).
  - cbn [dst_ptr]. repeat split; [lia|congruence|lia|lia].
  - intros x s mm s1 m1 Hx (D & Lm & Prev) Es.
    apply slide_ok in Es. destruct Es as (R & D1 & L1).
    assert (0 <= x * stride) by (apply Z.mul_nonneg_nonneg; lia).
    split; [lia|]. split; [lia|]. intros _.
    replace (x + 1 - 1) with x by lia. rewrite <- Lm. lia.
  - exact Er.
  - destruct (Fin ltac:(lia)) as (B0 & B1). repeat split; [exact B0|exact B1|exact Len].
Qed.

(** X11. What memory safety of a pass needs.  A pass over an image of
    at least one sample reads entry [radius] of the two tables and writes
    the sample at offset width*height-1, without a check.  So a run in
    which every access stays inside the tables, the stack and the buffer
    (the runs that return [Ok]) was given a radius in [0,254] and a
    buffer of at least width*height bytes: with a larger radius, or a
    shorter buffer, the code makes an access outside an array, whose
    behaviour the language leaves undefined.  Whatever the accesses, no
    statement changes the length of the buffer. *)
Theorem in_bounds_pass_needs_room L w h radius step m m' :
  1 <= w -> 1 <= h -> w * h < 2 ^ 32 -> step = 1 \/ step = 2 ->
  stackblur L w h radius step m = Ok tt m' ->
  0 <= radius <= 254 /\
  w * h <= Z.of_nat (length (pix m)) /\
  length (pix m') = length (pix m).
Proof.
  intros Hw Hh Hwh Hs H.
  pose proof (keeps_len_ok _ _ _ _ (keeps_len_stackblur L w h radius step) H) as Len.
  assert (Hr : 0 <= radius <= 254).
  { destruct (Z.lt_ge_cases 254 radius) as [Hb|Hb].
    - rewrite stackblur_bad_radius in H by lia. discriminate.
    - destruct (Z.lt_ge_cases radius 0) as [Hn|Hn]; [|lia].
      exfalso. unfold stackblur, bind, table_read in H. cbv zeta in H.
      rewrite in_range_false in H by lia. discriminate. }
  split; [exact Hr|]. split; [|exact Len].
  unfold stackblur in H. cbv zeta in H.
  apply bind_ok_inv in H. destruct H as (mul_sum & m1 & E1 & H).
  apply bind_ok_inv in H. destruct H as (shr_sum & m2 & E2 & H).
  apply bind_ok_inv in H. destruct H as ([] & m3 & E3 & H).
  apply (keeps_len_ok _ _ _ _ (keeps_len_table_read _ _)) in E1.
  apply (keeps_len_ok _ _ _ _ (keeps_len_table_read _ _)) in E2.
  apply (keeps_len_ok _ _ _ _ (keeps_len_alloc_stack _)) in E3.
  assert (L3 : length (pix m3) = length (pix m)) by congruence.
  apply bind_ok_inv in H. destruct H as ([] & m4 & E4 & H).
  destruct Hs as [-> | ->].
  - change (1 =? 1) with true in E4. cbv iota in E4.
    pose proof (for_loop_ok_inv
                  (fun y (_ : unit) (mm : machine) =>
                     length (pix mm) = length (pix m) /\
                     (0 < y -> (y - 1) * w + (w - 1) < Z.of_nat (length (pix m))))
                  (fun y _ => step1_row L w radius (u32 (w - 1)) (u32 (u32 (radius * 2) + 1))
                                        mul_sum shr_sum y)
                  (Z.to_nat h) 0 tt m3 tt m4) as Inv.
    cbv beta in Inv. rewrite Z.add_0_l, Z2Nat.id in Inv by lia.
    destruct Inv as (_ & Fin); [split; [exact L3|lia]| |exact E4|].
    + intros y [] mm [] m5 Hy (Lm & _) Ey. rewrite step1_row_line in Ey.
      apply blur_line_ok in Ey; [|lia|lia]. destruct Ey as (_ & Fit & L5).
      split; [congruence|]. intros _. replace (y + 1 - 1) with y by lia.
      rewrite u32_small in Fit by (pose proof (rowmajor_fit w h 0 y ltac:(lia) Hy); lia).
      rewrite <- Lm. lia.
    + specialize (Fin ltac:(lia)). lia.
  - change (2 =? 1) with false in E4. cbv iota in E4. injection E4 as <-.
    change (2 =? 2) with true in H. cbv iota in H.
    pose proof (for_loop_ok_inv
                  (fun x (_ : unit) (mm : machine) =>
                     length (pix mm) = length (pix m) /\
                     (0 < x -> (x - 1) + (h - 1) * w < Z.of_nat (length (pix m))))
                  (fun x _ => step2_col L w h radius (u32 (h - 1)) (u32 (u32 (radius * 2) + 1))
                                        mul_sum shr_sum x)
                  (Z.to_nat w) 0 tt m3 tt m') as Inv.
    cbv beta in Inv. rewrite Z.add_0_l, Z2Nat.id in Inv by lia.
    destruct Inv as (_ & Fin); [split; [exact L3|lia]| |exact H|].
    + intros x [] mm [] m5 Hx (Lm & _) Ex. rewrite step2_col_line in Ex.
      apply blur_line_ok in Ex; [|lia|lia]. destruct Ex as (_ & Fit & L5).
      split; [congruence|]. intros _. replace (x + 1 - 1) with x by lia.
      rewrite <- Lm. lia.
    + specialize (Fin ltac:(lia)). lia.
Qed.

Lemma in_bounds_pass_needs_room_witness :
  0 <= 1 <= 254 /\
  2 * 1 <= Z.of_nat (length (pix (boot [9; 200]))) /\
  length (pix (Machine [56; 152] [200; 152; 200]
           [(ASumIn, 152); (ASumOut, 400); (ASum, 752); (ASumIn, 352); (ASumOut, 200);
            (ASum, 400); (AProd, 311808); (ASumIn, 200); (ASumOut, 209); (ASum, 609);
            (ASumIn, 400); (ASumOut, 9); (ASum, 209); (AProd, 116224); (ASumIn, 200);
            (ASum, 227); (ASumOut, 18); (ASum, 27); (ASumOut, 9); (ASum, 9);
            (ASumOut, 0); (ASumIn, 0); (ASum, 0)]))
  = length (pix (boot [9; 200])).
Proof.
  apply (in_bounds_pass_needs_room 32 2 1 1 1 (boot [9; 200]));
    first [lia | (left; reflexivity) | (vm_compute; reflexivity)].
Defined.

(** ** A buffer longer than the image *)

Section PassTail.
Variable L : Z.
Hypothesis HL : 32 <= L.
Variables radius mul_sum shr_sum : Z.
Hypothesis Hradius : 0 <= radius <= 254.
Hypothesis Hmul : 0 <= mul_sum.
Hypothesis Hshr : 0 <= shr_sum.
Hypothesis Hprod : 255 * (radius + 1) * (radius + 1) * mul_sum < 2 ^ 32.
Hypothesis Hscale : Z.shiftr (255 * (radius + 1) * (radius + 1) * mul_sum) shr_sum <= 255.
Variables n lines stride lstride : Z.
Hypothesis Hn : 1 <= n < 2 ^ 32.
Hypothesis Hstride : 1 <= stride.
Hypothesis Hlstride : 0 <= lstride.
Variable basef : Z -> Z.
Variable ptrf : Z -> Z -> Z.
Hypothesis Hbasef : forall l, 0 <= l < lines -> basef l = l * lstride.
Hypothesis Hptrf : forall l j, 0 <= l < lines -> 0 <= j < n ->
                               ptrf l j = cell stride lstride l j.
Hypothesis Hinj : forall l j l' j', 0 <= l < lines -> 0 <= l' < lines ->
                                    0 <= j < n -> 0 <= j' < n ->
                                    cell stride lstride l j = cell stride lstride l' j' -> l = l'.
Variable M0 : machine.
Hypothesis Hfit : forall l, 0 <= l < lines ->
                            l * lstride + (n - 1) * stride < Z.of_nat (length (pix M0)).

Local Abbreviation offg := (off_grid n lines stride lstride).

Lemma pass_step_tail l m :
  0 <= l < lines ->
  pass_inv radius mul_sum shr_sum n lines stride lstride M0 l m ->
  exists m',
    blur_line L radius (2 * radius + 1) mul_sum shr_sum n (n - 1) stride (basef l) (ptrf l) m
    = Ok tt m' /\
    pass_inv radius mul_sum shr_sum n lines stride lstride M0 (l + 1) m' /\
    forall q, offg q -> peek (pix m') q = peek (pix m) q.
Proof.
  intros Hl I.
  destruct (pass_step L HL radius mul_sum shr_sum Hradius Hmul Hshr Hprod Hscale
              n lines stride lstride Hn Hstride Hlstride basef ptrf Hbasef Hptrf Hinj
              M0 Hfit l m Hl I) as (m' & E & I').
  exists m'. split; [exact E|]. split; [exact I'|].
  destruct I as [P1 P2 P3 P4 _ _].
  assert (Hb : 0 <= l * lstride) by (apply Z.mul_nonneg_nonneg; lia).
  destruct (blur_line_spec L HL radius mul_sum shr_sum Hradius Hmul Hshr Hprod Hscale
              n stride (basef l) Hn Hstride ltac:(rewrite Hbasef by lia; exact Hb)
              (ptrf l)
              ltac:(intros j Hj; rewrite Hptrf, Hbasef by lia; reflexivity)
              m
              ltac:(rewrite Hbasef, P1 by lia; now apply Hfit)
              P2 P3 P4)
    as (m'' & E'' & [[_ _ F3 _ _] _]).
  rewrite E in E''. injection E'' as <-.
  intros q [Hq Hoff]. apply F3; [exact Hq|].
  intros j Hj. rewrite Hbasef by lia. now apply Hoff.
Qed.

Lemma pass_spec_tail m :
  0 <= lines ->
  pass_inv radius mul_sum shr_sum n lines stride lstride M0 0 m ->
  exists m',
    for_loop (Z.to_nat lines) 0
      (fun l _ => blur_line L radius (2 * radius + 1) mul_sum shr_sum n (n - 1) stride
                            (basef l) (ptrf l)) tt m
    = Ok tt m' /\
    pass_inv radius mul_sum shr_sum n lines stride lstride M0 lines m' /\
    forall q, offg q -> peek (pix m') q = peek (pix m) q.
Proof.
  intros Hlines I0.
  destruct (for_loop_inv
              (fun l (_ : unit) mm =>
                 pass_inv radius mul_sum shr_sum n lines stride lstride M0 l mm /\
                 forall q, offg q -> peek (pix mm) q = peek (pix m) q)
              (fun l _ => blur_line L radius (2 * radius + 1) mul_sum shr_sum n (n - 1) stride
                                    (basef l) (ptrf l))
              (Z.to_nat lines) 0 tt m) as ([] & m' & E & I).
  - split; [exact I0|]. intros; reflexivity.
  - intros i [] mi Hi [Ii Ti].
    destruct (pass_step_tail i mi ltac:(lia) Ii) as (m2 & E2 & I2 & T2).
    exists tt, m2. split; [exact E2|]. split; [exact I2|].
    intros q Hq. rewrite T2 by exact Hq. now apply Ti.
  - rewrite Z.add_0_l, Z2Nat.id in I by lia.
    exists m'. split; [exact E|exact I].
Qed.
End PassTail.

Section LongBuffer.
Variable L : Z.
Hypothesis HL : 32 <= L.
Variables w h radius : Z.
Hypothesis Hw : 1 <= w.
Hypothesis Hh : 1 <= h.
Hypothesis Hwh : w * h < 2 ^ 32.
Hypothesis Hradius : 0 <= radius <= 254.
Variable m : machine.
Hypothesis Hlen : w * h <= Z.of_nat (length (pix m)).
Hypothesis Hbytes : is_bytes (pix m) = true.
Hypothesis Htrace : Forall (ev_ok radius (mul_of radius)) (trace m).

Lemma horizontal_pass_long :
  exists m',
    stackblur L w h radius 1 m = Ok tt m' /\
    length (pix m') = length (pix m) /\
    is_bytes (pix m') = true /\
    Forall (ev_ok radius (mul_of radius)) (trace m') /\
    (forall x y, 0 <= x < w -> 0 <= y < h ->
                 peek (pix m') (y * w + x) = blurred radius (row (pix m) w y) w x) /\
    (forall q, w * h <= q -> peek (pix m') q = peek (pix m) q).
Proof.
  assert (Hws : w < 2 ^ 32) by nia. assert (Hhs : h < 2 ^ 32) by nia.
  destruct (table_facts radius Hradius) as (T1 & T2 & T3 & T4).
  destruct table_length as [Lm Ls].
  unfold stackblur.
  rewrite run_table_read by (rewrite Lm; lia).
  rewrite run_table_read by (rewrite Ls; lia).
  rewrite run_alloc_stack.
  change (1 =? 1) with true. change (1 =? 2) with false. cbv iota.
  rewrite div_small by lia. rewrite (u32_small (w - 1)) by lia.
  fold (mul_of radius). fold (shr_of radius).
  set (m1 := Machine _ _ _).
  destruct (pass_spec_tail L HL radius (mul_of radius) (shr_of radius) Hradius T1 T2 T3
              ltac:(rewrite (T4 255) by lia; lia)
              w h 1 w ltac:(lia) ltac:(lia) ltac:(lia)
              (fun y => u32 (y * w)) (fun y xp => xp + u32 (y * w))) with (M0 := m) (m := m1)
    as (m' & E & [P1 P2 P3 P4 P5 P6] & Tl).
  - intros l Hl. apply u32_small. pose proof (rowmajor_fit w h 0 l ltac:(lia) Hl). lia.
  - intros l j Hl Hj. unfold cell. rewrite u32_small; [lia|].
    pose proof (rowmajor_fit w h 0 l ltac:(lia) Hl). lia.
  - intros l j l' j' Hl Hl' Hj Hj' C. unfold cell in C.
    apply (rowmajor_inj w l l' j j'); lia.
  - intros l Hl. pose proof (rowmajor_fit w h (w - 1) l ltac:(lia) Hl). lia.
  - lia.
  - subst m1. constructor; cbn [pix stk trace];
      [reflexivity|exact Hbytes| |exact Htrace| |].
    + rewrite length_resize. lia.
    + intros l' j Hl'. lia.
    + intros l' j Hl' Hj. reflexivity.
  - exists m'. split; [|repeat split; auto].
    + change (for_loop (Z.to_nat h) 0
                (fun y _ => step1_row L w radius (w - 1) (2 * radius + 1)
                                      (mul_of radius) (shr_of radius) y) tt)
        with (for_loop (Z.to_nat h) 0
                (fun l (_ : unit) =>
                   blur_line L radius (2 * radius + 1) (mul_of radius) (shr_of radius)
                             w (w - 1) 1 (u32 (l * w)) (fun xp => xp + u32 (l * w))) tt).
      rewrite (run_bind_ok _ _ _ _ _ E). reflexivity.
    + intros x y Hx Hy. specialize (P5 y x Hy Hx). unfold cell in P5.
      replace (y * w + x) with (y * w + x * 1) by lia. rewrite P5, emit_blurred by lia.
      apply blurred_ext; [lia|lia|]. intros j Hj. unfold pass_line, cell, row. f_equal. lia.
    + intros q Hq. rewrite Tl; [reflexivity|]. split; [nia|].
      intros l j Hl Hj. unfold cell. pose proof (rowmajor_fit w h j l Hj Hl). lia.
Qed.

Lemma vertical_pass_long :
  exists m',
    stackblur L w h radius 2 m = Ok tt m' /\
    length (pix m') = length (pix m) /\
    is_bytes (pix m') = true /\
    Forall (ev_ok radius (mul_of radius)) (trace m') /\
    (forall x y, 0 <= x < w -> 0 <= y < h ->
                 peek (pix m') (y * w + x) = blurred radius (col (pix m) w x) h y) /\
    (forall q, w * h <= q -> peek (pix m') q = peek (pix m) q).
Proof.
  assert (Hws : w < 2 ^ 32) by nia. assert (Hhs : h < 2 ^ 32) by nia.
  destruct (table_facts radius Hradius) as (T1 & T2 & T3 & T4).
  destruct table_length as [Lm Ls].
  unfold stackblur.
  rewrite run_table_read by (rewrite Lm; lia).
  rewrite run_table_read by (rewrite Ls; lia).
  rewrite run_alloc_stack.
  change (2 =? 1) with false. change (2 =? 2) with true. cbv iota.
  rewrite div_small by lia. rewrite (u32_small (h - 1)) by lia.
  fold (mul_of radius). fold (shr_of radius).
  set (m1 := Machine _ _ _).
  destruct (pass_spec_tail L HL radius (mul_of radius) (shr_of radius) Hradius T1 T2 T3
              ltac:(rewrite (T4 255) by lia; lia)
              h w w 1 ltac:(lia) ltac:(lia) ltac:(lia)
              (fun x => x) (fun x yp => x + u32 (yp * w))) with (M0 := m) (m := m1)
    as (m' & E & [P1 P2 P3 P4 P5 P6] & Tl).
  - intros l Hl. lia.
  - intros l j Hl Hj. unfold cell. rewrite u32_small; [lia|].
    pose proof (rowmajor_fit w h 0 j ltac:(lia) Hj). lia.
  - intros l j l' j' Hl Hl' Hj Hj' C. unfold cell in C.
    apply (rowmajor_inj w j j' l l'); lia.
  - intros l Hl. pose proof (rowmajor_fit w h l (h - 1) Hl ltac:(lia)). lia.
  - lia.
  - subst m1. constructor; cbn [pix stk trace];
      [reflexivity|exact Hbytes| |exact Htrace| |].
    + rewrite length_resize. lia.
    + intros l' j Hl'. lia.
    + intros l' j Hl' Hj. reflexivity.
  - exists m'. split; [|repeat split; auto].
    + rewrite run_ret.
      change (for_loop (Z.to_nat w) 0
                (fun x _ => step2_col L w h radius (h - 1) (2 * radius + 1)
                                      (mul_of radius) (shr_of radius) x) tt)
        with (for_loop (Z.to_nat w) 0
                (fun l (_ : unit) =>
                   blur_line L radius (2 * radius + 1) (mul_of radius) (shr_of radius)
                             h (h - 1) w l (fun yp => l + u32 (yp * w))) tt).
      exact E.
    + intros x y Hx Hy. specialize (P5 x y Hx Hy). unfold cell in P5.
      replace (y * w + x) with (x * 1 + y * w) by lia. rewrite P5, emit_blurred by lia.
      apply blurred_ext; [lia|lia|]. intros j Hj. unfold pass_line, cell, col. f_equal. lia.
    + intros q Hq. rewrite Tl; [reflexivity|]. split; [nia|].
      intros l j Hl Hj. unfold cell. pose proof (rowmajor_fit w h l j Hl Hj). lia.
Qed.
End LongBuffer.

(** X12. A buffer longer than width*height is blurred on its first
    width*height bytes exactly as a buffer of that length is, and every
    byte after them is left as it was. *)
Theorem longer_buffer_tail_untouched L w h radius m :
  32 <= L -> 1 <= w -> 1 <= h -> w * h < 2 ^ 32 -> 0 <= radius <= 254 ->
  w * h <= Z.of_nat (length (pix m)) -> is_bytes (pix m) = true -> trace m = [] ->
  exists m1 m2,
    stackblur L w h radius 1 m = Ok tt m1 /\
    Java_com_jxtras_android_utils_ImageUtils_stackblur L w h radius m = Ok tt m2 /\
    length (pix m2) = length (pix m) /\
    (forall x y, 0 <= x < w -> 0 <= y < h ->
                 peek (pix m1) (y * w + x) = blurred radius (row (pix m) w y) w x) /\
    (forall x y, 0 <= x < w -> 0 <= y < h ->
                 peek (pix m2) (y * w + x) = blurred radius (col (pix m1) w x) h y) /\
    (forall q, w * h <= q -> peek (pix m2) q = peek (pix m) q).
Proof.
  intros HL Hw Hh Hwh Hr Hlen Hb Ht.
  destruct (horizontal_pass_long L HL w h radius Hw Hh Hwh Hr m Hlen Hb
              ltac:(rewrite Ht; constructor))
    as (m1 & E1 & L1 & B1 & T1 & F1 & G1).
  destruct (vertical_pass_long L HL w h radius Hw Hh Hwh Hr m1 ltac:(lia) B1 T1)
    as (m2 & E2 & L2 & B2 & T2 & F2 & G2).
  exists m1, m2. repeat split; auto; try lia.
  - unfold Java_com_jxtras_android_utils_ImageUtils_stackblur.
    rewrite !u32_small by nia. rewrite (run_bind_ok _ _ _ _ _ E1). exact E2.
  - intros q Hq. rewrite G2, G1 by lia. reflexivity.
Qed.

Lemma longer_buffer_tail_untouched_witness :
  exists m1 m2,
    stackblur 32 2 1 1 1 (boot [9; 200; 77; 88]) = Ok tt m1 /\
    Java_com_jxtras_android_utils_ImageUtils_stackblur 32 2 1 1 (boot [9; 200; 77; 88])
    = Ok tt m2 /\
    length (pix m2) = length (pix (boot [9; 200; 77; 88])) /\
    (forall x y, 0 <= x < 2 -> 0 <= y < 1 ->
                 peek (pix m1) (y * 2 + x) =
                 blurred 1 (row (pix (boot [9; 200; 77; 88])) 2 y) 2 x) /\
    (forall x y, 0 <= x < 2 -> 0 <= y < 1 ->
                 peek (pix m2) (y * 2 + x) = blurred 1 (col (pix m1) 2 x) 1 y) /\
    (forall q, 2 * 1 <= q -> peek (pix m2) q = peek (pix (boot [9; 200; 77; 88])) q).
Proof.
  apply (longer_buffer_tail_untouched 32 2 1 1 (boot [9; 200; 77; 88]));
    first [lia | reflexivity | (cbn; lia)].
Defined.
